(** * TurtVenture: the simulation core of the side-scrolling game

    A shallow embedding of [src/main.py] and [src/main2.py].  The two files
    are variants of one program; the embedding is parameterised by a
    [variant] wherever they differ.

    Modelling decisions.
    - Turtle coordinates of the player and of the obstacles only ever hold
      Python integers (every [goto] receives an [int]), so they are [Z].
      Pickups are moved by [random.uniform] amounts; their coordinates are
      rationals [Q], an idealisation of the floats the program computes.
    - Game objects are Python objects held by reference in the waiting and
      in-play lists.  The embedding keeps a heap of objects indexed by an
      identifier and the lists hold identifiers, so that [list.remove] and
      the [for] loops over a list that shrinks under the loop behave as in
      Python.
    - [random] is the environment: every tick receives its draws.
    - The Tk screen is the environment too: the state records whether a
      [game_loop] timer is pending and which key handlers are bound.  Tk
      runs a handler when the program hands it control: between two ticks
      and, in main2.py, inside [screen.update()] in the collision branch of
      [handle_obstacle], in the middle of the loop over the obstacles.
      [handle_obstacle_main2_keys], [game_loop_keys] and [session_keys]
      receive the key presses pending at each such call; [handle_obstacle],
      [game_loop], [deliver] and [reachable] are the case in which none is
      pending there, and all there is for main.py, which makes no such call.
    - Drawing is left out: shapes, colours and the score and hitpoint
      writers change nothing the simulation reads.  Of the game-over screen
      only the fact that it was shown is kept. *)

From Stdlib Require Import ZArith QArith Qabs Lia Lqa.
From stdpp Require Import list.

Local Open Scope Z_scope.

(** ** Exceptions and the result monad *)

Inductive exn := ValueError | IndexError.

Inductive result (A : Type) : Type :=
| Ok (a : A)
| Raise (e : exn)
| OutOfFuel.
Arguments Ok {A} a.
Arguments Raise {A} e.
Arguments OutOfFuel {A}.

Global Instance result_bind : MBind result := λ A B k m,
  match m with
  | Ok a => k a
  | Raise e => Raise e
  | OutOfFuel => OutOfFuel
  end.

(** ** Constants *)

Definition SCREEN_WIDTH : Z := 1200.
Definition SCREEN_HEIGHT : Z := 600.
Definition PLAYER_SIZE : Z := 100.
Definition OBJECT_SIZE : Z := SCREEN_HEIGHT / 5.
Definition GRAVITY : Z := 1.
Definition PLAYER_SPEED : Z := 15.
Definition OBJECT_SPEED : Z := 6.
Definition BUFFER : Z := 20.
(** [WALL = -SCREEN_WIDTH // 2 + round(1 / 3 * SCREEN_WIDTH)], main2.py only. *)
Definition WALL : Z := (- SCREEN_WIDTH) / 2 + 400.

Inductive variant := main | main2.

(** [Player.hitpoints] at creation: the literal 1 in main.py, [HITPOINTS] in
    main2.py. *)
Definition HITPOINTS (v : variant) : Z :=
  match v with main => 1 | main2 => 5 end.

(** The y coordinate of the ground for the player. *)
Definition GROUND : Z := (- SCREEN_HEIGHT) / 2 + PLAYER_SIZE / 2.

(** ** Python list operations *)

(** [l.remove(x)]: drops the first occurrence, [ValueError] when absent. *)
Fixpoint list_remove (x : nat) (l : list nat) : result (list nat) :=
  match l with
  | [] => Raise ValueError
  | y :: l' =>
      if decide (x = y) then Ok l'
      else (r ← list_remove x l'; Ok (y :: r))
  end.

(** [l.pop(0)]: [IndexError] on the empty list. *)
Definition pop0 (l : list nat) : result (nat * list nat) :=
  match l with
  | [] => Raise IndexError
  | x :: l' => Ok (x, l')
  end.

(** ** Player *)

Module Player.
Record t := mk { xcor : Z; ycor : Z; dy : Z; hitpoints : Z }.

Definition new (v : variant) (x y : Z) : t :=
  {| xcor := x; ycor := y; dy := 0; hitpoints := HITPOINTS v |}.

Definition goto (x y : Z) (p : t) : t :=
  {| xcor := x; ycor := y; dy := dy p; hitpoints := hitpoints p |}.

Definition set_dy (d : Z) (p : t) : t :=
  {| xcor := xcor p; ycor := ycor p; dy := d; hitpoints := hitpoints p |}.

Definition set_hitpoints (h : Z) (p : t) : t :=
  {| xcor := xcor p; ycor := ycor p; dy := dy p; hitpoints := h |}.

Definition move_left (v : variant) (p : t) : t :=
  match v with
  | main => goto (xcor p - PLAYER_SPEED) (ycor p) p
  | main2 =>
      if decide (xcor p - OBJECT_SIZE / 2 > (- SCREEN_WIDTH) / 2)
      then goto (xcor p - PLAYER_SPEED) (ycor p) p
      else p
  end.

(** main2.py compares [xcor + 0.5 * OBJECT_SIZE < WALL]; [0.5 * 120] is
    the integer 60, which is [OBJECT_SIZE / 2]. *)
Definition move_right (v : variant) (p : t) : t :=
  match v with
  | main => goto (xcor p + PLAYER_SPEED) (ycor p) p
  | main2 =>
      if decide (xcor p + OBJECT_SIZE / 2 < WALL)
      then goto (xcor p + PLAYER_SPEED) (ycor p) p
      else p
  end.

Definition jump (p : t) : t :=
  if decide (ycor p <= GROUND) then set_dy 15 p else p.

Definition fall (p : t) : t :=
  let p := goto (xcor p) (ycor p + dy p) p in
  let p := set_dy (dy p - GRAVITY) p in
  if decide (ycor p <= GROUND)
  then goto (xcor p) GROUND (set_dy 0 p)
  else p.
End Player.

(** ** Obstacle *)

Module Obstacle.
Record t := mk { xcor : Z; ycor : Z; counted : bool }.

Definition new (x y : Z) : t := {| xcor := x; ycor := y; counted := false |}.

Definition goto (x y : Z) (o : t) : t :=
  {| xcor := x; ycor := y; counted := counted o |}.

Definition set_counted (b : bool) (o : t) : t :=
  {| xcor := xcor o; ycor := ycor o; counted := b |}.

Definition move (o : t) : t := goto (xcor o - OBJECT_SPEED) (ycor o) o.

Definition is_out_of_screen (o : t) : bool :=
  bool_decide (xcor o < (- SCREEN_WIDTH) / 2 - OBJECT_SIZE / 2).

Global Instance inhabited : Inhabited t := populate (new 0 0).
End Obstacle.

(** ** Pickup

    The program holds the coordinates of a pickup as floats; here they are
    exact rationals.  The statements about pickups below read of the
    coordinates only the outcome of the two tests of [handle_pickup], except
    where a bound is stated that rounding to the nearest float keeps. *)

Definition Qltb (a b : Q) : bool := negb (Qle_bool b a).

Module Pickup.
Record t := mk { xcor : Q; ycor : Q; speed : Q }.

Definition new (x y : Z) : t :=
  {| xcor := inject_Z x; ycor := inject_Z y; speed := inject_Z OBJECT_SPEED |}.

Definition goto (x y : Q) (p : t) : t :=
  {| xcor := x; ycor := y; speed := speed p |}.

(** [move] draws [random.uniform(OBJECT_SPEED//4, OBJECT_SPEED)] and
    [random.uniform(-2, 2)]; the two values are the arguments. *)
Definition move (new_speed wobble : Q) (p : t) : t :=
  let p := {| xcor := xcor p; ycor := ycor p; speed := new_speed |} in
  goto (xcor p - speed p)%Q (ycor p + wobble)%Q p.

Definition is_out_of_screen (p : t) : bool :=
  Qltb (xcor p) (inject_Z ((- SCREEN_WIDTH) / 2 - OBJECT_SIZE / 2)).

Global Instance inhabited : Inhabited t := populate (new 0 0).
End Pickup.

(** ** The screen: what Tk holds for the game *)

Module Screen.
Record t := mk {
  timer_pending : bool;     (* [ontimer(self.game_loop, FPS)] is pending *)
  key_space : bool;         (* [onkeypress(self.player.jump, 'space')] *)
  key_a : bool;             (* [onkeypress(self.player.move_left, 'a')] *)
  key_d : bool;             (* [onkeypress(self.player.move_right, 'd')] *)
  game_over_shown : nat     (* number of times 'Game Over' was written *)
}.
End Screen.

(** ** SidescrollingGame *)

Record Game := mkGame {
  player : Player.t;
  obstacles : list Obstacle.t;          (* the Obstacle objects, by identifier *)
  pickups : list Pickup.t;              (* the Pickup objects, by identifier *)
  waiting_obstacles : list nat;
  in_play_obstacles : list nat;
  waiting_pickups : list nat;
  in_play_pickups : list nat;
  score : Z;
  obstacle_timer : Z;
  pickup_timer : Z;
  screen : Screen.t
}.

Definition set_player (p : Player.t) (g : Game) : Game :=
  mkGame p (obstacles g) (pickups g) (waiting_obstacles g) (in_play_obstacles g)
    (waiting_pickups g) (in_play_pickups g) (score g) (obstacle_timer g)
    (pickup_timer g) (screen g).

Definition set_obstacles (os : list Obstacle.t) (g : Game) : Game :=
  mkGame (player g) os (pickups g) (waiting_obstacles g) (in_play_obstacles g)
    (waiting_pickups g) (in_play_pickups g) (score g) (obstacle_timer g)
    (pickup_timer g) (screen g).

Definition set_pickups (ps : list Pickup.t) (g : Game) : Game :=
  mkGame (player g) (obstacles g) ps (waiting_obstacles g) (in_play_obstacles g)
    (waiting_pickups g) (in_play_pickups g) (score g) (obstacle_timer g)
    (pickup_timer g) (screen g).

Definition set_obstacle_pools (w i : list nat) (g : Game) : Game :=
  mkGame (player g) (obstacles g) (pickups g) w i
    (waiting_pickups g) (in_play_pickups g) (score g) (obstacle_timer g)
    (pickup_timer g) (screen g).

Definition set_pickup_pools (w i : list nat) (g : Game) : Game :=
  mkGame (player g) (obstacles g) (pickups g) (waiting_obstacles g)
    (in_play_obstacles g) w i (score g) (obstacle_timer g)
    (pickup_timer g) (screen g).

Definition set_score (n : Z) (g : Game) : Game :=
  mkGame (player g) (obstacles g) (pickups g) (waiting_obstacles g)
    (in_play_obstacles g) (waiting_pickups g) (in_play_pickups g) n
    (obstacle_timer g) (pickup_timer g) (screen g).

Definition set_obstacle_timer (n : Z) (g : Game) : Game :=
  mkGame (player g) (obstacles g) (pickups g) (waiting_obstacles g)
    (in_play_obstacles g) (waiting_pickups g) (in_play_pickups g) (score g)
    n (pickup_timer g) (screen g).

Definition set_pickup_timer (n : Z) (g : Game) : Game :=
  mkGame (player g) (obstacles g) (pickups g) (waiting_obstacles g)
    (in_play_obstacles g) (waiting_pickups g) (in_play_pickups g) (score g)
    (obstacle_timer g) n (screen g).

Definition set_screen (sc : Screen.t) (g : Game) : Game :=
  mkGame (player g) (obstacles g) (pickups g) (waiting_obstacles g)
    (in_play_obstacles g) (waiting_pickups g) (in_play_pickups g) (score g)
    (obstacle_timer g) (pickup_timer g) sc.

(** The object behind an identifier. *)
Definition obstacle (g : Game) (ob : nat) : Obstacle.t := obstacles g !!! ob.
Definition pickup (g : Game) (pk : nat) : Pickup.t := pickups g !!! pk.

Definition update_obstacle (ob : nat) (f : Obstacle.t → Obstacle.t) (g : Game) : Game :=
  set_obstacles (<[ob := f (obstacle g ob)]> (obstacles g)) g.

Definition update_pickup (pk : nat) (f : Pickup.t → Pickup.t) (g : Game) : Game :=
  set_pickups (<[pk := f (pickup g pk)]> (pickups g)) g.

(** Spawn point of an obstacle, [create_obstacle] and [reset_obstacle]. *)
Definition OBSTACLE_X : Z := SCREEN_WIDTH + OBJECT_SIZE / 2.
Definition OBSTACLE_Y : Z := (- SCREEN_HEIGHT) / 2 + OBJECT_SIZE / 4.

Definition create_obstacle : Obstacle.t := Obstacle.new OBSTACLE_X OBSTACLE_Y.

(** [create_pickup]; [y] is the value drawn by [random.randint]. *)
Definition create_pickup (y : Z) : Pickup.t :=
  Pickup.new (SCREEN_WIDTH + OBJECT_SIZE / 2) y.

(** [check_collision] for an obstacle. *)
Definition check_collision (g : Game) (o : Obstacle.t) : bool :=
  bool_decide (Z.abs (Obstacle.xcor o - Player.xcor (player g)) < OBJECT_SIZE / 2 - BUFFER)
  && bool_decide (Z.abs (Obstacle.ycor o - Player.ycor (player g)) < OBJECT_SIZE / 2 - BUFFER).

(** [check_collision] for a pickup: the same test on rational coordinates. *)
Definition check_collision_pickup (g : Game) (p : Pickup.t) : bool :=
  Qltb (Qabs (Pickup.xcor p - inject_Z (Player.xcor (player g))))
       (inject_Z (OBJECT_SIZE / 2 - BUFFER))
  && Qltb (Qabs (Pickup.ycor p - inject_Z (Player.ycor (player g))))
          (inject_Z (OBJECT_SIZE / 2 - BUFFER)).

Definition reset_obstacle (ob : nat) (g : Game) : result Game :=
  ip ← list_remove ob (in_play_obstacles g);
  let g := set_obstacle_pools (waiting_obstacles g ++ [ob]) ip g in
  let g := update_obstacle ob (Obstacle.goto OBSTACLE_X OBSTACLE_Y) g in
  Ok (update_obstacle ob (Obstacle.set_counted false) g).

(** [reset_pickup]; [y] is the value drawn by [random.randint]. *)
Definition reset_pickup (y : Z) (pk : nat) (g : Game) : result Game :=
  ip ← list_remove pk (in_play_pickups g);
  let g := set_pickup_pools (waiting_pickups g ++ [pk]) ip g in
  Ok (update_pickup pk (Pickup.goto (inject_Z (SCREEN_WIDTH + OBJECT_SIZE / 2)) (inject_Z y)) g).

Definition damage_player (g : Game) : Game :=
  set_player (Player.set_hitpoints (Player.hitpoints (player g) - 1) (player g)) g.

(** [handle_obstacle] of main.py: collision, else dodge point; then, in a
    separate [if], the off-screen test. *)
Definition handle_obstacle_main (ob : nat) (g : Game) : result Game :=
  g ← (if check_collision g (obstacle g ob) then
         reset_obstacle ob (damage_player g)
       else if bool_decide (Obstacle.xcor (obstacle g ob) < Player.xcor (player g))
               && negb (Obstacle.counted (obstacle g ob)) then
         Ok (update_obstacle ob (Obstacle.set_counted true) (set_score (score g + 1) g))
       else Ok g);
  if Obstacle.is_out_of_screen (obstacle g ob) then reset_obstacle ob g
  else Ok g.

(** The keys of the game, and what Tk does with a key press it finds
    pending while a tick of main2.py is in its loop over the obstacles:
    ['a'] and ['d'] were bound by this [game_loop] before the loop, [space]
    is bound if the screen says so. *)
Inductive key := K_space | K_a | K_d.

Definition press_key (v : variant) (k : key) (g : Game) : Game :=
  match k with
  | K_space =>
      if Screen.key_space (screen g) then set_player (Player.jump (player g)) g
      else g
  | K_a => set_player (Player.move_left v (player g)) g
  | K_d => set_player (Player.move_right v (player g)) g
  end.

Fixpoint press_keys (v : variant) (ks : list key) (g : Game) : Game :=
  match ks with
  | [] => g
  | k :: ks => press_keys v ks (press_key v k g)
  end.

(** [handle_obstacle] of main2.py: one chain, off-screen test first.  The
    collision branch calls [self.screen.update()] before it takes the
    hitpoint, and Tk runs the handlers of the key presses [ks] pending
    then. *)
Definition handle_obstacle_main2_keys (ks : list key) (ob : nat) (g : Game)
  : result Game :=
  if Obstacle.is_out_of_screen (obstacle g ob) then reset_obstacle ob g
  else if check_collision g (obstacle g ob) then
    reset_obstacle ob (damage_player (press_keys main2 ks g))
  else if bool_decide (Obstacle.xcor (obstacle g ob) < Player.xcor (player g))
          && negb (Obstacle.counted (obstacle g ob)) then
    Ok (update_obstacle ob (Obstacle.set_counted true) (set_score (score g + 1) g))
  else Ok g.

(** The same with no key press pending at the [update]. *)
Definition handle_obstacle_main2 (ob : nat) (g : Game) : result Game :=
  handle_obstacle_main2_keys [] ob g.

Definition handle_obstacle (v : variant) : nat → Game → result Game :=
  match v with main => handle_obstacle_main | main2 => handle_obstacle_main2 end.

Definition handle_pickup_main (y : Z) (pk : nat) (g : Game) : result Game :=
  g ← (if check_collision_pickup g (pickup g pk) then
         reset_pickup y pk (set_score (score g + 5) g)
       else Ok g);
  if Pickup.is_out_of_screen (pickup g pk) then reset_pickup y pk g
  else Ok g.

Definition handle_pickup_main2 (y : Z) (pk : nat) (g : Game) : result Game :=
  if Pickup.is_out_of_screen (pickup g pk) then reset_pickup y pk g
  else if check_collision_pickup g (pickup g pk) then
    reset_pickup y pk (set_score (score g + 5) g)
  else Ok g.

Definition handle_pickup (v : variant) : Z → nat → Game → result Game :=
  match v with main => handle_pickup_main | main2 => handle_pickup_main2 end.

Definition game_over (g : Game) : bool :=
  bool_decide (Player.hitpoints (player g) <= 0).

(** ** The random draws of one tick

    [obstacle_roll] and [pickup_roll] are the values of the two
    [random.random()] calls of the admission tests (read only when the
    tests reach them); [speed_roll k] and [wobble_roll k] are the two
    [random.uniform] values of [Pickup.move] in iteration [k] of the pickup
    loop and [respawn_roll k] the [random.randint] value of [reset_pickup]
    there. *)
Record draws := mkDraws {
  obstacle_roll : Q;
  pickup_roll : Q;
  speed_roll : nat → Q;
  wobble_roll : nat → Q;
  respawn_roll : nat → Z
}.

(** ** The spawner: the two admission tests of [game_loop] *)

(** [len(waiting) > 0] is written [0 < length waiting]. *)
Definition obstacle_due (d : draws) (g : Game) : bool :=
  bool_decide (30 <= obstacle_timer g)
  && bool_decide (length (in_play_obstacles g) < 10)%nat
  && bool_decide (0 < length (waiting_obstacles g))%nat
  && Qle_bool (obstacle_roll d) (1 # 2).

Definition pickup_due (d : draws) (g : Game) : bool :=
  bool_decide (12 <= pickup_timer g)
  && bool_decide (length (in_play_pickups g) < 1)%nat
  && bool_decide (0 < length (waiting_pickups g))%nat
  && Qltb (pickup_roll d) (1 # 5).

Definition admit_obstacle (g : Game) : result Game :=
  '(ob, w) ← pop0 (waiting_obstacles g);
  Ok (set_obstacle_pools w (in_play_obstacles g ++ [ob]) g).

Definition admit_pickup (g : Game) : result Game :=
  '(pk, w) ← pop0 (waiting_pickups g);
  Ok (set_pickup_pools w (in_play_pickups g ++ [pk]) g).

(** main2.py wraps the pop in [if self.waiting_obstacles:]. *)
Definition spawn_obstacle (v : variant) (d : draws) (g : Game) : result Game :=
  if obstacle_due d g then
    g ← match v with
        | main => admit_obstacle g
        | main2 =>
            if bool_decide (waiting_obstacles g ≠ []) then admit_obstacle g
            else Ok g
        end;
    Ok (set_obstacle_timer 0 g)
  else Ok g.

Definition spawn_pickup (v : variant) (d : draws) (g : Game) : result Game :=
  if pickup_due d g then
    g ← match v with
        | main => admit_pickup g
        | main2 =>
            if bool_decide (waiting_pickups g ≠ []) then admit_pickup g
            else Ok g
        end;
    Ok (set_pickup_timer 0 g)
  else Ok g.

(** ** The two [for] loops of [game_loop]

    [for x in lst: body] keeps a cursor into [lst] and stops when the cursor
    is past the end of the list as it is then; the body may shrink the list.
    [lst] reads the list off the state, the body receives the cursor and the
    element, and [fuel] bounds the number of iterations. *)

Fixpoint for_in (lst : Game → list nat) (body : nat → nat → Game → result Game)
  (fuel : nat) (i : nat) (g : Game) : result Game :=
  match fuel with
  | O => OutOfFuel
  | S fuel =>
      match lst g !! i with
      | None => Ok g
      | Some x => g ← body i x g; for_in lst body fuel (S i) g
      end
  end.

(** The elements on which the loop runs its body, in order. *)
Fixpoint for_in_visits (lst : Game → list nat) (body : nat → nat → Game → result Game)
  (fuel : nat) (i : nat) (g : Game) : list nat :=
  match fuel with
  | O => []
  | S fuel =>
      match lst g !! i with
      | None => []
      | Some x =>
          x :: match body i x g with
               | Ok g => for_in_visits lst body fuel (S i) g
               | _ => []
               end
      end
  end.

(** [obstacle.move(); self.handle_obstacle(obstacle)] *)
Definition obstacle_body (v : variant) (i : nat) (ob : nat) (g : Game) : result Game :=
  handle_obstacle v ob (update_obstacle ob Obstacle.move g).

(** [pickup.move(); self.handle_pickup(pickup)] *)
Definition pickup_body (v : variant) (d : draws) (i : nat) (pk : nat) (g : Game)
  : result Game :=
  handle_pickup v (respawn_roll d i) pk
    (update_pickup pk (Pickup.move (speed_roll d i) (wobble_roll d i)) g).

Definition obstacle_loop (v : variant) : nat → nat → Game → result Game :=
  for_in in_play_obstacles (obstacle_body v).

Definition pickup_loop (v : variant) (d : draws) : nat → nat → Game → result Game :=
  for_in in_play_pickups (pickup_body v d).

(** ** [game_loop] *)

(** The [else] branch: [screen.clear()] drops every key binding, the text
    'Game Over' is written and no timer is set. *)
Definition show_game_over_screen (g : Game) : Game :=
  set_screen {| Screen.timer_pending := false;
                Screen.key_space := false;
                Screen.key_a := false;
                Screen.key_d := false;
                Screen.game_over_shown := S (Screen.game_over_shown (screen g)) |} g.

(** The end of the running branch: the two [onkeypress] calls and
    [ontimer(self.game_loop, FPS)]. *)
Definition rearm (g : Game) : Game :=
  set_screen {| Screen.timer_pending := true;
                Screen.key_space := Screen.key_space (screen g);
                Screen.key_a := true;
                Screen.key_d := true;
                Screen.game_over_shown := Screen.game_over_shown (screen g) |} g.

Definition game_loop (v : variant) (d : draws) (g : Game) : result Game :=
  if negb (game_over g) then
    let g := set_obstacle_timer (obstacle_timer g + 1) g in
    let g := set_pickup_timer (pickup_timer g + 1) g in
    g ← spawn_obstacle v d g;
    g ← spawn_pickup v d g;
    let g := set_player (Player.fall (player g)) g in
    g ← obstacle_loop v (S (length (in_play_obstacles g))) 0 g;
    g ← pickup_loop v d (S (length (in_play_pickups g))) 0 g;
    Ok (rearm g)
  else Ok (show_game_over_screen g).

(** ** The session *)

(** The state built by [__init__] up to, and without, its call of
    [game_loop]; [ys k] is the [random.randint] value of the [k]-th
    [create_pickup]. *)
Definition new_game (v : variant) (ys : nat → Z) : Game :=
  {| player := Player.new v ((- SCREEN_WIDTH) / 3) GROUND;
     obstacles := replicate 10 create_obstacle;
     pickups := (λ k, create_pickup (ys k)) <$> seq 0 10;
     waiting_obstacles := seq 0 10;
     in_play_obstacles := [];
     waiting_pickups := seq 0 10;
     in_play_pickups := [];
     score := 0;
     obstacle_timer := 0;
     pickup_timer := 15;
     screen := {| Screen.timer_pending := false;
                  Screen.key_space := true;
                  Screen.key_a := false;
                  Screen.key_d := false;
                  Screen.game_over_shown := 0 |} |}.

(** What Tk can run after [__init__]: the pending timer, or a key handler. *)
Inductive event :=
| Timer (d : draws)
| Key_space
| Key_a
| Key_d.

Definition take_timer (g : Game) : Game :=
  set_screen {| Screen.timer_pending := false;
                Screen.key_space := Screen.key_space (screen g);
                Screen.key_a := Screen.key_a (screen g);
                Screen.key_d := Screen.key_d (screen g);
                Screen.game_over_shown := Screen.game_over_shown (screen g) |} g.

(** An event for which nothing is registered runs no code. *)
Definition deliver (v : variant) (ev : event) (g : Game) : result Game :=
  match ev with
  | Timer d =>
      if Screen.timer_pending (screen g) then game_loop v d (take_timer g)
      else Ok g
  | Key_space =>
      if Screen.key_space (screen g) then Ok (set_player (Player.jump (player g)) g)
      else Ok g
  | Key_a =>
      if Screen.key_a (screen g) then Ok (set_player (Player.move_left v (player g)) g)
      else Ok g
  | Key_d =>
      if Screen.key_d (screen g) then Ok (set_player (Player.move_right v (player g)) g)
      else Ok g
  end.

(** A session: [__init__] ends with the first [game_loop]; then events.
    These are the sessions of main.py, and those of main2.py in which no key
    press is pending at an [update] inside a tick; [session_keys] below
    covers the others. *)
Inductive reachable (v : variant) : Game → Prop :=
| reach_start ys d g :
    game_loop v d (new_game v ys) = Ok g → reachable v g
| reach_step g ev g' :
    reachable v g → deliver v ev g = Ok g' → reachable v g'.

(** The two states of the session of the specification. *)
Definition Running (g : Game) : Prop := Screen.timer_pending (screen g) = true.
Definition GameOver (g : Game) : Prop :=
  Screen.timer_pending (screen g) = false ∧ (0 < Screen.game_over_shown (screen g))%nat.

(** Running a list of events, for concrete sessions. *)
Fixpoint play (v : variant) (evs : list event) (g : Game) : result Game :=
  match evs with
  | [] => Ok g
  | ev :: evs => g ← deliver v ev g; play v evs g
  end.

(** ** Sessions with key presses inside a tick

    [keys i] are the key presses pending when iteration [i] of the loop
    over the obstacles reaches the [update] of the collision branch. *)

Definition handle_obstacle_keys (v : variant) (ks : list key)
  : nat → Game → result Game :=
  match v with
  | main => handle_obstacle_main
  | main2 => handle_obstacle_main2_keys ks
  end.

Definition obstacle_body_keys (v : variant) (keys : nat → list key)
  (i : nat) (ob : nat) (g : Game) : result Game :=
  handle_obstacle_keys v (keys i) ob (update_obstacle ob Obstacle.move g).

Definition obstacle_loop_keys (v : variant) (keys : nat → list key)
  : nat → nat → Game → result Game :=
  for_in in_play_obstacles (obstacle_body_keys v keys).

Definition game_loop_keys (v : variant) (d : draws) (keys : nat → list key)
  (g : Game) : result Game :=
  if negb (game_over g) then
    let g := set_obstacle_timer (obstacle_timer g + 1) g in
    let g := set_pickup_timer (pickup_timer g + 1) g in
    g ← spawn_obstacle v d g;
    g ← spawn_pickup v d g;
    let g := set_player (Player.fall (player g)) g in
    g ← obstacle_loop_keys v keys (S (length (in_play_obstacles g))) 0 g;
    g ← pickup_loop v d (S (length (in_play_pickups g))) 0 g;
    Ok (rearm g)
  else Ok (show_game_over_screen g).

Definition deliver_keys (v : variant) (ev : event) (keys : nat → list key)
  (g : Game) : result Game :=
  match ev with
  | Timer d =>
      if Screen.timer_pending (screen g)
      then game_loop_keys v d keys (take_timer g)
      else Ok g
  | _ => deliver v ev g
  end.

Fixpoint play_keys (v : variant) (evs : list (event * (nat → list key)))
  (g : Game) : result Game :=
  match evs with
  | [] => Ok g
  | (ev, keys) :: evs => g ← deliver_keys v ev keys g; play_keys v evs g
  end.

Definition session_keys (v : variant) (ys : nat → Z) (d0 : draws)
  (k0 : nat → list key) (evs : list (event * (nat → list key)))
  : result Game :=
  g ← game_loop_keys v d0 k0 (new_game v ys); play_keys v evs g.

(** No key press is pending inside the tick. *)
Definition no_keys : nat → list key := λ _, [].

Definition quiet (keys : nat → list key) : Prop := ∀ i, keys i = [].

(** A session that [deliver] and [reachable] describe in full: one of
    main.py, or one of main2.py in which no key press is pending at any
    [update] inside a tick after the first (on the first tick, the one of
    [__init__], nothing is in play and no [update] of the loop is reached). *)
Definition quiet_session (v : variant)
  (evs : list (event * (nat → list key))) : Prop :=
  v = main2 → Forall (λ e, quiet e.2) evs.

(** * Vocabulary of the statements and concrete sessions

    Definitions used to state and prove the properties below: outcomes of
    one resolution, frames, invariants, ledgers, and the sessions and states
    on which the statements are tried. *)

(** The dodge branch of [handle_obstacle]: one point, [counted] raised. *)
Definition award_dodge (ob : nat) (g : Game) : Game :=
  update_obstacle ob (Obstacle.set_counted true) (set_score (score g + 1) g).

(** The state [reset_obstacle] returns when [remove] left [ip] in play. *)
Definition recycled (ob : nat) (g : Game) (ip : list nat) : Game :=
  update_obstacle ob (Obstacle.set_counted false)
    (update_obstacle ob (Obstacle.goto OBSTACLE_X OBSTACLE_Y)
       (set_obstacle_pools (waiting_obstacles g ++ [ob]) ip g)).

(** The state [reset_pickup] returns when [remove] left [ip] in play. *)
Definition recycled_pickup (y : Z) (pk : nat) (g : Game) (ip : list nat) : Game :=
  update_pickup pk
    (Pickup.goto (inject_Z (SCREEN_WIDTH + OBJECT_SIZE / 2)) (inject_Z y))
    (set_pickup_pools (waiting_pickups g ++ [pk]) ip g).

(** What the resolution of an obstacle, and of a pickup, leaves alone. *)
Definition obstacle_frame (g : Game) :=
  (Player.xcor (player g), Player.ycor (player g), Player.dy (player g),
   pickups g, waiting_pickups g, in_play_pickups g,
   obstacle_timer g, pickup_timer g, screen g).

Definition pickup_frame (g : Game) :=
  (player g, obstacles g, waiting_obstacles g, in_play_obstacles g,
   obstacle_timer g, pickup_timer g, screen g).

(** The first two statements of a running tick, and its call of [fall]. *)
Definition tick_timers (g : Game) : Game :=
  set_pickup_timer (pickup_timer g + 1) (set_obstacle_timer (obstacle_timer g + 1) g).

Definition player_falls (g : Game) : Game := set_player (Player.fall (player g)) g.

(** A session from [__init__] on: the first [game_loop] with draws [d0],
    then the events [evs]. *)
Definition session (v : variant) (ys : nat → Z) (d0 : draws) (evs : list event)
  : result Game :=
  g ← game_loop v d0 (new_game v ys); play v evs g.

(** Draws with which both admission tests fail, and with which both pass. *)
Definition unlucky : draws := mkDraws 1 1 (λ _, 6%Q) (λ _, 0%Q) (λ _, -110).
Definition lucky : draws := mkDraws 0 0 (λ _, 6%Q) (λ _, 0%Q) (λ _, -110).
Definition ys0 : nat → Z := λ _, -110.

(** The state of a result that is known to be [Ok]. *)
Definition from_Ok (r : result Game) : Game :=
  match r with Ok g => g | _ => new_game main ys0 end.

(** main.py after 29 ticks on which nothing was admitted, and after one more
    tick on which both draws succeed. *)
Definition quiet_29 : Game :=
  Eval vm_compute in
    from_Ok (session main ys0 unlucky (replicate 28 (Timer unlucky))).
Definition quiet_29_lucky : Game :=
  Eval vm_compute in from_Ok (game_loop main lucky quiet_29).

(** What the two admission tests leave alone. *)
Definition spawn_obstacle_frame (g : Game) :=
  (player g, obstacles g, pickups g, waiting_pickups g, in_play_pickups g,
   pickup_timer g, score g, screen g).

Definition spawn_pickup_frame (g : Game) :=
  (player g, obstacles g, pickups g, waiting_obstacles g, in_play_obstacles g,
   obstacle_timer g, score g, screen g).

(** The player at rest on the ground. *)
Definition grounded (p : Player.t) : Player.t :=
  Player.goto (Player.xcor p) GROUND (Player.set_dy 0 p).

(** Whether the dodge test of [handle_obstacle] passes. *)
Definition dodge_due (g : Game) (o : Obstacle.t) : bool :=
  bool_decide (Obstacle.xcor o < Player.xcor (player g)) && negb (Obstacle.counted o).

(** Draws with which the obstacle test passes and the pickup test fails. *)
Definition obstacle_only : draws := mkDraws 0 1 (λ _, 6%Q) (λ _, 0%Q) (λ _, -110).

(** A session of main.py in which an obstacle leaves the screen without
    having been counted: the player first walks to [x = -700], one obstacle
    is admitted on the 30th tick and travels to [x = -660]; then the player
    walks right to [x = -625].  [unseen_moved] is the state of the next tick
    at its call of [handle_obstacle]: timers advanced, player fallen, the
    obstacle moved to [x = -666]. *)
Definition unseen_events : list event :=
  replicate 20 Key_a ++ replicate 28 (Timer unlucky) ++ [Timer obstacle_only]
  ++ replicate 319 (Timer unlucky) ++ replicate 5 Key_d.

Definition unseen : Game :=
  Eval vm_compute in from_Ok (session main ys0 unlucky unseen_events).

Definition unseen_moved : Game :=
  Eval vm_compute in
    update_obstacle 0 Obstacle.move (player_falls (tick_timers (take_timer unseen))).

(** The identifiers of the ten objects of a kind created by [__init__]. *)
Definition created : list nat := seq 0 10.

(** The pool discipline of a kind: the waiting list followed by the in-play
    list is a rearrangement of the created objects, all of them on the heap. *)
Definition obstacle_pool_ok (g : Game) : Prop :=
  waiting_obstacles g ++ in_play_obstacles g ≡ₚ created
  ∧ length (obstacles g) = 10%nat.

Definition pickup_pool_ok (g : Game) : Prop :=
  waiting_pickups g ++ in_play_pickups g ≡ₚ created
  ∧ length (pickups g) = 10%nat.

Definition pools_ok (g : Game) : Prop := obstacle_pool_ok g ∧ pickup_pool_ok g.

(** A session of main2.py in which an obstacle is admitted every 30 ticks
    and the player stands still: after 299 ticks obstacles 0 to 8 are in
    play and obstacle 0 is 6 units short of the player's collision box.
    [crowded_loop_start] is the state of the 300th tick when it enters the
    loop over the obstacles, [crowded_loop_end] the state when it leaves it. *)
Definition crowded : Game :=
  Eval vm_compute in
    from_Ok (session main2 ys0 obstacle_only (replicate 298 (Timer obstacle_only))).

Definition crowded_loop_start : Game :=
  Eval vm_compute in
    player_falls
      (from_Ok (g1 ← spawn_obstacle main2 obstacle_only (tick_timers (take_timer crowded));
                spawn_pickup main2 obstacle_only g1)).

Definition crowded_loop_end : Game :=
  Eval vm_compute in from_Ok (obstacle_loop main2 11 0 crowded_loop_start).

(** [self.player.hitpoints] *)
Definition hp (g : Game) : Z := Player.hitpoints (player g).

(** From [g] to [g'] the score did not go down, the hitpoints did not go up. *)
Definition no_gain (g g' : Game) : Prop := score g <= score g' ∧ hp g' <= hp g.

(** In a session the screen is in one of two configurations: a timer is
    pending, the three keys are bound and 'Game Over' was never written; or
    no timer is pending, no key is bound and 'Game Over' was written once. *)
Definition screen_running : Screen.t := Screen.mk true true true true 0.
Definition screen_over : Screen.t := Screen.mk false false false false 1.

(** Mapping over a result. *)
Global Instance result_fmap : FMap result := λ A B f m,
  match m with
  | Ok a => Ok (f a)
  | Raise e => Raise e
  | OutOfFuel => OutOfFuel
  end.

(** The same state with [k] more hitpoints. *)
Definition add_hp (k : Z) (g : Game) : Game :=
  set_player (Player.set_hitpoints (hp g + k) (player g)) g.

(** A session of main.py in which the only obstacle admitted reaches the
    player, who stands still with its single hitpoint: [last_stand] is the
    state after 299 ticks, [last_stand_hit] the state after the 300th. *)
Definition last_stand_events : list event :=
  replicate 28 (Timer unlucky) ++ [Timer obstacle_only] ++ replicate 269 (Timer unlucky).

Definition last_stand : Game :=
  Eval vm_compute in from_Ok (session main ys0 unlucky last_stand_events).

Definition last_stand_hit : Game :=
  Eval vm_compute in from_Ok (deliver main (Timer unlucky) last_stand).

(** The force-admission of Scenario B, as a test would do it: the next
    waiting obstacle is put into play at the player's exact position. *)
Definition force_admit_at_player (g : Game) : result Game :=
  '(ob, w) ← pop0 (waiting_obstacles g);
  Ok (update_obstacle ob
        (Obstacle.goto (Player.xcor (player g)) (Player.ycor (player g)))
        (set_obstacle_pools w (in_play_obstacles g ++ [ob]) g)).

(** A session of main.py in which the player first walks left to
    [x = -1000] and one obstacle is admitted, on the 30th tick; after 349
    ticks that obstacle stands at [x = -660], one move short of leaving the
    screen.  In [edge_forced] obstacle 1 has then been force-admitted at the
    player's position, behind obstacle 0 in the in-play list.  In
    [quiet_forced] obstacle 0 has been force-admitted at the player's
    position in a state with nothing else in play. *)
Definition edge_events : list event :=
  replicate 40 Key_a ++ replicate 28 (Timer unlucky) ++ [Timer obstacle_only]
  ++ replicate 319 (Timer unlucky).

Definition edge : Game :=
  Eval vm_compute in from_Ok (session main ys0 unlucky edge_events).

Definition edge_forced : Game :=
  Eval vm_compute in from_Ok (force_admit_at_player edge).

Definition quiet_forced : Game :=
  Eval vm_compute in from_Ok (force_admit_at_player quiet_29).

Definition min_gap (k : nat) : Z := 6 * (21 + Z.of_nat k).

Fixpoint spaced_from (k : nat) (prev : Z) (l : list Z) : Prop :=
  match l with
  | [] => True
  | x :: r => min_gap k <= x - prev ∧ spaced_from (S k) x r
  end.

Definition spaced (k : nat) (l : list Z) : Prop :=
  match l with
  | [] => True
  | x :: r => spaced_from k x r
  end.

(** The number of positions of [l] in the collision range of [px]. *)
Fixpoint hits (px : Z) (l : list Z) : Z :=
  match l with
  | [] => 0
  | x :: r =>
      (if bool_decide (Z.abs (x - px) < OBJECT_SIZE / 2 - BUFFER) then 1 else 0)
      + hits px r
  end.

Definition in_range (px x : Z) : Prop := Z.abs (x - px) < OBJECT_SIZE / 2 - BUFFER.

Definition xs_of (g : Game) (l : list nat) : list Z :=
  (λ ob, Obstacle.xcor (obstacle g ob)) <$> l.

(** Waiting obstacles stand at the spawn point. *)
Definition parked (g : Game) : Prop :=
  ∀ ob, ob ∈ waiting_obstacles g → Obstacle.xcor (obstacle g ob) = OBSTACLE_X.

Definition horizon (g : Game) : Z := 1434 - 6 * obstacle_timer g.

(** The positions the in-play obstacles will have when the loop is through
    with them, seen with the cursor at [c]: those before the cursor are
    final, those from the cursor on are still to be moved by 6. *)
Definition lanes_at (c : nat) (g : Game) : list Z :=
  xs_of g (take c (in_play_obstacles g))
  ++ ((λ x, x - 6) <$> xs_of g (drop c (in_play_obstacles g)))
  ++ [horizon g].

Definition spacing_at (c : nat) (g : Game) : Prop :=
  obstacle_pool_ok g ∧ parked g ∧ spaced 0 (lanes_at c g).

(** Between two ticks. *)
Definition spacing_ok (g : Game) : Prop :=
  obstacle_pool_ok g ∧ parked g
  ∧ spaced 0 (xs_of g (in_play_obstacles g) ++ [horizon g]).

Definition pending_hits (c : nat) (g : Game) : Z :=
  hits (Player.xcor (player g))
    ((λ x, x - 6) <$> xs_of g (drop c (in_play_obstacles g))).

(** What the spacing invariant reads of a state. *)
Definition obstacle_side (g : Game) :=
  (obstacles g, waiting_obstacles g, in_play_obstacles g, obstacle_timer g).

(** Whether a resolution of the obstacle awards the dodge point: it does not
    collide, it is left of the player and not counted yet, and, in main2.py,
    it is not off-screen. *)
Definition dodge_awarded (v : variant) (g : Game) (o : Obstacle.t) : bool :=
  negb (check_collision g o) && dodge_due g o
  && match v with main => true | main2 => negb (Obstacle.is_out_of_screen o) end.

(** ** The ledger of a session: who was awarded a dodge point, who was
    recycled, in the order in which it happened *)

Inductive tag := Dodged | Recycled.

(** What one call of the loop body did, read off the states before and
    after it. *)
Definition obstacle_entry (x : nat) (g g1 : Game) : list (nat * tag) :=
  (if bool_decide (score g1 = score g + 1) then [(x, Dodged)] else [])
  ++ (if bool_decide (x ∈ in_play_obstacles g1) then [] else [(x, Recycled)]).

Fixpoint for_in_log {T : Type} (lst : Game → list nat)
  (body : nat → nat → Game → result Game) (entry : nat → Game → Game → list T)
  (fuel : nat) (i : nat) (g : Game) : list T :=
  match fuel with
  | O => []
  | S fuel =>
      match lst g !! i with
      | None => []
      | Some x =>
          match body i x g with
          | Ok g1 => entry x g g1 ++ for_in_log lst body entry fuel (S i) g1
          | _ => []
          end
      end
  end.

Definition tick_log (v : variant) (d : draws) (g : Game) : list (nat * tag) :=
  if game_over g then []
  else
    match spawn_obstacle v d (tick_timers g) with
    | Ok g1 =>
        match spawn_pickup v d g1 with
        | Ok g2 =>
            for_in_log in_play_obstacles (obstacle_body v) obstacle_entry
              (S (length (in_play_obstacles g2))) 0 (player_falls g2)
        | _ => []
        end
    | _ => []
    end.

Definition deliver_log (v : variant) (ev : event) (g : Game) : list (nat * tag) :=
  match ev with
  | Timer d =>
      if Screen.timer_pending (screen g) then tick_log v d (take_timer g) else []
  | _ => []
  end.

Fixpoint play_log (v : variant) (evs : list event) (g : Game) : list (nat * tag) :=
  match evs with
  | [] => []
  | ev :: evs =>
      deliver_log v ev g
      ++ match deliver v ev g with
         | Ok g1 => play_log v evs g1
         | _ => []
         end
  end.

Definition session_log (v : variant) (ys : nat → Z) (d0 : draws) (evs : list event)
  : list (nat * tag) :=
  tick_log v d0 (new_game v ys)
  ++ match game_loop v d0 (new_game v ys) with
     | Ok g => play_log v evs g
     | _ => []
     end.

(** The entries of one obstacle. *)
Definition tags_of (ob : nat) (log : list (nat * tag)) : list tag :=
  snd <$> filter (λ e, e.1 = ob) log.

(** Reading a ledger with the [counted] flag in hand: a dodge point is only
    acceptable while the flag is down, and raises it; a recycle lowers it. *)
Fixpoint counting (flag : bool) (l : list tag) : option bool :=
  match l with
  | [] => Some flag
  | Dodged :: r => if flag then None else counting true r
  | Recycled :: r => counting false r
  end.

(** A session of main.py in which the player first walks right to
    [x = 1400]: the obstacle admitted on the 30th tick is left of the player
    at once and is awarded its dodge point on that tick. *)
Definition runner_events : list event :=
  replicate 120 Key_d ++ replicate 28 (Timer unlucky)
  ++ [Timer obstacle_only; Timer unlucky].

Definition runner : Game :=
  Eval vm_compute in from_Ok (session main ys0 unlucky runner_events).

(** A session of main.py in which the player first walks left to
    [x = -1000] and an obstacle is admitted whenever the spawner allows it:
    no obstacle is ever left of the player or in its range, each leaves by
    the left edge, and obstacle 0 is admitted and recycled twice in the 672
    ticks. *)
Definition shy_events : list event :=
  replicate 40 Key_a ++ replicate 671 (Timer obstacle_only).

Definition shy : Game :=
  Eval vm_compute in from_Ok (session main ys0 obstacle_only shy_events).

(** ** Further properties: vocabulary *)

(** The player is at rest on the ground, or on the arc of a jump: with
    vertical speed [dy] between -15 and 15 it stands
    [120 - dy * (dy + 1) / 2] above the ground. *)
Definition on_arc (p : Player.t) : Prop :=
  (Player.ycor p = GROUND ∧ Player.dy p = 0)
  ∨ (-15 <= Player.dy p <= 15
     ∧ 2 * (Player.ycor p - GROUND) = 240 - Player.dy p * (Player.dy p + 1)).

(** main2.py ten ticks into a jump. *)
Definition airborne : Game :=
  Eval vm_compute in
    from_Ok (session main2 ys0 unlucky (Key_space :: replicate 10 (Timer unlucky))).

(** Where the player can stand: 400 plus its x is a multiple of the step
    of 15, and in main2.py it stays between the screen's left edge and the
    wall. *)
Definition in_zone (v : variant) (p : Player.t) : Prop :=
  (15 | Player.xcor p + 400)
  ∧ match v with
    | main => True
    | main2 => -550 <= Player.xcor p <= -250
    end.

(** main2.py after thirty presses of 'a'. *)
Definition cornered : Game :=
  Eval vm_compute in from_Ok (session main2 ys0 unlucky (replicate 30 Key_a)).

(** Every obstacle object keeps its height on the ground lane and stands at
    the spawn point or a whole number of moves to its left. *)
Definition on_lane (o : Obstacle.t) : Prop :=
  Obstacle.ycor o = OBSTACLE_Y
  ∧ Obstacle.xcor o <= OBSTACLE_X
  ∧ (6 | OBSTACLE_X - Obstacle.xcor o).

(** The obstacles between two ticks: all on the lane, the waiting ones as
    created, the ones in play not past the off-screen boundary. *)
Definition tidy (g : Game) : Prop :=
  obstacle_pool_ok g
  ∧ Forall on_lane (obstacles g)
  ∧ (∀ ob, ob ∈ waiting_obstacles g → obstacle g ob = create_obstacle)
  ∧ (∀ ob, ob ∈ in_play_obstacles g →
       Obstacle.is_out_of_screen (obstacle g ob) = false).

(** The number of timer events in a list of events. *)
Fixpoint ticks (evs : list event) : nat :=
  match evs with
  | [] => 0
  | Timer _ :: evs => S (ticks evs)
  | _ :: evs => ticks evs
  end.

(** The session before the first obstacle can be admitted: nothing is in
    play, the obstacle timer has counted [n] ticks, no hitpoint is lost and
    the next tick is pending. *)
Definition warming_up (v : variant) (n : Z) (g : Game) : Prop :=
  in_play_obstacles g = [] ∧ obstacle_timer g = n ∧ hp g = HITPOINTS v
  ∧ Running g.

(** ** Sessions with and without key presses inside a tick: vocabulary *)

(** Draws of a tick on which the obstacle test passes and the pickup test
    fails: [random.random()] returns 0 and then 3/4. *)
Definition steady : draws := mkDraws 0 (3 # 4) (λ _, 3%Q) (λ _, 0%Q) (λ _, -110).

(** The events [evs], with no key press pending inside any tick. *)
Definition quietly (evs : list event) : list (event * (nat → list key)) :=
  (λ ev, (ev, no_keys)) <$> evs.

(** Twenty presses of ['d'] pending at the [update] of the first iteration
    of the loop over the obstacles. *)
Definition rush : nat → list key :=
  λ i, match i with O => replicate 20 K_d | S _ => [] end.

(** A session of main2.py in which the player walks left to [x = -550], an
    obstacle is admitted every 30 ticks, obstacles 0 to 3 hit the player and
    the player jumps so as to land on obstacle 4, thirty ticks later:
    [before_double_hit] is the state before that tick, with one hitpoint
    left and obstacles 4, 5 and 6 at -564, -390 and -210.  [single_hit] is
    the state after the tick when no key press is pending inside it,
    [double_hit] the state after it when [rush] is. *)
Definition double_hit_events : list event :=
  replicate 10 Key_a ++ replicate 424 (Timer steady) ++ [Key_space]
  ++ replicate 29 (Timer steady).

Definition before_double_hit : Game :=
  Eval vm_compute in from_Ok (session main2 ys0 steady double_hit_events).

Definition single_hit : Game :=
  Eval vm_compute in
    from_Ok (deliver main2 (Timer steady) before_double_hit).

Definition double_hit : Game :=
  Eval vm_compute in
    from_Ok (deliver_keys main2 (Timer steady) rush before_double_hit).

(** A session of main.py in which an obstacle is admitted every 30 ticks
    and the player stands still with its single hitpoint: after 299 ticks
    obstacles 0 to 8 are in play, obstacle 0 six units short of the player's
    collision box; [crowded_main_hit] is the state after the 300th tick. *)
Definition crowded_main : Game :=
  Eval vm_compute in
    from_Ok (session main ys0 steady (replicate 298 (Timer steady))).

Definition crowded_main_hit : Game :=
  Eval vm_compute in from_Ok (deliver main (Timer steady) crowded_main).

(** * Proofs *)

(** ** Basic facts *)

Lemma bind_Ok {A B} (m : result A) (k : A → result B) b :
  (x ← m; k x) = Ok b → ∃ a, m = Ok a ∧ k a = Ok b.
Proof. destruct m; cbn; [eauto | discriminate..]. Qed.

Lemma bind_Ok_l {A B} (a : A) (k : A → result B) : (x ← Ok a; k x) = k a.
Proof. reflexivity. Qed.

Ltac inv_bind H :=
  let a := fresh "g" in
  let H1 := fresh "H" in
  apply bind_Ok in H; destruct H as (a & H1 & H).

Lemma reachable_play v evs g g' :
  reachable v g → play v evs g = Ok g' → reachable v g'.
Proof.
  revert g. induction evs as [|ev evs IH]; intros g Hg H; cbn in H.
  - congruence.
  - inv_bind H. eapply IH; [|exact H]. eapply reach_step; eauto.
Qed.

(** ** What the resolution of one obstacle can do *)

Lemma reset_obstacle_Ok ob g g' :
  reset_obstacle ob g = Ok g' ↔
  ∃ ip, list_remove ob (in_play_obstacles g) = Ok ip ∧ g' = recycled ob g ip.
Proof.
  unfold reset_obstacle. split.
  - intros H. inv_bind H. exists g0. split; [done|]. by inversion H.
  - intros (ip & -> & ->). reflexivity.
Qed.

Lemma obstacle_recycled ob g ip :
  (ob < length (obstacles g))%nat →
  obstacle (recycled ob g ip) ob = Obstacle.new OBSTACLE_X OBSTACLE_Y.
Proof.
  intros Hlt. unfold recycled, update_obstacle, obstacle; cbn.
  rewrite !list_lookup_total_insert_eq by (rewrite ?length_insert; done).
  reflexivity.
Qed.

Lemma recycled_on_screen ob g ip :
  Obstacle.is_out_of_screen (obstacle (recycled ob g ip) ob) = false.
Proof.
  destruct (decide (ob < length (obstacles g))%nat) as [Hlt|Hge].
  - by rewrite obstacle_recycled.
  - unfold recycled, update_obstacle, obstacle; cbn.
    rewrite !list_insert_ge by (rewrite ?length_insert; lia).
    rewrite list_lookup_total_alt, lookup_ge_None_2 by lia. reflexivity.
Qed.

Lemma handle_obstacle_cases v ob g g' :
  handle_obstacle v ob g = Ok g' →
  g' = g ∨ g' = award_dodge ob g
  ∨ reset_obstacle ob (damage_player g) = Ok g'
  ∨ reset_obstacle ob g = Ok g'
  ∨ reset_obstacle ob (award_dodge ob g) = Ok g'.
Proof.
  unfold handle_obstacle; destruct v;
    unfold handle_obstacle_main, handle_obstacle_main2, handle_obstacle_main2_keys,
      press_keys; intros H.
  - inv_bind H. destruct (check_collision g _).
    + pose proof H0 as H1.
      apply reset_obstacle_Ok in H0 as (ip & Hip & ->).
      rewrite recycled_on_screen in H. inversion H; subst. auto.
    + fold (award_dodge ob g) in H0. destruct (_ && _).
      * inversion H0; subst; clear H0.
        destruct (Obstacle.is_out_of_screen _); [|inversion H]; auto 10.
      * inversion H0; subst; clear H0.
        destruct (Obstacle.is_out_of_screen _); [|inversion H]; auto 10.
  - fold (award_dodge ob g) in H.
    destruct (Obstacle.is_out_of_screen _); [auto 10|].
    destruct (check_collision _ _); [auto 10|].
    destruct (_ && _); inversion H; auto.
Qed.

(** ** What the resolution of one pickup can do *)

Lemma reset_pickup_Ok y pk g g' :
  reset_pickup y pk g = Ok g' ↔
  ∃ ip, list_remove pk (in_play_pickups g) = Ok ip ∧ g' = recycled_pickup y pk g ip.
Proof.
  unfold reset_pickup. split.
  - intros H. inv_bind H. exists g0. split; [done|]. by inversion H.
  - intros (ip & -> & ->). reflexivity.
Qed.

Lemma recycled_pickup_on_screen y pk g ip :
  Pickup.is_out_of_screen (pickup (recycled_pickup y pk g ip) pk) = false.
Proof.
  destruct (decide (pk < length (pickups g))%nat) as [Hlt|Hge];
    unfold recycled_pickup, update_pickup, pickup; cbn.
  - rewrite !list_lookup_total_insert_eq by (rewrite ?length_insert; done).
    reflexivity.
  - rewrite !list_insert_ge by (rewrite ?length_insert; lia).
    rewrite list_lookup_total_alt, lookup_ge_None_2 by lia. reflexivity.
Qed.

Lemma handle_pickup_cases v y pk g g' :
  handle_pickup v y pk g = Ok g' →
  g' = g
  ∨ reset_pickup y pk (set_score (score g + 5) g) = Ok g'
  ∨ reset_pickup y pk g = Ok g'.
Proof.
  unfold handle_pickup; destruct v;
    unfold handle_pickup_main, handle_pickup_main2; intros H.
  - inv_bind H. destruct (check_collision_pickup g _).
    + pose proof H0 as H1.
      apply reset_pickup_Ok in H0 as (ip & Hip & ->).
      rewrite recycled_pickup_on_screen in H. inversion H; subst. auto.
    + inversion H0; subst; clear H0.
      destruct (Pickup.is_out_of_screen _); [|inversion H]; auto.
  - destruct (Pickup.is_out_of_screen _); [auto|].
    destruct (check_collision_pickup _ _); inversion H; auto.
Qed.

(** ** Loop invariants

    An invariant of the cursor and the state that every iteration keeps
    holds when the loop ends, and the cursor is then past the list. *)

Lemma for_in_inv lst body (P : nat → Game → Prop) fuel i g g' :
  (∀ i g x g1, P i g → lst g !! i = Some x → body i x g = Ok g1 → P (S i) g1) →
  P i g → for_in lst body fuel i g = Ok g' →
  ∃ j, P j g' ∧ lst g' !! j = None.
Proof.
  intros Hstep. revert i g. induction fuel as [|fuel IH]; intros i g HP H; cbn in H.
  - discriminate.
  - destruct (lst g !! i) as [x|] eqn:E.
    + inv_bind H. eapply IH; [|exact H]. eapply Hstep; eauto.
    + inversion H; subst. eauto.
Qed.

Lemma obstacle_loop_inv v (P : nat → Game → Prop) fuel i g g' :
  (∀ i g ob g1, P i g → in_play_obstacles g !! i = Some ob →
     handle_obstacle v ob (update_obstacle ob Obstacle.move g) = Ok g1 →
     P (S i) g1) →
  P i g → obstacle_loop v fuel i g = Ok g' →
  ∃ j, P j g' ∧ in_play_obstacles g' !! j = None.
Proof. apply for_in_inv. Qed.

Lemma pickup_loop_inv v d (P : nat → Game → Prop) fuel i g g' :
  (∀ i g pk g1, P i g → in_play_pickups g !! i = Some pk →
     handle_pickup v (respawn_roll d i) pk
       (update_pickup pk (Pickup.move (speed_roll d i) (wobble_roll d i)) g) = Ok g1 →
     P (S i) g1) →
  P i g → pickup_loop v d fuel i g = Ok g' →
  ∃ j, P j g' ∧ in_play_pickups g' !! j = None.
Proof. apply for_in_inv. Qed.

(** ** Frames: what the two loops leave alone *)

Lemma reset_obstacle_frame ob g g' :
  reset_obstacle ob g = Ok g' → obstacle_frame g' = obstacle_frame g.
Proof. intros (ip & _ & ->)%reset_obstacle_Ok. reflexivity. Qed.

Lemma handle_obstacle_frame v ob g g' :
  handle_obstacle v ob g = Ok g' → obstacle_frame g' = obstacle_frame g.
Proof.
  intros H. apply handle_obstacle_cases in H as [->|[->|[H|[H|H]]]];
    try reflexivity; apply reset_obstacle_frame in H; rewrite H; reflexivity.
Qed.

Lemma obstacle_loop_frame v fuel i g g' :
  obstacle_loop v fuel i g = Ok g' → obstacle_frame g' = obstacle_frame g.
Proof.
  intros H.
  destruct (obstacle_loop_inv v (λ _ g1, obstacle_frame g1 = obstacle_frame g)
              fuel i g g') as (j & Hj & _); auto.
  intros i0 g0 ob g1 IH _ Hh. apply handle_obstacle_frame in Hh.
  rewrite Hh, <- IH. reflexivity.
Qed.

Lemma reset_pickup_frame y pk g g' :
  reset_pickup y pk g = Ok g' → pickup_frame g' = pickup_frame g.
Proof. intros (ip & _ & ->)%reset_pickup_Ok. reflexivity. Qed.

Lemma handle_pickup_frame v y pk g g' :
  handle_pickup v y pk g = Ok g' → pickup_frame g' = pickup_frame g.
Proof.
  intros H. apply handle_pickup_cases in H as [->|[H|H]];
    try reflexivity; apply reset_pickup_frame in H; rewrite H; reflexivity.
Qed.

Lemma pickup_loop_frame v d fuel i g g' :
  pickup_loop v d fuel i g = Ok g' → pickup_frame g' = pickup_frame g.
Proof.
  intros H.
  destruct (pickup_loop_inv v d (λ _ g1, pickup_frame g1 = pickup_frame g)
              fuel i g g') as (j & Hj & _); auto.
  intros i0 g0 pk g1 IH _ Hh. apply handle_pickup_frame in Hh.
  rewrite Hh, <- IH. reflexivity.
Qed.

(** ** The stages of a tick *)

Lemma game_loop_over v d g :
  game_over g = true → game_loop v d g = Ok (show_game_over_screen g).
Proof. unfold game_loop. by intros ->. Qed.

Lemma game_loop_running v d g g' :
  game_over g = false → game_loop v d g = Ok g' →
  ∃ g1 g2 g3 g4,
    spawn_obstacle v d (tick_timers g) = Ok g1
    ∧ spawn_pickup v d g1 = Ok g2
    ∧ obstacle_loop v (S (length (in_play_obstacles g2))) 0 (player_falls g2) = Ok g3
    ∧ pickup_loop v d (S (length (in_play_pickups g3))) 0 g3 = Ok g4
    ∧ g' = rearm g4.
Proof.
  unfold game_loop. intros -> H. cbn [negb] in H.
  inv_bind H. inv_bind H. inv_bind H. inv_bind H. inversion H; subst.
  exists g0, g1, g2, g3. auto.
Qed.

Lemma spawn_obstacle_cases v d g g' :
  spawn_obstacle v d g = Ok g' →
  (obstacle_due d g = false ∧ g' = g)
  ∨ (obstacle_due d g = true ∧ ∃ ob w, waiting_obstacles g = ob :: w
       ∧ g' = set_obstacle_timer 0
                (set_obstacle_pools w (in_play_obstacles g ++ [ob]) g)).
Proof.
  unfold spawn_obstacle. destruct (obstacle_due d g) eqn:Hdue; intros H.
  - right. split; [done|]. inv_bind H. inversion H; subst; clear H.
    unfold obstacle_due in Hdue. rewrite !andb_true_iff in Hdue.
    destruct Hdue as [[[_ _] Hw%bool_decide_eq_true] _].
    unfold admit_obstacle in H0.
    destruct (waiting_obstacles g) as [|ob w] eqn:E; [cbn in Hw; lia|].
    exists ob, w. split; [done|].
    destruct v; [|rewrite bool_decide_eq_true_2 in H0 by done];
      cbn in H0; inversion H0; reflexivity.
  - left. by inversion H.
Qed.

Lemma spawn_pickup_cases v d g g' :
  spawn_pickup v d g = Ok g' →
  (pickup_due d g = false ∧ g' = g)
  ∨ (pickup_due d g = true ∧ ∃ pk w, waiting_pickups g = pk :: w
       ∧ g' = set_pickup_timer 0
                (set_pickup_pools w (in_play_pickups g ++ [pk]) g)).
Proof.
  unfold spawn_pickup. destruct (pickup_due d g) eqn:Hdue; intros H.
  - right. split; [done|]. inv_bind H. inversion H; subst; clear H.
    unfold pickup_due in Hdue. rewrite !andb_true_iff in Hdue.
    destruct Hdue as [[[_ _] Hw%bool_decide_eq_true] _].
    unfold admit_pickup in H0.
    destruct (waiting_pickups g) as [|pk w] eqn:E; [cbn in Hw; lia|].
    exists pk, w. split; [done|].
    destruct v; [|rewrite bool_decide_eq_true_2 in H0 by done];
      cbn in H0; inversion H0; reflexivity.
  - left. by inversion H.
Qed.

(** The timers after a running tick are those the spawner left. *)
Lemma game_loop_timers v d g g' :
  game_over g = false → game_loop v d g = Ok g' →
  ∃ g1, spawn_obstacle v d (tick_timers g) = Ok g1
    ∧ obstacle_timer g' = obstacle_timer g1
    ∧ pickup_timer g' =
        (if pickup_due d g1 then 0 else pickup_timer g + 1).
Proof.
  intros Hrun H.
  destruct (game_loop_running _ _ _ _ Hrun H) as (g1 & g2 & g3 & g4 & H1 & H2 & H3 & H4 & ->).
  exists g1. split; [done|].
  apply obstacle_loop_frame in H3. apply pickup_loop_frame in H4.
  unfold obstacle_frame, pickup_frame in *. cbn in *.
  inversion H3 as [[Hx Hy Hd Hp Hw Hi Hot Hpt Hs]].
  inversion H4 as [[Hpl Ho Hwo Hio Hot' Hpt' Hs']].
  rewrite Hot', Hpt', Hot, Hpt. split.
  - apply spawn_pickup_cases in H2 as [[_ ->]|[_ (pk & w & _ & ->)]]; reflexivity.
  - assert (pickup_timer g1 = pickup_timer g + 1) as Hg1.
    { apply spawn_obstacle_cases in H1 as [[_ ->]|[_ (ob & w & _ & ->)]]; reflexivity. }
    apply spawn_pickup_cases in H2 as [[-> ->]|[-> (pk & w & _ & ->)]];
      [exact Hg1 | reflexivity].
Qed.

(** ** Concrete sessions *)

Lemma reachable_session v ys d0 evs g :
  session v ys d0 evs = Ok g → reachable v g.
Proof.
  unfold session. intros H. inv_bind H.
  eapply reachable_play; [|exact H]. eapply reach_start; eauto.
Qed.

(** * C1: the spawn cooldown *)

(** C1, as the code has it: on a running tick on which the obstacle timer
    has reached 30 (the pickup timer 12) with the in-play cap not reached and
    the waiting pool non-empty, the timer is reset to 0 exactly when the
    Bernoulli draw succeeds, and then the head of the waiting list is put at
    the end of the in-play list before the loops of the tick run; when the
    draw fails nothing is admitted and the timer keeps its incremented value,
    so the test is repeated on the very next tick.  [g1] and [g2] are the
    states after the admission test of the obstacles and after that of the
    pickups. *)
Theorem spawn_timer_reset_iff_draw v d g g' :
  game_over g = false → game_loop v d g = Ok g' →
  ∃ g1 g2,
    spawn_obstacle v d (tick_timers g) = Ok g1
    ∧ spawn_pickup v d g1 = Ok g2
    ∧ (∃ g3 g4,
         obstacle_loop v (S (length (in_play_obstacles g2))) 0 (player_falls g2)
         = Ok g3
         ∧ pickup_loop v d (S (length (in_play_pickups g3))) 0 g3 = Ok g4
         ∧ g' = rearm g4)
    ∧ (30 <= obstacle_timer g + 1 →
       (length (in_play_obstacles g) < 10)%nat →
       (0 < length (waiting_obstacles g))%nat →
       obstacle_timer g' =
         (if Qle_bool (obstacle_roll d) (1 # 2) then 0 else obstacle_timer g + 1)
       ∧ if Qle_bool (obstacle_roll d) (1 # 2)
         then ∃ ob w, waiting_obstacles g = ob :: w
                ∧ waiting_obstacles g1 = w
                ∧ in_play_obstacles g1 = in_play_obstacles g ++ [ob]
         else waiting_obstacles g1 = waiting_obstacles g
              ∧ in_play_obstacles g1 = in_play_obstacles g)
    ∧ (12 <= pickup_timer g + 1 →
       (length (in_play_pickups g) < 1)%nat →
       (0 < length (waiting_pickups g))%nat →
       pickup_timer g' =
         (if Qltb (pickup_roll d) (1 # 5) then 0 else pickup_timer g + 1)
       ∧ if Qltb (pickup_roll d) (1 # 5)
         then ∃ pk w, waiting_pickups g = pk :: w
                ∧ waiting_pickups g2 = w
                ∧ in_play_pickups g2 = in_play_pickups g ++ [pk]
         else waiting_pickups g2 = waiting_pickups g
              ∧ in_play_pickups g2 = in_play_pickups g).
Proof.
  intros Hrun H.
  destruct (game_loop_timers _ _ _ _ Hrun H) as (g1' & H1' & Hot & Hpt).
  destruct (game_loop_running _ _ _ _ Hrun H)
    as (g1 & g2 & g3 & g4 & H1 & H2 & H3 & H4 & Hg').
  rewrite H1 in H1'. inversion H1'; subst g1'; clear H1'.
  exists g1, g2. split; [done|]. split; [done|]. split; [by eauto|].
  rewrite Hot, Hpt. clear Hot Hpt H H3 H4 Hg'. split; intros Ht Hcap Hw.
  - apply spawn_obstacle_cases in H1 as [[Hdue ->]|[Hdue (ob & w & Hwg & ->)]];
      unfold obstacle_due in Hdue; cbn in Hdue;
      rewrite !bool_decide_eq_true_2 in Hdue by done; cbn in Hdue;
      rewrite Hdue; (split; [reflexivity|]); [by split|].
    exists ob, w. by split.
  - assert (in_play_pickups g1 = in_play_pickups g
            ∧ waiting_pickups g1 = waiting_pickups g
            ∧ pickup_timer g1 = pickup_timer g + 1) as (Hi & Hwp & Hp).
    { apply spawn_obstacle_cases in H1 as [[_ ->]|[_ (ob & w & _ & ->)]]; done. }
    assert (pickup_due d g1 = Qltb (pickup_roll d) (1 # 5)) as Hdue.
    { unfold pickup_due. rewrite Hi, Hwp, Hp.
      rewrite !bool_decide_eq_true_2 by done. reflexivity. }
    rewrite Hdue. split; [reflexivity|].
    apply spawn_pickup_cases in H2 as [[Hd ->]|[Hd (pk & w & Hwg & ->)]];
      rewrite Hd in Hdue; rewrite <- Hdue; [by split|].
    exists pk, w. rewrite <- Hwp, <- Hi. by split.
Qed.

Lemma spawn_timer_reset_iff_draw_witness :
  session main ys0 unlucky (replicate 28 (Timer unlucky)) = Ok quiet_29
  ∧ game_loop main lucky quiet_29 = Ok quiet_29_lucky
  ∧ obstacle_timer quiet_29 = 29 ∧ obstacle_timer quiet_29_lucky = 0
  ∧ pickup_timer quiet_29 = 44 ∧ pickup_timer quiet_29_lucky = 0
  ∧ ∃ g1 g2, spawn_obstacle main lucky (tick_timers quiet_29) = Ok g1
      ∧ spawn_pickup main lucky g1 = Ok g2
      ∧ in_play_obstacles g1 = [0%nat] ∧ in_play_pickups g2 = [0%nat].
Proof.
  assert (game_loop main lucky quiet_29 = Ok quiet_29_lucky) as H
    by (vm_compute; reflexivity).
  destruct (spawn_timer_reset_iff_draw main lucky quiet_29 quiet_29_lucky
              eq_refl H) as (g1 & g2 & Hg1 & Hg2 & _ & H1 & H2).
  destruct H1 as [Ht1 (ob & w & Hw1 & _ & Hi1)];
    [vm_compute; discriminate | vm_compute; lia | vm_compute; lia |].
  destruct H2 as [Ht2 (pk & w' & Hw2 & _ & Hi2)];
    [vm_compute; discriminate | vm_compute; lia | vm_compute; lia |].
  split; [vm_compute; reflexivity|]. split; [exact H|].
  split; [reflexivity|]. split; [exact Ht1|].
  split; [reflexivity|]. split; [exact Ht2|].
  exists g1, g2. split; [exact Hg1|]. split; [exact Hg2|].
  inversion Hw1; subst ob. inversion Hw2; subst pk. by split.
Defined.

(** C1 as stated fails: in the session of main.py whose first 29 ticks all
    draw badly, the obstacle timer stands at 29 and the pickup timer at 44;
    on the next tick both thresholds are reached, nothing is in play, both
    waiting pools are full, both draws fail, and neither timer is reset: they
    read 30 and 45. *)
Lemma cooldown_not_reset_on_failed_draw :
  session main ys0 unlucky (replicate 28 (Timer unlucky)) = Ok quiet_29
  ∧ game_over quiet_29 = false
  ∧ 30 <= obstacle_timer quiet_29 + 1 ∧ 12 <= pickup_timer quiet_29 + 1
  ∧ in_play_obstacles quiet_29 = [] ∧ in_play_pickups quiet_29 = []
  ∧ length (waiting_obstacles quiet_29) = 10%nat
  ∧ length (waiting_pickups quiet_29) = 10%nat
  ∧ ∃ g', deliver main (Timer unlucky) quiet_29 = Ok g'
      ∧ obstacle_timer g' = 30 ∧ pickup_timer g' = 45.
Proof.
  split; [vm_compute; reflexivity|].
  split; [reflexivity|]. split; [vm_compute; discriminate|].
  split; [vm_compute; discriminate|].
  repeat (split; [reflexivity|]).
  eexists. split; [vm_compute; reflexivity|]. split; reflexivity.
Qed.

(** * C5: gravity, the ground clamp and the jump *)

Lemma spawn_obstacle_keeps v d g g' :
  spawn_obstacle v d g = Ok g' → spawn_obstacle_frame g' = spawn_obstacle_frame g.
Proof.
  intros [[_ ->]|[_ (ob & w & _ & ->)]]%spawn_obstacle_cases; reflexivity.
Qed.

Lemma spawn_pickup_keeps v d g g' :
  spawn_pickup v d g = Ok g' → spawn_pickup_frame g' = spawn_pickup_frame g.
Proof.
  intros [[_ ->]|[_ (pk & w & _ & ->)]]%spawn_pickup_cases; reflexivity.
Qed.

(** A running tick applies [fall] once to the player's position and speed
    and nothing else. *)
Lemma game_loop_kinematics v d g g' :
  game_over g = false → game_loop v d g = Ok g' →
  Player.xcor (player g') = Player.xcor (Player.fall (player g))
  ∧ Player.ycor (player g') = Player.ycor (Player.fall (player g))
  ∧ Player.dy (player g') = Player.dy (Player.fall (player g)).
Proof.
  intros Hrun H.
  destruct (game_loop_running _ _ _ _ Hrun H)
    as (g1 & g2 & g3 & g4 & H1 & H2 & H3 & H4 & ->).
  apply spawn_obstacle_keeps in H1. apply spawn_pickup_keeps in H2.
  apply obstacle_loop_frame in H3. apply pickup_loop_frame in H4.
  unfold spawn_obstacle_frame, spawn_pickup_frame, obstacle_frame, pickup_frame in *.
  cbn in *. inversion H1. inversion H2. inversion H3. inversion H4.
  repeat match goal with H : player _ = _ |- _ => rewrite H end.
  repeat match goal with H : Player.xcor _ = _ |- _ => rewrite H end.
  repeat match goal with H : Player.ycor _ = _ |- _ => rewrite H end.
  repeat match goal with H : Player.dy _ = _ |- _ => rewrite H end.
  repeat match goal with H : player _ = _ |- _ => rewrite H end.
  auto.
Qed.

Lemma fall_above_ground p : GROUND <= Player.ycor (Player.fall p).
Proof.
  unfold Player.fall. cbn. destruct (decide _) as [H|H]; cbn in *; lia.
Qed.

Lemma new_game_running v ys : game_over (new_game v ys) = false.
Proof. by destruct v. Qed.

Lemma reachable_above_ground v g :
  reachable v g → GROUND <= Player.ycor (player g).
Proof.
  induction 1 as [ys d g H|g ev g' Hg IH H].
  - apply game_loop_kinematics in H as (_ & -> & _); [|apply new_game_running].
    apply fall_above_ground.
  - destruct ev; cbn in H.
    + destruct (Screen.timer_pending _); [|by inversion H; subst].
      destruct (game_over (take_timer g)) eqn:E.
      * rewrite game_loop_over in H by done. by inversion H; subst.
      * apply game_loop_kinematics in H as (_ & -> & _); [|done].
        apply fall_above_ground.
    + destruct (Screen.key_space _); inversion H; subst; [|done].
      cbn. unfold Player.jump. by destruct (decide _).
    + destruct (Screen.key_a _); inversion H; subst; [|done].
      cbn. destruct v; cbn; [done|]. by destruct (decide _).
    + destruct (Screen.key_d _); inversion H; subst; [|done].
      cbn. destruct v; cbn; [done|]. by destruct (decide _).
Qed.

Lemma fall_grounded p : Player.fall (grounded p) = grounded p.
Proof. reflexivity. Qed.

Lemma iter_fall_grounded n p : Nat.iter n Player.fall (grounded p) = grounded p.
Proof.
  induction n as [|n IH]; [done|].
  change (Nat.iter (S n) Player.fall (grounded p))
    with (Player.fall (Nat.iter n Player.fall (grounded p))).
  rewrite IH. apply fall_grounded.
Qed.

Lemma jump_lands_after_31 p :
  Player.ycor p = GROUND →
  Nat.iter 31 Player.fall (Player.jump p) = grounded p.
Proof.
  destruct p as [x y d h]. cbn. intros ->. reflexivity.
Qed.

(** C5: after [fall] the player is never below the ground, in particular in
    every reachable state; a running tick applies [fall] once; [jump] sets
    [dy] to 15 when the player is not above the ground and does nothing
    otherwise, so in a session it only acts on the ground; and from the
    ground, a jump followed by 31 or more falls ends on the ground with
    [dy = 0]. *)
Theorem ground_clamp_and_jump :
  (∀ p, GROUND <= Player.ycor (Player.fall p))
  ∧ (∀ v g, reachable v g → GROUND <= Player.ycor (player g))
  ∧ (∀ v d g g', game_over g = false → game_loop v d g = Ok g' →
       Player.ycor (player g') = Player.ycor (Player.fall (player g))
       ∧ Player.dy (player g') = Player.dy (Player.fall (player g)))
  ∧ (∀ p, Player.ycor p <= GROUND ∧ Player.jump p = Player.set_dy 15 p
          ∨ GROUND < Player.ycor p ∧ Player.jump p = p)
  ∧ (∀ v g, reachable v g → Player.jump (player g) ≠ player g →
       Player.ycor (player g) = GROUND)
  ∧ (∀ p n, Player.ycor p = GROUND → (31 <= n)%nat →
       Player.ycor (Nat.iter n Player.fall (Player.jump p)) = GROUND
       ∧ Player.dy (Nat.iter n Player.fall (Player.jump p)) = 0).
Proof.
  split; [exact fall_above_ground|].
  split; [exact reachable_above_ground|].
  split; [intros v d g g' Hrun H; by apply game_loop_kinematics in H as (_ & ? & ?)|].
  split.
  { intros p. unfold Player.jump. destruct (decide _); [left|right]; split; auto; lia. }
  split.
  { intros v g Hg Hj. apply reachable_above_ground in Hg.
    unfold Player.jump in Hj. destruct (decide _); [lia|done]. }
  intros p n Hp Hn.
  replace n with ((n - 31) + 31)%nat by lia.
  rewrite Nat.iter_add, jump_lands_after_31, iter_fall_grounded by done.
  split; reflexivity.
Qed.

Lemma ground_clamp_and_jump_witness :
  Player.ycor (player (new_game main2 ys0)) = GROUND
  ∧ Player.ycor (Nat.iter 40 Player.fall (Player.jump (player (new_game main2 ys0))))
    = GROUND
  ∧ Player.dy (Nat.iter 40 Player.fall (Player.jump (player (new_game main2 ys0))))
    = 0.
Proof.
  split; [reflexivity|].
  apply (proj2 (proj2 (proj2 (proj2 (proj2 ground_clamp_and_jump))))
           (player (new_game main2 ys0)) 40%nat); [reflexivity | lia].
Defined.

(** * C9: the two orders of the off-screen and the collision test *)

Lemma obstacle_update_same ob f g :
  (ob < length (obstacles g))%nat →
  obstacle (update_obstacle ob f g) ob = f (obstacle g ob).
Proof.
  intros Hlt. unfold update_obstacle, obstacle; cbn.
  by rewrite list_lookup_total_insert_eq.
Qed.

Lemma obstacle_update_other ob ob' f g :
  ob ≠ ob' → obstacle (update_obstacle ob f g) ob' = obstacle g ob'.
Proof.
  intros Hne. unfold update_obstacle, obstacle; cbn.
  by rewrite list_lookup_total_insert_ne.
Qed.

Lemma obstacle_update_dangling ob f g :
  ¬ (ob < length (obstacles g))%nat → update_obstacle ob f g = g.
Proof.
  intros Hge. unfold update_obstacle. rewrite list_insert_ge by lia.
  by destruct g.
Qed.

Lemma award_dodge_xcor ob g :
  Obstacle.xcor (obstacle (award_dodge ob g) ob) = Obstacle.xcor (obstacle g ob).
Proof.
  unfold award_dodge.
  destruct (decide (ob < length (obstacles g))%nat) as [Hlt|Hge].
  - by rewrite obstacle_update_same.
  - by rewrite obstacle_update_dangling.
Qed.

Lemma handle_main_after_reset ob g :
  (g1 ← reset_obstacle ob g;
   if Obstacle.is_out_of_screen (obstacle g1 ob) then reset_obstacle ob g1 else Ok g1)
  = reset_obstacle ob g.
Proof.
  destruct (reset_obstacle ob g) as [g1| |] eqn:E; cbn; [|done..].
  apply reset_obstacle_Ok in E as (ip & _ & ->).
  by rewrite recycled_on_screen.
Qed.

(** C9, as the code has it: main.py tests the collision (and the dodge)
    first and the off-screen condition afterwards, main2.py tests the
    off-screen condition first.  The two resolutions return the same result
    whenever the obstacle is not past the off-screen boundary, and also when it
    is past it but neither collides nor is due a dodge point.  Past the
    boundary, a colliding obstacle costs a hitpoint in main.py only, and an
    obstacle due a dodge point scores in main.py only. *)
Theorem handle_obstacle_orders ob g :
  (Obstacle.is_out_of_screen (obstacle g ob) = false
   ∨ (check_collision g (obstacle g ob) = false ∧ dodge_due g (obstacle g ob) = false) →
   handle_obstacle main ob g = handle_obstacle main2 ob g)
  ∧ (Obstacle.is_out_of_screen (obstacle g ob) = true →
     check_collision g (obstacle g ob) = true →
     handle_obstacle main ob g = reset_obstacle ob (damage_player g)
     ∧ handle_obstacle main2 ob g = reset_obstacle ob g)
  ∧ (Obstacle.is_out_of_screen (obstacle g ob) = true →
     check_collision g (obstacle g ob) = false →
     dodge_due g (obstacle g ob) = true →
     handle_obstacle main ob g = reset_obstacle ob (award_dodge ob g)
     ∧ handle_obstacle main2 ob g = reset_obstacle ob g).
Proof.
  unfold handle_obstacle, handle_obstacle_main, handle_obstacle_main2,
    handle_obstacle_main2_keys, press_keys, dodge_due.
  fold (award_dodge ob g).
  split; [|split].
  - intros [Hoff|[Hcol Hdodge]].
    + rewrite Hoff. destruct (check_collision g _).
      * apply handle_main_after_reset.
      * destruct (_ && _); cbn.
        -- unfold Obstacle.is_out_of_screen in *.
           rewrite award_dodge_xcor, Hoff. reflexivity.
        -- by rewrite Hoff.
    + rewrite Hcol, Hdodge. cbn.
      destruct (Obstacle.is_out_of_screen _); reflexivity.
  - intros Hoff Hcol. rewrite Hoff, Hcol. split; [|done].
    apply handle_main_after_reset.
  - intros Hoff Hcol Hdodge. rewrite Hoff, Hcol, Hdodge. split; [|done].
    cbn. unfold Obstacle.is_out_of_screen in *.
    rewrite award_dodge_xcor, Hoff. reflexivity.
Qed.

(** C9 as stated fails: in [unseen_moved] the obstacle is past the
    off-screen boundary and does not collide with the player, yet main.py
    awards a dodge point before recycling it and main2.py recycles it
    without a point. *)
Lemma orders_differ_without_collision :
  session main ys0 unlucky unseen_events = Ok unseen
  ∧ update_obstacle 0 Obstacle.move (player_falls (tick_timers (take_timer unseen)))
    = unseen_moved
  ∧ in_play_obstacles unseen_moved = [0%nat]
  ∧ obstacle unseen_moved 0 = Obstacle.mk (-666) (-270) false
  ∧ Player.xcor (player unseen_moved) = -625
  ∧ Player.ycor (player unseen_moved) = -250
  ∧ check_collision unseen_moved (obstacle unseen_moved 0) = false
  ∧ Obstacle.is_out_of_screen (obstacle unseen_moved 0) = true
  ∧ score unseen_moved = 0
  ∧ ∃ g1 g2, handle_obstacle main 0 unseen_moved = Ok g1
      ∧ handle_obstacle main2 0 unseen_moved = Ok g2
      ∧ score g1 = 1 ∧ score g2 = 0.
Proof.
  split; [vm_compute; reflexivity|]. split; [vm_compute; reflexivity|].
  repeat (split; [reflexivity|]).
  eexists _, _. split; [vm_compute; reflexivity|].
  split; [vm_compute; reflexivity|]. split; reflexivity.
Qed.

Lemma handle_obstacle_orders_witness :
  Obstacle.is_out_of_screen (obstacle unseen_moved 0) = true
  ∧ check_collision unseen_moved (obstacle unseen_moved 0) = false
  ∧ dodge_due unseen_moved (obstacle unseen_moved 0) = true
  ∧ handle_obstacle main 0 unseen_moved
    = reset_obstacle 0 (award_dodge 0 unseen_moved)
  ∧ handle_obstacle main2 0 unseen_moved = reset_obstacle 0 unseen_moved.
Proof.
  split; [reflexivity|]. split; [reflexivity|]. split; [reflexivity|].
  apply (proj2 (proj2 (handle_obstacle_orders 0 unseen_moved))); reflexivity.
Defined.

(** * C2: the pools *)

Lemma list_remove_Ok x l l' : list_remove x l = Ok l' → l ≡ₚ x :: l'.
Proof.
  revert l'. induction l as [|y l IH]; intros l' H; cbn in H; [discriminate|].
  destruct (decide (x = y)) as [->|Hne].
  - by inversion H.
  - inv_bind H. inversion H; subst. rewrite (IH _ H0). apply Permutation_swap.
Qed.

Lemma list_remove_elem x l : x ∈ l → ∃ l', list_remove x l = Ok l'.
Proof.
  induction l as [|y l IH]; intros Hx; [by apply elem_of_nil in Hx|].
  cbn. destruct (decide (x = y)) as [->|Hne]; [eauto|].
  apply elem_of_cons in Hx as [->|Hx]; [done|].
  destruct (IH Hx) as (l' & ->). cbn. eauto.
Qed.

Lemma list_remove_length x l l' :
  list_remove x l = Ok l' → length l = S (length l').
Proof. intros H%list_remove_Ok. by rewrite H. Qed.

Lemma update_obstacle_pool_ok ob f g :
  obstacle_pool_ok (update_obstacle ob f g) ↔ obstacle_pool_ok g.
Proof. unfold obstacle_pool_ok; cbn. by rewrite length_insert. Qed.

Lemma update_pickup_pool_ok pk f g :
  pickup_pool_ok (update_pickup pk f g) ↔ pickup_pool_ok g.
Proof. unfold pickup_pool_ok; cbn. by rewrite length_insert. Qed.

Lemma reset_obstacle_pool_ok ob g g' :
  reset_obstacle ob g = Ok g' → obstacle_pool_ok g → obstacle_pool_ok g'.
Proof.
  intros (ip & Hip & ->)%reset_obstacle_Ok [Hperm Hlen].
  unfold recycled. rewrite !update_obstacle_pool_ok. split; [|done]. cbn.
  apply list_remove_Ok in Hip. rewrite <- Hperm, Hip, <- app_assoc. reflexivity.
Qed.

Lemma reset_pickup_pool_ok y pk g g' :
  reset_pickup y pk g = Ok g' → pickup_pool_ok g → pickup_pool_ok g'.
Proof.
  intros (ip & Hip & ->)%reset_pickup_Ok [Hperm Hlen].
  unfold recycled_pickup. rewrite update_pickup_pool_ok. split; [|done]. cbn.
  apply list_remove_Ok in Hip. rewrite <- Hperm, Hip, <- app_assoc. reflexivity.
Qed.

Lemma handle_obstacle_pool_ok v ob g g' :
  handle_obstacle v ob g = Ok g' → obstacle_pool_ok g → obstacle_pool_ok g'.
Proof.
  intros H Hok. apply handle_obstacle_cases in H as [->|[->|[H|[H|H]]]]; auto.
  - by apply update_obstacle_pool_ok.
  - by apply reset_obstacle_pool_ok in H.
  - by apply reset_obstacle_pool_ok in H.
  - apply reset_obstacle_pool_ok in H; [done|]. by apply update_obstacle_pool_ok.
Qed.

Lemma handle_pickup_pool_ok v y pk g g' :
  handle_pickup v y pk g = Ok g' → pickup_pool_ok g → pickup_pool_ok g'.
Proof.
  intros H Hok. apply handle_pickup_cases in H as [->|[H|H]]; auto.
  - by apply reset_pickup_pool_ok in H.
  - by apply reset_pickup_pool_ok in H.
Qed.

Lemma obstacle_loop_pool_ok v fuel i g g' :
  obstacle_loop v fuel i g = Ok g' → obstacle_pool_ok g → obstacle_pool_ok g'.
Proof.
  intros H Hok.
  destruct (obstacle_loop_inv v (λ _ g1, obstacle_pool_ok g1) fuel i g g')
    as (j & Hj & _); auto.
  intros i0 g0 ob g1 IH _ Hh. eapply handle_obstacle_pool_ok; [exact Hh|].
  by apply update_obstacle_pool_ok.
Qed.

Lemma pickup_loop_pool_ok v d fuel i g g' :
  pickup_loop v d fuel i g = Ok g' → pickup_pool_ok g → pickup_pool_ok g'.
Proof.
  intros H Hok.
  destruct (pickup_loop_inv v d (λ _ g1, pickup_pool_ok g1) fuel i g g')
    as (j & Hj & _); auto.
  intros i0 g0 pk g1 IH _ Hh. eapply handle_pickup_pool_ok; [exact Hh|].
  by apply update_pickup_pool_ok.
Qed.

Lemma spawn_obstacle_pool_ok v d g g' :
  spawn_obstacle v d g = Ok g' → obstacle_pool_ok g → obstacle_pool_ok g'.
Proof.
  intros [[_ ->]|[_ (ob & w & Hw & ->)]]%spawn_obstacle_cases [Hperm Hlen]; [done|].
  split; [|done]. cbn. rewrite <- Hperm, Hw.
  rewrite (Permutation_app_comm (in_play_obstacles g)). cbn.
  by rewrite Permutation_middle.
Qed.

Lemma spawn_pickup_pool_ok v d g g' :
  spawn_pickup v d g = Ok g' → pickup_pool_ok g → pickup_pool_ok g'.
Proof.
  intros [[_ ->]|[_ (pk & w & Hw & ->)]]%spawn_pickup_cases [Hperm Hlen]; [done|].
  split; [|done]. cbn. rewrite <- Hperm, Hw.
  rewrite (Permutation_app_comm (in_play_pickups g)). cbn.
  by rewrite Permutation_middle.
Qed.

Ltac frame_inv H :=
  unfold spawn_obstacle_frame, spawn_pickup_frame, obstacle_frame, pickup_frame in H;
  cbn in H; inversion H; clear H.

Lemma game_loop_pools_ok v d g g' :
  game_loop v d g = Ok g' → pools_ok g → pools_ok g'.
Proof.
  intros H [Ho Hp]. destruct (game_over g) eqn:Hrun.
  - rewrite game_loop_over in H by done. inversion H; subst. done.
  - destruct (game_loop_running _ _ _ _ Hrun H)
      as (g1 & g2 & g3 & g4 & H1 & H2 & H3 & H4 & ->).
    assert (pools_ok g1) as [Ho1 Hp1].
    { split; [by eapply spawn_obstacle_pool_ok|].
      apply spawn_obstacle_keeps in H1. frame_inv H1. unfold pickup_pool_ok in *.
      congruence. }
    assert (pools_ok g2) as [Ho2 Hp2].
    { split; [|by eapply spawn_pickup_pool_ok].
      apply spawn_pickup_keeps in H2. frame_inv H2. unfold obstacle_pool_ok in *.
      congruence. }
    assert (pools_ok g3) as [Ho3 Hp3].
    { split; [by eapply obstacle_loop_pool_ok|].
      apply obstacle_loop_frame in H3. frame_inv H3. unfold pickup_pool_ok in *.
      congruence. }
    split.
    + apply pickup_loop_frame in H4. frame_inv H4. change (obstacle_pool_ok g4).
      unfold obstacle_pool_ok in *. congruence.
    + change (pickup_pool_ok g4). by eapply pickup_loop_pool_ok.
Qed.

Lemma new_game_pools_ok v ys : pools_ok (new_game v ys).
Proof.
  split; split; cbn; rewrite ?app_nil_r; try reflexivity.
Qed.

Lemma deliver_pools_ok v ev g g' :
  deliver v ev g = Ok g' → pools_ok g → pools_ok g'.
Proof.
  destruct ev; cbn; intros H Hok.
  - destruct (Screen.timer_pending _); [|by inversion H; subst].
    eapply game_loop_pools_ok; [exact H|]. exact Hok.
  - destruct (Screen.key_space _); inversion H; subst; exact Hok.
  - destruct (Screen.key_a _); inversion H; subst; exact Hok.
  - destruct (Screen.key_d _); inversion H; subst; exact Hok.
Qed.

Lemma reachable_pools_ok v g : reachable v g → pools_ok g.
Proof.
  induction 1 as [ys d g H|g ev g' Hg IH H].
  - eapply game_loop_pools_ok; [exact H|]. apply new_game_pools_ok.
  - by eapply deliver_pools_ok.
Qed.

(** ** No exception and enough fuel: every event runs to its end *)

Lemma reset_obstacle_total ob g :
  ob ∈ in_play_obstacles g →
  ∃ g', reset_obstacle ob g = Ok g'
        ∧ (length (in_play_obstacles g') < length (in_play_obstacles g))%nat.
Proof.
  intros (ip & Hip)%list_remove_elem. exists (recycled ob g ip). split.
  - apply reset_obstacle_Ok. eauto.
  - cbn. apply list_remove_length in Hip. lia.
Qed.

Lemma handle_obstacle_total v ob g :
  ob ∈ in_play_obstacles g →
  ∃ g', handle_obstacle v ob g = Ok g'
        ∧ (length (in_play_obstacles g') <= length (in_play_obstacles g))%nat.
Proof.
  intros Hin. unfold handle_obstacle; destruct v;
    unfold handle_obstacle_main, handle_obstacle_main2, handle_obstacle_main2_keys,
      press_keys.
  - destruct (check_collision g _).
    + rewrite handle_main_after_reset.
      destruct (reset_obstacle_total ob (damage_player g) Hin) as (g' & -> & Hlen).
      exists g'. split; [done|]. cbn in Hlen. lia.
    + fold (award_dodge ob g). destruct (_ && _); rewrite bind_Ok_l.
      * destruct (Obstacle.is_out_of_screen _); [|eauto].
        destruct (reset_obstacle_total ob (award_dodge ob g) Hin) as (g' & -> & Hlen).
        exists g'. split; [done|]. cbn in Hlen. lia.
      * destruct (Obstacle.is_out_of_screen _); [|eauto].
        destruct (reset_obstacle_total ob g Hin) as (g' & -> & Hlen).
        exists g'. split; [done|]. lia.
  - destruct (Obstacle.is_out_of_screen _).
    { destruct (reset_obstacle_total ob g Hin) as (g' & -> & Hlen).
      exists g'. split; [done|]. lia. }
    destruct (check_collision g _).
    { destruct (reset_obstacle_total ob (damage_player g) Hin) as (g' & -> & Hlen).
      exists g'. split; [done|]. cbn in Hlen. lia. }
    destruct (_ && _); eauto.
Qed.

Lemma for_in_total lst body fuel i g :
  (∀ i g x, x ∈ lst g →
     ∃ g', body i x g = Ok g' ∧ (length (lst g') <= length (lst g))%nat) →
  (length (lst g) - i < fuel)%nat →
  ∃ g', for_in lst body fuel i g = Ok g'.
Proof.
  intros Hbody. revert i g.
  induction fuel as [|fuel IH]; intros i g Hfuel; [lia|]. cbn.
  destruct (lst g !! i) as [x|] eqn:E; [|eauto].
  pose proof (lookup_lt_Some _ _ _ E) as Hi.
  destruct (Hbody i g x) as (g1 & -> & Hlen).
  { eapply list_elem_of_lookup_2, E. }
  rewrite bind_Ok_l. apply IH. lia.
Qed.

Lemma obstacle_loop_total v fuel i g :
  (length (in_play_obstacles g) - i < fuel)%nat →
  ∃ g', obstacle_loop v fuel i g = Ok g'.
Proof.
  apply for_in_total. intros i0 g0 ob Hin.
  apply (handle_obstacle_total v ob (update_obstacle ob Obstacle.move g0) Hin).
Qed.

Lemma reset_pickup_total y pk g :
  pk ∈ in_play_pickups g →
  ∃ g', reset_pickup y pk g = Ok g'
        ∧ (length (in_play_pickups g') < length (in_play_pickups g))%nat.
Proof.
  intros (ip & Hip)%list_remove_elem. exists (recycled_pickup y pk g ip). split.
  - apply reset_pickup_Ok. eauto.
  - cbn. apply list_remove_length in Hip. lia.
Qed.

Lemma handle_pickup_main_after_reset y pk g :
  (g1 ← reset_pickup y pk g;
   if Pickup.is_out_of_screen (pickup g1 pk) then reset_pickup y pk g1 else Ok g1)
  = reset_pickup y pk g.
Proof.
  destruct (reset_pickup y pk g) as [g1| |] eqn:E; cbn; [|done..].
  apply reset_pickup_Ok in E as (ip & _ & ->).
  by rewrite recycled_pickup_on_screen.
Qed.

Lemma handle_pickup_total v y pk g :
  pk ∈ in_play_pickups g →
  ∃ g', handle_pickup v y pk g = Ok g'
        ∧ (length (in_play_pickups g') <= length (in_play_pickups g))%nat.
Proof.
  intros Hin. unfold handle_pickup; destruct v;
    unfold handle_pickup_main, handle_pickup_main2.
  - destruct (check_collision_pickup g _).
    + rewrite handle_pickup_main_after_reset.
      destruct (reset_pickup_total y pk (set_score (score g + 5) g) Hin)
        as (g' & -> & Hlen).
      exists g'. split; [done|]. cbn in Hlen. lia.
    + rewrite bind_Ok_l. destruct (Pickup.is_out_of_screen _); [|eauto].
      destruct (reset_pickup_total y pk g Hin) as (g' & -> & Hlen).
      exists g'. split; [done|]. lia.
  - destruct (Pickup.is_out_of_screen _).
    { destruct (reset_pickup_total y pk g Hin) as (g' & -> & Hlen).
      exists g'. split; [done|]. lia. }
    destruct (check_collision_pickup g _); [|eauto].
    destruct (reset_pickup_total y pk (set_score (score g + 5) g) Hin)
      as (g' & -> & Hlen).
    exists g'. split; [done|]. cbn in Hlen. lia.
Qed.

Lemma pickup_loop_total v d fuel i g :
  (length (in_play_pickups g) - i < fuel)%nat →
  ∃ g', pickup_loop v d fuel i g = Ok g'.
Proof.
  apply for_in_total. intros i0 g0 pk Hin.
  apply (handle_pickup_total v (respawn_roll d i0) pk
           (update_pickup pk (Pickup.move (speed_roll d i0) (wobble_roll d i0)) g0) Hin).
Qed.

Lemma spawn_obstacle_total v d g : ∃ g', spawn_obstacle v d g = Ok g'.
Proof.
  unfold spawn_obstacle. destruct (obstacle_due d g) eqn:Hdue; [|eauto].
  unfold obstacle_due in Hdue. rewrite !andb_true_iff in Hdue.
  destruct Hdue as [[[_ _] Hw%bool_decide_eq_true] _].
  unfold admit_obstacle.
  destruct (waiting_obstacles g) as [|ob w] eqn:E; [cbn in Hw; lia|].
  destruct v; [|rewrite bool_decide_eq_true_2 by done]; cbn; eauto.
Qed.

Lemma spawn_pickup_total v d g : ∃ g', spawn_pickup v d g = Ok g'.
Proof.
  unfold spawn_pickup. destruct (pickup_due d g) eqn:Hdue; [|eauto].
  unfold pickup_due in Hdue. rewrite !andb_true_iff in Hdue.
  destruct Hdue as [[[_ _] Hw%bool_decide_eq_true] _].
  unfold admit_pickup.
  destruct (waiting_pickups g) as [|pk w] eqn:E; [cbn in Hw; lia|].
  destruct v; [|rewrite bool_decide_eq_true_2 by done]; cbn; eauto.
Qed.

Lemma game_loop_unfold v d g :
  game_loop v d g =
  if negb (game_over g) then
    g1 ← spawn_obstacle v d (tick_timers g);
    g2 ← spawn_pickup v d g1;
    g3 ← obstacle_loop v (S (length (in_play_obstacles g2))) 0 (player_falls g2);
    g4 ← pickup_loop v d (S (length (in_play_pickups g3))) 0 g3;
    Ok (rearm g4)
  else Ok (show_game_over_screen g).
Proof. reflexivity. Qed.

(** [game_loop] returns: no [ValueError], no [IndexError], and the fuel
    given to the loops is enough. *)
Lemma game_loop_total v d g : ∃ g', game_loop v d g = Ok g'.
Proof.
  rewrite game_loop_unfold. destruct (game_over g); cbn [negb]; [eauto|].
  destruct (spawn_obstacle_total v d (tick_timers g)) as (g1 & ->).
  rewrite bind_Ok_l. destruct (spawn_pickup_total v d g1) as (g2 & ->).
  rewrite bind_Ok_l.
  destruct (obstacle_loop_total v (S (length (in_play_obstacles g2))) 0
              (player_falls g2)) as (g3 & ->); [cbn; lia|].
  rewrite bind_Ok_l.
  destruct (pickup_loop_total v d (S (length (in_play_pickups g3))) 0 g3)
    as (g4 & ->); [lia|].
  rewrite bind_Ok_l. eauto.
Qed.

Lemma deliver_total v ev g : ∃ g', deliver v ev g = Ok g'.
Proof.
  destruct ev; cbn.
  - destruct (Screen.timer_pending _); [apply game_loop_total | eauto].
  - destruct (Screen.key_space _); eauto.
  - destruct (Screen.key_a _); eauto.
  - destruct (Screen.key_d _); eauto.
Qed.

(** C2: in every reachable state, for obstacles and for pickups alike, the
    waiting list followed by the in-play list has no repetition (the two
    lists are disjoint and hold no object twice), holds exactly the ten
    objects created by [__init__], and the two lengths add up to 10; and
    every event from such a state runs to its end, so the session never
    stops on an exception. *)
Theorem pool_conservation v g :
  reachable v g →
  (NoDup (waiting_obstacles g ++ in_play_obstacles g)
   ∧ (∀ ob, ob ∈ created ↔ ob ∈ waiting_obstacles g ∨ ob ∈ in_play_obstacles g)
   ∧ (∀ ob, ob ∈ waiting_obstacles g → ob ∉ in_play_obstacles g)
   ∧ (length (waiting_obstacles g) + length (in_play_obstacles g) = 10)%nat)
  ∧ (NoDup (waiting_pickups g ++ in_play_pickups g)
     ∧ (∀ pk, pk ∈ created ↔ pk ∈ waiting_pickups g ∨ pk ∈ in_play_pickups g)
     ∧ (∀ pk, pk ∈ waiting_pickups g → pk ∉ in_play_pickups g)
     ∧ (length (waiting_pickups g) + length (in_play_pickups g) = 10)%nat)
  ∧ (∀ ev, ∃ g', deliver v ev g = Ok g' ∧ reachable v g').
Proof.
  intros Hg. destruct (reachable_pools_ok _ _ Hg) as [[Ho _] [Hp _]].
  assert (∀ w i : list nat, w ++ i ≡ₚ created →
            NoDup (w ++ i) ∧ (∀ x, x ∈ created ↔ x ∈ w ∨ x ∈ i)
            ∧ (∀ x, x ∈ w → x ∉ i) ∧ (length w + length i = 10)%nat) as Hgen.
  { intros w i Hperm.
    assert (NoDup (w ++ i)) as Hnd by (rewrite Hperm; apply NoDup_seq).
    split; [done|]. split; [|split].
    - intros x. rewrite <- Hperm. apply elem_of_app.
    - apply NoDup_app in Hnd as (_ & Hdis & _). exact Hdis.
    - rewrite <- length_app, Hperm. reflexivity. }
  split; [by apply Hgen|]. split; [by apply Hgen|].
  intros ev. destruct (deliver_total v ev g) as (g' & Hg').
  exists g'. split; [done|]. eapply reach_step; eauto.
Qed.

Lemma pool_conservation_witness :
  reachable main quiet_29_lucky
  ∧ (length (waiting_obstacles quiet_29_lucky)
     + length (in_play_obstacles quiet_29_lucky) = 10)%nat
  ∧ (length (waiting_pickups quiet_29_lucky)
     + length (in_play_pickups quiet_29_lucky) = 10)%nat.
Proof.
  assert (reachable main quiet_29_lucky) as Hr.
  { apply (reachable_session main ys0 unlucky
             (replicate 28 (Timer unlucky) ++ [Timer lucky])).
    vm_compute. reflexivity. }
  split; [exact Hr|].
  destruct (pool_conservation main quiet_29_lucky Hr)
    as ((_ & _ & _ & Ho) & (_ & _ & _ & Hp) & _).
  split; [exact Ho | exact Hp].
Defined.

(** * C10: removing the current element under a [for] loop *)

Lemma list_remove_middle x (pre post : list nat) :
  x ∉ pre → list_remove x (pre ++ x :: post) = Ok (pre ++ post).
Proof.
  induction pre as [|y pre IH]; intros Hx; cbn.
  - by rewrite decide_True.
  - apply not_elem_of_cons in Hx as [Hne Hx].
    rewrite decide_False by done. by rewrite IH.
Qed.

Section for_in_shrinking.
Context (lst : Game → list nat) (body : nat → nat → Game → result Game).

(** The body either leaves the list alone or removes the element it was
    called on, as [reset_obstacle] and [reset_pickup] do. *)
Hypothesis body_list : ∀ i x g g1,
  body i x g = Ok g1 →
  lst g1 = lst g ∨ list_remove x (lst g) = Ok (lst g1).

Lemma for_in_skips fuel pre post g g' :
  lst g = pre ++ post → NoDup (lst g) →
  for_in lst body fuel (length pre) g = Ok g' →
  (∀ x, x ∈ for_in_visits lst body fuel (length pre) g → x ∈ post)
  ∧ (∀ x, x ∈ pre → x ∈ lst g')
  ∧ (∀ j a b, post !! j = Some a → post !! S j = Some b → a ∉ lst g' →
       (b ∉ for_in_visits lst body fuel (length pre) g) ∧ b ∈ lst g').
Proof.
  revert pre post g. induction fuel as [|fuel IH]; intros pre post g Hl Hnd H;
    cbn in H; [discriminate|]. cbn [for_in_visits].
  destruct post as [|x post].
  { rewrite lookup_ge_None_2 in * by (rewrite Hl, app_nil_r; lia).
    inversion H; subst. rewrite Hl, app_nil_r.
    split; [intros x Hx; by apply elem_of_nil in Hx|]. split; [done|].
    by intros [|j] a b. }
  assert (lst g !! length pre = Some x) as E by (by rewrite Hl, list_lookup_middle).
  rewrite E in *. inv_bind H. rewrite H0.
  pose proof Hnd as Hnd'. rewrite Hl in Hnd'.
  apply NoDup_app in Hnd' as (Hpre & Hdis & [Hx Hpost]%NoDup_cons).
  destruct (body_list _ _ _ _ H0) as [Hsame|Hrem].
  - (* the element stays: the cursor moves on to the next one *)
    destruct (IH (pre ++ [x]) post g0) as (Hv & Hp & Hs).
    { by rewrite Hsame, Hl, <- app_assoc. }
    { by rewrite Hsame. }
    { rewrite length_app, Nat.add_1_r. exact H. }
    rewrite length_app, Nat.add_1_r in Hv, Hs.
    split; [|split].
    + intros y [->|Hy]%elem_of_cons; [left | right; auto].
    + intros y Hy. apply Hp, elem_of_app. auto.
    + intros [|j] a b Ha Hb Hgone; cbn in Ha, Hb.
      * inversion Ha; subst. destruct Hgone. apply Hp, elem_of_app.
        right. left.
      * destruct (Hs j a b Ha Hb Hgone) as [Hnv Hin]. split; [|done].
        intros [->|Hy]%elem_of_cons; [|done].
        apply Hx. eapply list_elem_of_lookup_2, Hb.
  - (* the element is removed: the next one slides under the cursor *)
    rewrite Hl, list_remove_middle in Hrem by (intros Hin; by apply (Hdis x); [|left]).
    inversion Hrem as [Hl1]. symmetry in Hl1.
    assert (NoDup (lst g0)) as Hnd1.
    { rewrite Hl1. apply NoDup_app. split; [done|]. split; [|done].
      intros y Hy Hy'. apply (Hdis y Hy). by right. }
    destruct post as [|b post].
    { (* it was the last one *)
      destruct fuel as [|fuel]; cbn in H; [discriminate|]. cbn [for_in_visits].
      rewrite lookup_ge_None_2 in * by (rewrite Hl1, app_nil_r; lia).
      inversion H; subst. rewrite Hl1, app_nil_r. split; [|split].
      - intros y [->|Hy]%elem_of_cons; [left | by apply elem_of_nil in Hy].
      - done.
      - by intros [|[|j]] a b. }
    destruct (IH (pre ++ [b]) post g0) as (Hv & Hp & Hs).
    { by rewrite Hl1, <- app_assoc. }
    { done. }
    { rewrite length_app, Nat.add_1_r. exact H. }
    rewrite length_app, Nat.add_1_r in Hv, Hs.
    apply NoDup_cons in Hpost as [Hb Hpost].
    split; [|split].
    + intros y [->|Hy]%elem_of_cons; [left | right; right; auto].
    + intros y Hy. apply Hp, elem_of_app. auto.
    + intros [|[|j]] a c Ha Hc Hgone; cbn in Ha, Hc.
      * inversion Ha; inversion Hc; subst. split.
        -- intros [->|Hy]%elem_of_cons; [apply Hx; left | by apply Hb, Hv].
        -- apply Hp, elem_of_app. right. left.
      * inversion Ha; subst. destruct Hgone. apply Hp, elem_of_app.
        right. left.
      * destruct (Hs j a c Ha Hc Hgone) as [Hnv Hin]. split; [|done].
        intros [->|Hy]%elem_of_cons; [|done].
        apply Hx. right. eapply list_elem_of_lookup_2, Hc.
Qed.

(** What the body does not touch on the objects it is not called on. *)
Context {T : Type} (obs : Game → nat → T).
Hypothesis body_obs : ∀ i x g g1 y,
  body i x g = Ok g1 → y ≠ x → obs g1 y = obs g y.

Lemma for_in_unvisited fuel i g g' y :
  for_in lst body fuel i g = Ok g' →
  y ∉ for_in_visits lst body fuel i g → obs g' y = obs g y.
Proof.
  revert i g. induction fuel as [|fuel IH]; intros i g H Hy; cbn in H;
    [discriminate|]. cbn [for_in_visits] in Hy.
  destruct (lst g !! i) as [x|]; [|by inversion H].
  inv_bind H. rewrite H0 in Hy. apply not_elem_of_cons in Hy as [Hne Hy].
  rewrite (IH _ _ H Hy). eauto.
Qed.
End for_in_shrinking.

Lemma obstacle_body_list v i ob g g1 :
  obstacle_body v i ob g = Ok g1 →
  in_play_obstacles g1 = in_play_obstacles g
  ∨ list_remove ob (in_play_obstacles g) = Ok (in_play_obstacles g1).
Proof.
  unfold obstacle_body. intros H.
  apply handle_obstacle_cases in H as [->|[->|[H|[H|H]]]]; auto;
    apply reset_obstacle_Ok in H as (ip & Hip & ->); auto.
Qed.

Lemma obstacle_body_others v i ob g g1 y :
  obstacle_body v i ob g = Ok g1 → y ≠ ob → obstacle g1 y = obstacle g y.
Proof.
  unfold obstacle_body. intros H Hne.
  assert (ob ≠ y) as Hne' by done.
  assert (∀ g ip, obstacle (recycled ob g ip) y = obstacle g y) as Hrec.
  { intros g2 ip. unfold recycled. by rewrite !obstacle_update_other. }
  assert (∀ g, obstacle (award_dodge ob g) y = obstacle g y) as Haw.
  { intros g2. unfold award_dodge. by rewrite obstacle_update_other. }
  pose proof (obstacle_update_other ob y Obstacle.move g Hne') as Hmv.
  apply handle_obstacle_cases in H as [->|[->|[H|[H|H]]]].
  - exact Hmv.
  - by rewrite Haw.
  - apply reset_obstacle_Ok in H as (ip & _ & ->). rewrite Hrec. exact Hmv.
  - apply reset_obstacle_Ok in H as (ip & _ & ->). rewrite Hrec. exact Hmv.
  - apply reset_obstacle_Ok in H as (ip & _ & ->). by rewrite Hrec, Haw.
Qed.

Lemma pickup_update_other pk pk' f g :
  pk ≠ pk' → pickup (update_pickup pk f g) pk' = pickup g pk'.
Proof.
  intros Hne. unfold update_pickup, pickup; cbn.
  by rewrite list_lookup_total_insert_ne.
Qed.

Lemma pickup_body_list v d i pk g g1 :
  pickup_body v d i pk g = Ok g1 →
  in_play_pickups g1 = in_play_pickups g
  ∨ list_remove pk (in_play_pickups g) = Ok (in_play_pickups g1).
Proof.
  unfold pickup_body. intros H.
  apply handle_pickup_cases in H as [->|[H|H]]; auto;
    apply reset_pickup_Ok in H as (ip & Hip & ->); auto.
Qed.

Lemma pickup_body_others v d i pk g g1 y :
  pickup_body v d i pk g = Ok g1 → y ≠ pk → pickup g1 y = pickup g y.
Proof.
  unfold pickup_body. intros H Hne.
  assert (pk ≠ y) as Hne' by done.
  assert (∀ g ip, pickup (recycled_pickup (respawn_roll d i) pk g ip) y = pickup g y)
    as Hrec.
  { intros g2 ip. unfold recycled_pickup. by rewrite pickup_update_other. }
  pose proof (pickup_update_other pk y
                (Pickup.move (speed_roll d i) (wobble_roll d i)) g Hne') as Hmv.
  apply handle_pickup_cases in H as [->|[H|H]].
  - exact Hmv.
  - apply reset_pickup_Ok in H as (ip & _ & ->). rewrite Hrec. exact Hmv.
  - apply reset_pickup_Ok in H as (ip & _ & ->). rewrite Hrec. exact Hmv.
Qed.

(** In every tick of a session the two loops start on duplicate-free
    lists. *)
Lemma tick_loops_start_NoDup v d g g1 g2 :
  reachable v g →
  spawn_obstacle v d (tick_timers (take_timer g)) = Ok g1 →
  spawn_pickup v d g1 = Ok g2 →
  NoDup (in_play_obstacles (player_falls g2))
  ∧ ∀ fuel g3, obstacle_loop v fuel 0 (player_falls g2) = Ok g3 →
               NoDup (in_play_pickups g3).
Proof.
  intros [Ho Hp]%reachable_pools_ok H1 H2.
  assert (pools_ok g1) as [Ho1 Hp1].
  { split; [by eapply spawn_obstacle_pool_ok|].
    apply spawn_obstacle_keeps in H1. frame_inv H1. unfold pickup_pool_ok in *.
    congruence. }
  assert (pools_ok g2) as [Ho2 Hp2].
  { split; [|by eapply spawn_pickup_pool_ok].
    apply spawn_pickup_keeps in H2. frame_inv H2. unfold obstacle_pool_ok in *.
    congruence. }
  split.
  - destruct Ho2 as [Hperm _].
    assert (NoDup (waiting_obstacles g2 ++ in_play_obstacles g2)) as Hnd
      by (rewrite Hperm; apply NoDup_seq).
    by apply NoDup_app in Hnd as (_ & _ & ?).
  - intros fuel g3 H3. apply obstacle_loop_frame in H3. frame_inv H3.
    destruct Hp2 as [Hperm _].
    assert (NoDup (waiting_pickups g2 ++ in_play_pickups g2)) as Hnd
      by (rewrite Hperm; apply NoDup_seq).
    apply NoDup_app in Hnd as (_ & _ & ?). congruence.
Qed.

(** C10: when the loop over the in-play obstacles recycles the object that
    stood at position [i] at the start of the loop, the object that stood at
    position [i + 1] is not among those the body runs on: its record is
    unchanged (it was not moved) and it is still in play (it was not
    resolved).  The same holds of the loop over the in-play pickups.  The
    in-play lists hold no object twice, as in every reachable state. *)
Theorem next_skipped_after_recycle :
  (∀ v fuel g g' i a b,
     NoDup (in_play_obstacles g) →
     obstacle_loop v fuel 0 g = Ok g' →
     in_play_obstacles g !! i = Some a →
     in_play_obstacles g !! S i = Some b →
     a ∉ in_play_obstacles g' →
     (b ∉ for_in_visits in_play_obstacles (obstacle_body v) fuel 0 g)
     ∧ obstacle g' b = obstacle g b
     ∧ b ∈ in_play_obstacles g')
  ∧ (∀ v d fuel g g' i a b,
       NoDup (in_play_pickups g) →
       pickup_loop v d fuel 0 g = Ok g' →
       in_play_pickups g !! i = Some a →
       in_play_pickups g !! S i = Some b →
       a ∉ in_play_pickups g' →
       (b ∉ for_in_visits in_play_pickups (pickup_body v d) fuel 0 g)
       ∧ pickup g' b = pickup g b
       ∧ b ∈ in_play_pickups g').
Proof.
  split.
  - intros v fuel g g' i a b Hnd H Ha Hb Hgone.
    destruct (for_in_skips in_play_obstacles (obstacle_body v)
                (obstacle_body_list v) fuel [] (in_play_obstacles g) g g')
      as (_ & _ & Hs); [done..|].
    destruct (Hs i a b Ha Hb Hgone) as [Hnv Hin].
    split; [done|]. split; [|done].
    eapply (for_in_unvisited in_play_obstacles (obstacle_body v) obstacle);
      [apply obstacle_body_others | exact H | exact Hnv].
  - intros v d fuel g g' i a b Hnd H Ha Hb Hgone.
    destruct (for_in_skips in_play_pickups (pickup_body v d)
                (pickup_body_list v d) fuel [] (in_play_pickups g) g g')
      as (_ & _ & Hs); [done..|].
    destruct (Hs i a b Ha Hb Hgone) as [Hnv Hin].
    split; [done|]. split; [|done].
    eapply (for_in_unvisited in_play_pickups (pickup_body v d) pickup);
      [apply pickup_body_others | exact H | exact Hnv].
Qed.

Lemma next_skipped_after_recycle_witness :
  session main2 ys0 obstacle_only (replicate 298 (Timer obstacle_only)) = Ok crowded
  ∧ (g1 ← spawn_obstacle main2 obstacle_only (tick_timers (take_timer crowded));
     g2 ← spawn_pickup main2 obstacle_only g1; Ok (player_falls g2))
    = Ok crowded_loop_start
  ∧ in_play_obstacles crowded_loop_start = seq 0 10
  ∧ obstacle_loop main2 11 0 crowded_loop_start = Ok crowded_loop_end
  ∧ in_play_obstacles crowded_loop_end = seq 1 9
  ∧ Obstacle.xcor (obstacle crowded_loop_start 1) = -180
  ∧ obstacle crowded_loop_end 1 = obstacle crowded_loop_start 1
  ∧ 1%nat ∈ in_play_obstacles crowded_loop_end.
Proof.
  assert (obstacle_loop main2 11 0 crowded_loop_start = Ok crowded_loop_end) as H
    by (vm_compute; reflexivity).
  split; [vm_compute; reflexivity|]. split; [vm_compute; reflexivity|].
  split; [reflexivity|]. split; [exact H|].
  split; [reflexivity|]. split; [reflexivity|].
  refine (proj2 (proj1 next_skipped_after_recycle main2 11%nat crowded_loop_start
                   crowded_loop_end 0%nat 0%nat 1%nat _ H eq_refl eq_refl _)).
  - apply (NoDup_seq 0 10).
  - apply (bool_decide_unpack _). vm_compute. exact I.
Defined.

(** * C6: score, hitpoints and the two states of the session *)

Lemma reset_obstacle_score_hp ob g g' :
  reset_obstacle ob g = Ok g' → score g' = score g ∧ hp g' = hp g.
Proof. by intros (ip & _ & ->)%reset_obstacle_Ok. Qed.

Lemma reset_pickup_score_hp y pk g g' :
  reset_pickup y pk g = Ok g' → score g' = score g ∧ hp g' = hp g.
Proof. by intros (ip & _ & ->)%reset_pickup_Ok. Qed.

(** One obstacle gives at most one point and takes at most one hitpoint,
    never both. *)
Lemma handle_obstacle_score_hp v ob g g' :
  handle_obstacle v ob g = Ok g' →
  (score g' = score g ∧ hp g' = hp g)
  ∨ (score g' = score g + 1 ∧ hp g' = hp g)
  ∨ (score g' = score g ∧ hp g' = hp g - 1).
Proof.
  intros H. apply handle_obstacle_cases in H as [->|[->|[H|[H|H]]]]; auto;
    apply reset_obstacle_score_hp in H as [-> ->]; auto.
Qed.

Lemma handle_pickup_score_hp v y pk g g' :
  handle_pickup v y pk g = Ok g' →
  (score g' = score g ∨ score g' = score g + 5) ∧ hp g' = hp g.
Proof.
  intros H. apply handle_pickup_cases in H as [->|[H|H]]; auto;
    apply reset_pickup_score_hp in H as [-> ->]; auto.
Qed.

Lemma no_gain_refl g : no_gain g g.
Proof. unfold no_gain. lia. Qed.

Lemma no_gain_trans g1 g2 g3 : no_gain g1 g2 → no_gain g2 g3 → no_gain g1 g3.
Proof. unfold no_gain. lia. Qed.

Lemma obstacle_loop_no_gain v fuel i g g' :
  obstacle_loop v fuel i g = Ok g' → no_gain g g'.
Proof.
  intros H.
  destruct (obstacle_loop_inv v (λ _ g1, no_gain g g1) fuel i g g')
    as (j & Hj & _); auto using no_gain_refl.
  intros i0 g0 ob g1 IH _ Hh. eapply no_gain_trans; [exact IH|].
  apply handle_obstacle_score_hp in Hh. unfold no_gain, hp in *. cbn in Hh. lia.
Qed.

Lemma pickup_loop_no_gain v d fuel i g g' :
  pickup_loop v d fuel i g = Ok g' → no_gain g g'.
Proof.
  intros H.
  destruct (pickup_loop_inv v d (λ _ g1, no_gain g g1) fuel i g g')
    as (j & Hj & _); auto using no_gain_refl.
  intros i0 g0 pk g1 IH _ Hh. eapply no_gain_trans; [exact IH|].
  apply handle_pickup_score_hp in Hh. unfold no_gain, hp in *. cbn in Hh. lia.
Qed.

Lemma game_loop_no_gain v d g g' : game_loop v d g = Ok g' → no_gain g g'.
Proof.
  intros H. destruct (game_over g) eqn:Hrun.
  - rewrite game_loop_over in H by done. inversion H; subst.
    unfold no_gain, hp. cbn. lia.
  - destruct (game_loop_running _ _ _ _ Hrun H)
      as (g1 & g2 & g3 & g4 & H1 & H2 & H3 & H4 & ->).
    apply spawn_obstacle_keeps in H1. apply spawn_pickup_keeps in H2.
    apply obstacle_loop_no_gain in H3. apply pickup_loop_no_gain in H4.
    frame_inv H1. frame_inv H2. unfold no_gain, hp in *. cbn in *.
    assert (Player.hitpoints (Player.fall (player g2)) = Player.hitpoints (player g2))
      as Hfall by (unfold Player.fall; cbn; by destruct (decide _)).
    rewrite Hfall in H3.
    repeat match goal with H : player _ = _ |- _ => rewrite H in * end.
    repeat match goal with H : score _ = _ |- _ => rewrite H in * end.
    lia.
Qed.

Lemma deliver_no_gain v ev g g' : deliver v ev g = Ok g' → no_gain g g'.
Proof.
  destruct ev; cbn; intros H.
  - destruct (Screen.timer_pending _); [|inversion H; apply no_gain_refl].
    by apply game_loop_no_gain in H.
  - destruct (Screen.key_space _); inversion H; subst; try apply no_gain_refl.
    unfold no_gain, hp, Player.jump. cbn. destruct (decide _); cbn; lia.
  - destruct (Screen.key_a _); inversion H; subst; try apply no_gain_refl.
    unfold no_gain, hp. destruct v; cbn; [|destruct (decide _)]; cbn; lia.
  - destruct (Screen.key_d _); inversion H; subst; try apply no_gain_refl.
    unfold no_gain, hp. destruct v; cbn; [|destruct (decide _)]; cbn; lia.
Qed.

Lemma game_loop_screen v d g g' :
  game_loop v d g = Ok g' →
  Screen.key_space (screen g) = true → Screen.game_over_shown (screen g) = O →
  screen g' = if game_over g then screen_over else screen_running.
Proof.
  intros H Hk Hs. destruct (game_over g) eqn:Hrun.
  - rewrite game_loop_over in H by done. inversion H; subst. cbn.
    by rewrite Hs.
  - destruct (game_loop_running _ _ _ _ Hrun H)
      as (g1 & g2 & g3 & g4 & H1 & H2 & H3 & H4 & ->).
    apply spawn_obstacle_keeps in H1. apply spawn_pickup_keeps in H2.
    apply obstacle_loop_frame in H3. apply pickup_loop_frame in H4.
    frame_inv H1. frame_inv H2. frame_inv H3. frame_inv H4. cbn.
    assert (screen g4 = screen g) as -> by congruence.
    by rewrite Hk, Hs.
Qed.

Lemma reachable_screen v g :
  reachable v g → screen g = screen_running ∨ screen g = screen_over.
Proof.
  induction 1 as [ys d g H|g ev g' Hg IH H].
  - apply game_loop_screen in H; [|done..]. rewrite new_game_running in H. auto.
  - destruct ev; cbn in H.
    + destruct IH as [IH|IH]; rewrite IH in H; cbn in H; [|inversion H; subst; auto].
      apply game_loop_screen in H; [|by cbn; rewrite IH..].
      destruct (game_over _); auto.
    + destruct (Screen.key_space _); inversion H; subst; exact IH.
    + destruct (Screen.key_a _); inversion H; subst; exact IH.
    + destruct (Screen.key_d _); inversion H; subst; exact IH.
Qed.

Lemma Running_screen v g : reachable v g → Running g → screen g = screen_running.
Proof.
  intros [Hs|Hs]%reachable_screen Hr; [done|].
  unfold Running in Hr. by rewrite Hs in Hr.
Qed.

Lemma GameOver_screen v g : reachable v g → GameOver g → screen g = screen_over.
Proof.
  intros [Hs|Hs]%reachable_screen [Hr _]; [|done]. by rewrite Hs in Hr.
Qed.

Lemma GameOver_stuck v ev g : reachable v g → GameOver g → deliver v ev g = Ok g.
Proof.
  intros Hg Ho. pose proof (GameOver_screen v g Hg Ho) as Hs.
  destruct ev; cbn; by rewrite Hs.
Qed.

Lemma Running_tick v d g g' :
  reachable v g → Running g → deliver v (Timer d) g = Ok g' →
  if bool_decide (hp g <= 0) then
    g' = set_screen screen_over g
  else screen g' = screen_running.
Proof.
  intros Hg Hr H. pose proof (Running_screen v g Hg Hr) as Hs.
  cbn in H. rewrite Hs in H. cbn in H.
  change (bool_decide (hp g <= 0)) with (game_over (take_timer g)).
  destruct (game_over (take_timer g)) eqn:E.
  - rewrite game_loop_over in H by done. inversion H; subst.
    unfold show_game_over_screen, take_timer. cbn. by rewrite Hs.
  - apply game_loop_screen in H; [|by cbn; rewrite Hs..]. by rewrite E in H.
Qed.

(** C6: along every event of a session the score does not decrease and the
    hitpoints do not increase; a reachable state is Running or GameOver; a
    timer event in a Running state leads to GameOver exactly when the
    hitpoints are at most 0 (and to Running otherwise), key events leave a
    Running state Running; and in GameOver every event leaves the state as
    it is. *)
Theorem monotone_score_and_game_over v ev g g' :
  reachable v g → deliver v ev g = Ok g' →
  score g <= score g' ∧ hp g' <= hp g
  ∧ (Running g ∨ GameOver g)
  ∧ (Running g →
     match ev with
     | Timer _ => (GameOver g' ↔ hp g <= 0) ∧ (Running g' ↔ 0 < hp g)
     | _ => Running g'
     end)
  ∧ (GameOver g → g' = g).
Proof.
  intros Hg H. destruct (deliver_no_gain _ _ _ _ H) as [Hsc Hhp].
  split; [done|]. split; [done|]. split; [|split].
  - destruct (reachable_screen v g Hg) as [Hs|Hs]; [left|right];
      unfold Running, GameOver; rewrite Hs; cbn; auto.
  - intros Hr. destruct ev.
    + apply Running_tick in H; [|done..]. unfold GameOver, Running.
      destruct (bool_decide (hp g <= 0)) eqn:E.
      * apply bool_decide_eq_true in E. subst g'. cbn.
        split; split; intros; try done; try lia.
      * apply bool_decide_eq_false in E. rewrite H. cbn.
        split; split; intros; try done; try lia.
    + cbn in H. destruct (Screen.key_space _); inversion H; subst; exact Hr.
    + cbn in H. destruct (Screen.key_a _); inversion H; subst; exact Hr.
    + cbn in H. destruct (Screen.key_d _); inversion H; subst; exact Hr.
  - intros Ho. rewrite (GameOver_stuck v ev g Hg Ho) in H. by inversion H.
Qed.

Lemma monotone_score_and_game_over_witness :
  reachable main quiet_29
  ∧ deliver main (Timer lucky) quiet_29 = Ok quiet_29_lucky
  ∧ score quiet_29 <= score quiet_29_lucky
  ∧ hp quiet_29_lucky <= hp quiet_29.
Proof.
  assert (reachable main quiet_29) as Hr.
  { apply (reachable_session main ys0 unlucky (replicate 28 (Timer unlucky))).
    vm_compute. reflexivity. }
  assert (deliver main (Timer lucky) quiet_29 = Ok quiet_29_lucky) as H
    by (vm_compute; reflexivity).
  destruct (monotone_score_and_game_over main (Timer lucky) quiet_29
              quiet_29_lucky Hr H) as (Hs & Hh & _).
  auto.
Defined.

(** * C7: the tick that takes the last hitpoint, and the one after it *)

Lemma bind_fmap (k : Z) (m : result Game) (f f' : Game → result Game) :
  (∀ g, f' (add_hp k g) = add_hp k <$> f g) →
  (g1 ← add_hp k <$> m; f' g1) = add_hp k <$> (g1 ← m; f g1).
Proof. intros Hf. destruct m; cbn; [apply Hf | done..]. Qed.

Lemma reset_obstacle_add_hp k ob g :
  reset_obstacle ob (add_hp k g) = add_hp k <$> reset_obstacle ob g.
Proof.
  unfold reset_obstacle.
  change (in_play_obstacles (add_hp k g)) with (in_play_obstacles g).
  by destruct (list_remove ob (in_play_obstacles g)).
Qed.

Lemma damage_player_add_hp k g :
  damage_player (add_hp k g) = add_hp k (damage_player g).
Proof.
  unfold damage_player, add_hp, hp, set_player, Player.set_hitpoints. cbn.
  do 2 f_equal. lia.
Qed.

Lemma handle_obstacle_add_hp k v ob g :
  handle_obstacle v ob (add_hp k g) = add_hp k <$> handle_obstacle v ob g.
Proof.
  unfold handle_obstacle; destruct v;
    unfold handle_obstacle_main, handle_obstacle_main2, handle_obstacle_main2_keys,
      press_keys;
    change (obstacle (add_hp k g) ob) with (obstacle g ob);
    change (check_collision (add_hp k g) (obstacle g ob))
      with (check_collision g (obstacle g ob));
    change (Player.xcor (player (add_hp k g))) with (Player.xcor (player g));
    rewrite damage_player_add_hp, !reset_obstacle_add_hp.
  - set (tail := λ g1 : Game, if Obstacle.is_out_of_screen (obstacle g1 ob)
                               then reset_obstacle ob g1 else Ok g1).
    assert (∀ g1, tail (add_hp k g1) = add_hp k <$> tail g1) as Htail.
    { intros g1. unfold tail.
      change (obstacle (add_hp k g1) ob) with (obstacle g1 ob).
      rewrite reset_obstacle_add_hp. by destruct (Obstacle.is_out_of_screen _). }
    destruct (check_collision g _); [by apply bind_fmap|].
    destruct (_ && _); rewrite !bind_Ok_l;
      [exact (Htail (award_dodge ob g)) | exact (Htail g)].
  - destruct (Obstacle.is_out_of_screen _); [done|].
    destruct (check_collision g _); [done|]. by destruct (_ && _).
Qed.

Lemma reset_pickup_add_hp k y pk g :
  reset_pickup y pk (add_hp k g) = add_hp k <$> reset_pickup y pk g.
Proof.
  unfold reset_pickup.
  change (in_play_pickups (add_hp k g)) with (in_play_pickups g).
  by destruct (list_remove pk (in_play_pickups g)).
Qed.

Lemma handle_pickup_add_hp k v y pk g :
  handle_pickup v y pk (add_hp k g) = add_hp k <$> handle_pickup v y pk g.
Proof.
  unfold handle_pickup; destruct v;
    unfold handle_pickup_main, handle_pickup_main2;
    change (pickup (add_hp k g) pk) with (pickup g pk);
    change (check_collision_pickup (add_hp k g) (pickup g pk))
      with (check_collision_pickup g (pickup g pk));
    change (set_score (score (add_hp k g) + 5) (add_hp k g))
      with (add_hp k (set_score (score g + 5) g));
    rewrite !reset_pickup_add_hp.
  - set (tail := λ g1 : Game, if Pickup.is_out_of_screen (pickup g1 pk)
                               then reset_pickup y pk g1 else Ok g1).
    assert (∀ g1, tail (add_hp k g1) = add_hp k <$> tail g1) as Htail.
    { intros g1. unfold tail.
      change (pickup (add_hp k g1) pk) with (pickup g1 pk).
      rewrite reset_pickup_add_hp. by destruct (Pickup.is_out_of_screen _). }
    destruct (check_collision_pickup g _); [by apply bind_fmap|].
    rewrite !bind_Ok_l. exact (Htail g).
  - destruct (Pickup.is_out_of_screen _); [done|].
    by destruct (check_collision_pickup g _).
Qed.

Lemma for_in_add_hp k lst body fuel i g :
  (∀ g, lst (add_hp k g) = lst g) →
  (∀ i x g, body i x (add_hp k g) = add_hp k <$> body i x g) →
  for_in lst body fuel i (add_hp k g) = add_hp k <$> for_in lst body fuel i g.
Proof.
  intros Hlst Hbody. revert i g. induction fuel as [|fuel IH]; intros i g; [done|].
  cbn [for_in]. rewrite Hlst. destruct (lst g !! i) as [x|]; [|done].
  rewrite Hbody. by apply bind_fmap.
Qed.

Lemma spawn_obstacle_add_hp k v d g :
  spawn_obstacle v d (add_hp k g) = add_hp k <$> spawn_obstacle v d g.
Proof.
  unfold spawn_obstacle, admit_obstacle.
  change (obstacle_due d (add_hp k g)) with (obstacle_due d g).
  change (waiting_obstacles (add_hp k g)) with (waiting_obstacles g).
  destruct (obstacle_due d g); [|done].
  destruct v; [|destruct (bool_decide _); [|done]];
    by destruct (waiting_obstacles g).
Qed.

Lemma spawn_pickup_add_hp k v d g :
  spawn_pickup v d (add_hp k g) = add_hp k <$> spawn_pickup v d g.
Proof.
  unfold spawn_pickup, admit_pickup.
  change (pickup_due d (add_hp k g)) with (pickup_due d g).
  change (waiting_pickups (add_hp k g)) with (waiting_pickups g).
  destruct (pickup_due d g); [|done].
  destruct v; [|destruct (bool_decide _); [|done]];
    by destruct (waiting_pickups g).
Qed.

Lemma player_falls_add_hp k g :
  player_falls (add_hp k g) = add_hp k (player_falls g).
Proof.
  unfold player_falls, add_hp, hp, Player.fall. cbn.
  by destruct (decide _).
Qed.

(** Within a tick the hitpoints are only written: a running tick does the
    same from a state with [k] more (or fewer) hitpoints, as long as both
    states are running. *)
Lemma game_loop_add_hp k v d g :
  0 < hp g → 0 < hp g + k →
  game_loop v d (add_hp k g) = add_hp k <$> game_loop v d g.
Proof.
  intros Hg Hk. rewrite !game_loop_unfold. unfold game_over. fold (hp g).
  change (Player.hitpoints (player (add_hp k g))) with (hp g + k).
  rewrite !bool_decide_eq_false_2 by lia. cbn [negb].
  change (tick_timers (add_hp k g)) with (add_hp k (tick_timers g)).
  rewrite spawn_obstacle_add_hp. apply bind_fmap. intros g1.
  rewrite spawn_pickup_add_hp. apply bind_fmap. intros g2.
  rewrite player_falls_add_hp.
  change (in_play_obstacles (add_hp k g2)) with (in_play_obstacles g2).
  unfold obstacle_loop, pickup_loop.
  rewrite for_in_add_hp;
    [|done|intros i x g0; exact (handle_obstacle_add_hp k v x
                                   (update_obstacle x Obstacle.move g0))].
  apply bind_fmap. intros g3.
  change (in_play_pickups (add_hp k g3)) with (in_play_pickups g3).
  rewrite for_in_add_hp;
    [|done|intros i x g0;
           exact (handle_pickup_add_hp k v (respawn_roll d i) x
                    (update_pickup x (Pickup.move (speed_roll d i) (wobble_roll d i)) g0))].
  by apply bind_fmap.
Qed.

(** What the code keeps of the claim.  Take a running tick T of a session,
    started with hitpoints left.  It is an ordinary tick: started with any
    other positive number of hitpoints
    it does the same to every object, to the score and to the timers, so
    nothing of it is cut short when it takes the last hitpoint; and it leaves
    the next tick scheduled.  If it leaves no hitpoint, tick T+1 changes
    nothing but the screen, on which 'Game Over' is then written once, no
    timer is pending and no key is bound; and every later event leaves that
    state as it is. *)
Theorem last_hitpoint_tick v d g g' :
  reachable v g → Running g → 0 < hp g →
  deliver v (Timer d) g = Ok g' →
  (∀ k, 0 < hp g + k → deliver v (Timer d) (add_hp k g) = Ok (add_hp k g'))
  ∧ Running g'
  ∧ (hp g' <= 0 →
     ∀ d' ev, deliver v (Timer d') g' = Ok (set_screen screen_over g')
              ∧ deliver v ev (set_screen screen_over g')
                = Ok (set_screen screen_over g')).
Proof.
  intros Hg Hr Hhp H. split; [|split].
  - intros k Hk. cbn in *. unfold Running in Hr.
    change (screen (add_hp k g)) with (screen g). rewrite Hr in *.
    change (take_timer (add_hp k g)) with (add_hp k (take_timer g)).
    rewrite game_loop_add_hp, H by done. reflexivity.
  - apply Running_tick in H; [|done..].
    rewrite bool_decide_eq_false_2 in H by lia. unfold Running. by rewrite H.
  - intros Hover d' ev.
    assert (reachable v g') as Hg' by (eapply reach_step; eauto).
    assert (Running g') as Hr'.
    { apply Running_tick in H; [|done..].
      rewrite bool_decide_eq_false_2 in H by lia. unfold Running. by rewrite H. }
    assert (deliver v (Timer d') g' = Ok (set_screen screen_over g')) as Hnext.
    { destruct (deliver_total v (Timer d') g') as (g'' & Hg'').
      pose proof (Running_tick v d' g' g'' Hg' Hr' Hg'') as Ht.
      rewrite bool_decide_eq_true_2 in Ht by done. by rewrite Hg'', Ht. }
    split; [done|]. apply (GameOver_stuck v).
    + eapply reach_step; eauto.
    + unfold GameOver. cbn. split; [done | lia].
Qed.

Lemma last_hitpoint_tick_witness :
  reachable main last_stand
  ∧ hp last_stand = 1 ∧ hp last_stand_hit = 0
  ∧ deliver main (Timer unlucky) last_stand = Ok last_stand_hit
  ∧ Running last_stand_hit
  ∧ deliver main (Timer lucky) last_stand_hit
    = Ok (set_screen screen_over last_stand_hit).
Proof.
  assert (reachable main last_stand) as Hr.
  { apply (reachable_session main ys0 unlucky last_stand_events).
    vm_compute. reflexivity. }
  assert (deliver main (Timer unlucky) last_stand = Ok last_stand_hit) as H
    by (vm_compute; reflexivity).
  destruct (last_hitpoint_tick main unlucky last_stand last_stand_hit Hr
              eq_refl eq_refl H) as (_ & Hrun & Hnext).
  split; [exact Hr|]. split; [reflexivity|]. split; [reflexivity|].
  split; [exact H|]. split; [exact Hrun|].
  apply (Hnext ltac:(vm_compute; discriminate) lucky Key_a).
Defined.

(** C7 on the code.  In the session of main.py in which an obstacle is
    admitted every 30 ticks and the player stands still, tick 300 takes the
    player's only hitpoint: obstacle 0 moves from -360 to -366, collides and
    is recycled.  The tick goes on, but not over every remaining obstacle:
    removing obstacle 0 from the list shifts obstacle 1 under the loop's
    cursor, so obstacle 1 is neither moved nor resolved on this tick (it
    stays at -180), while obstacles 2 to 9 are moved.  Tick 301 only shows
    the game-over screen, once, and schedules nothing. *)
Theorem last_hit_tick_skips_next_obstacle :
  session main ys0 steady (replicate 298 (Timer steady))
  = Ok crowded_main
  ∧ hp crowded_main = 1 ∧ Running crowded_main
  ∧ in_play_obstacles crowded_main = seq 0 9
  ∧ xs_of crowded_main (seq 0 9)
    = [-360; -180; 0; 180; 360; 540; 720; 900; 1080]
  ∧ deliver main (Timer steady) crowded_main = Ok crowded_main_hit
  ∧ hp crowded_main_hit = 0 ∧ Running crowded_main_hit
  ∧ in_play_obstacles crowded_main_hit = seq 1 9
  ∧ obstacle crowded_main_hit 1 = obstacle crowded_main 1
  ∧ xs_of crowded_main_hit (seq 1 9)
    = [-180; -6; 174; 354; 534; 714; 894; 1074; 1254]
  ∧ deliver main (Timer steady) crowded_main_hit
    = Ok (set_screen screen_over crowded_main_hit)
  ∧ deliver main (Timer steady) (set_screen screen_over crowded_main_hit)
    = Ok (set_screen screen_over crowded_main_hit).
Proof.
  split; [vm_compute; reflexivity|].
  do 4 (split; [reflexivity|]).
  split; [vm_compute; reflexivity|].
  do 5 (split; [reflexivity|]).
  split; vm_compute; reflexivity.
Qed.

(** * C8: an obstacle at the player's position *)

(** C8 on the code.  With the forced obstacle alone in play the next tick
    resolves the collision.  With obstacle 0 in front of it in the list, the
    tick recycles obstacle 0 (off-screen) and the loop then steps over the
    forced obstacle: no hitpoint is lost and the obstacle stays in play,
    unmoved, at the player's position. *)
Theorem collision_missed_behind_recycled :
  session main ys0 unlucky edge_events = Ok edge
  ∧ force_admit_at_player edge = Ok edge_forced
  ∧ Player.xcor (player edge_forced) = -1000
  ∧ Player.ycor (player edge_forced) = -250
  ∧ hp edge_forced = 1 ∧ score edge_forced = 0 ∧ Running edge_forced
  ∧ in_play_obstacles edge_forced = [0%nat; 1%nat]
  ∧ obstacle edge_forced 0 = Obstacle.mk (-660) (-270) false
  ∧ obstacle edge_forced 1 = Obstacle.mk (-1000) (-250) false
  ∧ (∃ g', deliver main (Timer unlucky) edge_forced = Ok g'
       ∧ hp g' = 1 ∧ score g' = 0
       ∧ in_play_obstacles g' = [1%nat]
       ∧ waiting_obstacles g' = seq 2 8 ++ [0%nat]
       ∧ obstacle g' 1 = Obstacle.mk (-1000) (-250) false)
  ∧ force_admit_at_player quiet_29 = Ok quiet_forced
  ∧ in_play_obstacles quiet_forced = [0%nat]
  ∧ obstacle quiet_forced 0 = Obstacle.mk (-400) (-250) false
  ∧ Player.xcor (player quiet_forced) = -400
  ∧ Player.ycor (player quiet_forced) = -250
  ∧ (∃ g', deliver main (Timer unlucky) quiet_forced = Ok g'
       ∧ hp g' = 0 ∧ score g' = 0
       ∧ in_play_obstacles g' = []
       ∧ waiting_obstacles g' = seq 1 9 ++ [0%nat]
       ∧ obstacle g' 0 = Obstacle.mk 1260 (-270) false).
Proof.
  split; [vm_compute; reflexivity|].
  repeat (split; [reflexivity|]).
  split; [eexists; split; [vm_compute; reflexivity|]; repeat split|].
  repeat (split; [reflexivity|]).
  eexists; split; [vm_compute; reflexivity|]; repeat split.
Qed.

(** * C3: the hitpoints never go below zero

    A tick takes one hitpoint per colliding obstacle, and [game_over] is
    only read between ticks, so the claim rests on the obstacles in play
    being too far apart for two of them to be in the player's collision box
    on one tick.  That holds while the player keeps its place during the
    loop: in main.py, and in main2.py when no key press is pending at the
    [update] of the collision branch.  A press of ['d'] handled there moves
    the player under the loop, and a second obstacle can hit it on the same
    tick.  Obstacles are admitted at least 30 ticks (180 units)
    apart; an obstacle misses one move of 6 units whenever the obstacle in
    front of it in the list is recycled, which can happen at most as many
    times as it has obstacles in front of it.  The invariant is: the gap
    behind the obstacle at position [k] of the in-play list is at least
    [6 * (21 + k)], where the last gap is the one to a virtual obstacle that
    stands at [1434 - 6 * obstacle_timer]. *)

Lemma min_gap_S k : min_gap (S k) = min_gap k + 6.
Proof. unfold min_gap. lia. Qed.

Lemma min_gap_126 k : 126 <= min_gap k.
Proof. unfold min_gap. lia. Qed.

Lemma spaced_from_weaken k prev l : spaced_from (S k) prev l → spaced_from k prev l.
Proof.
  revert k prev. induction l as [|x r IH]; intros k prev; cbn; [done|].
  rewrite !min_gap_S. intros [Hx Hr]. split; [lia | by apply IH].
Qed.

Lemma spaced_weaken k l : spaced (S k) l → spaced k l.
Proof. destruct l; [done|]. apply spaced_from_weaken. Qed.

Lemma spaced_from_spaced k prev l : spaced_from k prev l → spaced k l.
Proof.
  destruct l as [|x r]; [done|]. cbn. intros [_ H]. by apply spaced_from_weaken.
Qed.

Lemma spaced_from_shift k prev l c :
  spaced_from k prev l → spaced_from k (prev - c) ((λ x, x - c) <$> l).
Proof.
  revert k prev. induction l as [|x r IH]; intros k prev; cbn; [done|].
  intros [Hx Hr]. split; [lia | by apply IH].
Qed.

Lemma spaced_shift k l c : spaced k l → spaced k ((λ x, x - c) <$> l).
Proof. destruct l; [done|]. apply spaced_from_shift. Qed.

(** The last position may move right. *)
Lemma spaced_from_raise_last k prev l v v' :
  v <= v' → spaced_from k prev (l ++ [v]) → spaced_from k prev (l ++ [v']).
Proof.
  intros Hv. revert k prev. induction l as [|x r IH]; intros k prev; cbn.
  - intros [Hx _]. split; [lia | done].
  - intros [Hx Hr]. split; [done | by apply IH].
Qed.

Lemma spaced_raise_last k l v v' :
  v <= v' → spaced k (l ++ [v]) → spaced k (l ++ [v']).
Proof. destruct l; [done|]. apply spaced_from_raise_last. Qed.

(** A position may be added far enough behind the last one. *)
Lemma spaced_from_snoc k prev l a b :
  min_gap (k + S (length l)) <= b - a →
  spaced_from k prev (l ++ [a]) → spaced_from k prev (l ++ [a; b]).
Proof.
  revert k prev. induction l as [|x r IH]; intros k prev Hb; cbn.
  - intros [Hx _]. rewrite Nat.add_1_r in Hb. done.
  - intros [Hx Hr]. split; [done|]. apply IH; [|done].
    cbn in Hb. by rewrite Nat.add_succ_r in Hb.
Qed.

Lemma spaced_snoc k l a b :
  min_gap (k + length l) <= b - a →
  spaced k (l ++ [a]) → spaced k (l ++ [a; b]).
Proof.
  destruct l as [|x r]; cbn.
  - rewrite Nat.add_0_r. done.
  - intros Hb. apply spaced_from_snoc. by rewrite Nat.add_succ_r in Hb |- *.
Qed.

(** The current obstacle [a] is recycled and the next one, [b], misses its
    move: [b] stands 6 units to the right of where it would have stood, one
    place earlier in the list. *)
Lemma spaced_from_slide k prev p a b y r :
  spaced_from k prev (p ++ a :: b :: y :: r) →
  spaced_from k prev (p ++ (b + 6) :: y :: r).
Proof.
  revert k prev. induction p as [|q p IH]; intros k prev; cbn.
  - rewrite !min_gap_S. intros (Ha & Hb & Hy & Hr). pose proof (min_gap_126 k).
    split; [lia|]. split; [lia|]. by apply spaced_from_weaken.
  - intros [Hq Hp]. split; [done | by apply IH].
Qed.

Lemma spaced_slide k p a b y r :
  spaced k (p ++ a :: b :: y :: r) → spaced k (p ++ (b + 6) :: y :: r).
Proof.
  destruct p as [|q p]; cbn.
  - rewrite !min_gap_S. intros (Hb & Hy & Hr).
    split; [lia | by apply spaced_from_weaken].
  - apply spaced_from_slide.
Qed.

(** The last obstacle of the list is recycled. *)
Lemma spaced_from_drop_last k prev p a v :
  spaced_from k prev (p ++ [a; v]) → spaced_from k prev (p ++ [v]).
Proof.
  revert k prev. induction p as [|q p IH]; intros k prev; cbn.
  - rewrite !min_gap_S. intros (Ha & Hv & _). pose proof (min_gap_126 k).
    split; [lia | done].
  - intros [Hq Hp]. split; [done | by apply IH].
Qed.

Lemma spaced_drop_last k p a v : spaced k (p ++ [a; v]) → spaced k (p ++ [v]).
Proof.
  destruct p as [|q p]; cbn; [done|]. apply spaced_from_drop_last.
Qed.

Lemma hits_app px l l' : hits px (l ++ l') = hits px l + hits px l'.
Proof. induction l as [|x r IH]; cbn; [done|]. rewrite IH. lia. Qed.

Lemma hits_nonneg px l : 0 <= hits px l.
Proof. induction l as [|x r IH]; cbn; [done|]. destruct (bool_decide _); lia. Qed.

Lemma hits_drop px n l : hits px (drop n l) <= hits px l.
Proof.
  rewrite <- (take_drop n l) at 2. rewrite hits_app.
  pose proof (hits_nonneg px (take n l)). lia.
Qed.

Lemma spaced_from_no_hit k prev l px :
  px - (OBJECT_SIZE / 2 - BUFFER) < prev → spaced_from k prev l → hits px l = 0.
Proof.
  change (OBJECT_SIZE / 2 - BUFFER) with 40.
  revert k prev. induction l as [|x r IH]; intros k prev Hp; [done|].
  cbn [hits spaced_from]. change (OBJECT_SIZE / 2 - BUFFER) with 40.
  intros [Hx Hr]. pose proof (min_gap_126 k).
  rewrite bool_decide_eq_false_2 by lia.
  rewrite (IH (S k) x); [done | lia | done].
Qed.

(** At most one position of a spaced list is in the collision range. *)
Lemma spaced_hits k l px : spaced k l → hits px l <= 1.
Proof.
  revert k. induction l as [|x r IH]; intros k Hl; [cbn; lia|].
  cbn [hits]. destruct (bool_decide _) eqn:E.
  - apply bool_decide_eq_true in E. revert E.
    change (OBJECT_SIZE / 2 - BUFFER) with 40. intros E.
    rewrite (spaced_from_no_hit k x r px); [lia | | done].
    change (OBJECT_SIZE / 2 - BUFFER) with 40. lia.
  - specialize (IH k (spaced_from_spaced _ _ _ Hl)). lia.
Qed.

(** ** One iteration of the obstacle loop, seen from outside *)

Lemma handle_obstacle_hp v ob g g' :
  handle_obstacle v ob g = Ok g' →
  hp g' = hp g
  ∨ (hp g' = hp g - 1 ∧ check_collision g (obstacle g ob) = true).
Proof.
  unfold handle_obstacle; destruct v;
    unfold handle_obstacle_main, handle_obstacle_main2, handle_obstacle_main2_keys,
      press_keys; intros H.
  - destruct (check_collision g _) eqn:Hc.
    + rewrite handle_main_after_reset in H.
      apply reset_obstacle_score_hp in H as [_ ->]. by right.
    + left. inv_bind H. assert (hp g0 = hp g) as <-.
      { destruct (_ && _); by inversion H0. }
      destruct (Obstacle.is_out_of_screen _); [|by inversion H].
      by apply reset_obstacle_score_hp in H as [_ ->].
  - destruct (Obstacle.is_out_of_screen _).
    { left. by apply reset_obstacle_score_hp in H as [_ ->]. }
    destruct (check_collision g _) eqn:Hc.
    { right. by apply reset_obstacle_score_hp in H as [_ ->]. }
    left. destruct (_ && _); by inversion H.
Qed.

(** The body either keeps the obstacle in play, moved by 6 and with the
    hitpoints as they were, or recycles it to the spawn point, taking a
    hitpoint only if it was in the player's range. *)
Lemma obstacle_body_outcome v c ob g g1 :
  obstacle_body v c ob g = Ok g1 → (ob < length (obstacles g))%nat →
  length (obstacles g1) = length (obstacles g)
  ∧ ((in_play_obstacles g1 = in_play_obstacles g
      ∧ waiting_obstacles g1 = waiting_obstacles g
      ∧ Obstacle.xcor (obstacle g1 ob) = Obstacle.xcor (obstacle g ob) - 6
      ∧ hp g1 = hp g)
     ∨ (list_remove ob (in_play_obstacles g) = Ok (in_play_obstacles g1)
        ∧ waiting_obstacles g1 = waiting_obstacles g ++ [ob]
        ∧ obstacle g1 ob = Obstacle.new OBSTACLE_X OBSTACLE_Y
        ∧ (hp g1 = hp g
           ∨ hp g1 = hp g - 1
             ∧ in_range (Player.xcor (player g)) (Obstacle.xcor (obstacle g ob) - 6)))).
Proof.
  unfold obstacle_body. intros H Hlt.
  set (m := update_obstacle ob Obstacle.move g) in *.
  assert (obstacle m ob = Obstacle.move (obstacle g ob)) as Hm
    by (by apply obstacle_update_same).
  assert (length (obstacles m) = length (obstacles g)) as Hlen
    by (cbn; by rewrite length_insert).
  assert (hp g1 = hp g
          ∨ hp g1 = hp g - 1
            ∧ in_range (Player.xcor (player g)) (Obstacle.xcor (obstacle g ob) - 6))
    as Hhp.
  { apply handle_obstacle_hp in H as [H|[H Hc]]; [by left | right].
    split; [done|]. unfold check_collision in Hc.
    apply andb_true_iff in Hc as [Hc%bool_decide_eq_true _].
    by rewrite Hm in Hc. }
  assert (∀ g2 ip, length (obstacles g2) = length (obstacles g) →
            in_play_obstacles g2 = in_play_obstacles g →
            waiting_obstacles g2 = waiting_obstacles g →
            list_remove ob (in_play_obstacles g2) = Ok ip →
            length (obstacles (recycled ob g2 ip)) = length (obstacles g)
            ∧ list_remove ob (in_play_obstacles g) = Ok (in_play_obstacles (recycled ob g2 ip))
            ∧ waiting_obstacles (recycled ob g2 ip) = waiting_obstacles g ++ [ob]
            ∧ obstacle (recycled ob g2 ip) ob = Obstacle.new OBSTACLE_X OBSTACLE_Y)
    as Hrec.
  { intros g2 ip Hl2 Hi2 Hw2 Hip. split; [|split; [|split]].
    - cbn. by rewrite !length_insert.
    - by rewrite <- Hi2.
    - cbn. by rewrite Hw2.
    - apply obstacle_recycled. by rewrite Hl2. }
  apply handle_obstacle_cases in H as [->|[->|[H|[H|H]]]].
  - split; [done|]. left. rewrite Hm. auto.
  - split; [cbn; by rewrite !length_insert|]. left.
    rewrite award_dodge_xcor, Hm. auto.
  - apply reset_obstacle_Ok in H as (ip & Hip & ->).
    destruct (Hrec (damage_player m) ip) as (? & ? & ? & ?); auto.
    split; [done|]. right. repeat split; done.
  - apply reset_obstacle_Ok in H as (ip & Hip & ->).
    destruct (Hrec m ip) as (? & ? & ? & ?); auto.
    split; [done|]. right. repeat split; done.
  - apply reset_obstacle_Ok in H as (ip & Hip & ->).
    destruct (Hrec (award_dodge ob m) ip) as (? & ? & ? & ?); auto.
    { cbn. by rewrite !length_insert. }
    split; [done|]. right. repeat split; done.
Qed.

(** ** The spacing invariant on states *)

Lemma xs_of_ext g g' l :
  (∀ y, y ∈ l → obstacle g' y = obstacle g y) → xs_of g' l = xs_of g l.
Proof.
  intros H. unfold xs_of. apply list_fmap_ext. intros i y Hy.
  rewrite H; [done|]. eapply list_elem_of_lookup_2, Hy.
Qed.

Lemma xs_of_cons g x l :
  xs_of g (x :: l) = Obstacle.xcor (obstacle g x) :: xs_of g l.
Proof. reflexivity. Qed.

Lemma xs_of_app g l k : xs_of g (l ++ k) = xs_of g l ++ xs_of g k.
Proof. apply fmap_app. Qed.

Lemma obstacle_pool_NoDup g :
  obstacle_pool_ok g →
  NoDup (waiting_obstacles g ++ in_play_obstacles g)
  ∧ ∀ ob, ob ∈ in_play_obstacles g → (ob < length (obstacles g))%nat.
Proof.
  intros [Hperm Hlen]. split.
  - rewrite Hperm. apply NoDup_seq.
  - intros ob Hob. rewrite Hlen.
    assert (ob ∈ created) as Hc by (rewrite <- Hperm; apply elem_of_app; auto).
    apply elem_of_seq in Hc. lia.
Qed.

Lemma obstacle_body_spacing v c ob g g1 :
  spacing_at c g → in_play_obstacles g !! c = Some ob →
  obstacle_body v c ob g = Ok g1 →
  spacing_at (S c) g1
  ∧ hp g - pending_hits c g <= hp g1 - pending_hits (S c) g1.
Proof.
  intros (Hpool & Hpark & Hsp) E H.
  destruct (obstacle_pool_NoDup g Hpool) as [Hnd Hids].
  assert (ob ∈ in_play_obstacles g) as Hin by (eapply list_elem_of_lookup_2, E).
  pose proof (Hids ob Hin) as Hlt.
  assert (obstacle_pool_ok g1) as Hpool1.
  { eapply handle_obstacle_pool_ok; [exact H|]. by apply update_obstacle_pool_ok. }
  pose proof (obstacle_body_others v c ob g g1) as Hoth.
  pose proof (handle_obstacle_frame _ _ _ _ H) as Hfr. frame_inv Hfr.
  unfold spacing_at, lanes_at, pending_hits, horizon in *.
  repeat match goal with
         | Hx : Player.xcor (player g1) = _ |- _ => rewrite Hx
         | Hx : obstacle_timer g1 = _ |- _ => rewrite Hx
         end.
  set (px := Player.xcor (player g)) in *.
  set (h := 1434 - 6 * obstacle_timer g) in *.
  set (pre := take c (in_play_obstacles g)) in *.
  set (post := drop (S c) (in_play_obstacles g)).
  assert (in_play_obstacles g = pre ++ ob :: post) as Hip
    by (symmetry; by apply take_drop_middle).
  assert (length pre = c) as Hc.
  { apply length_take_le. apply lookup_lt_Some in E. lia. }
  rewrite (drop_S _ _ _ E) in Hsp |- *. fold post in Hsp |- *.
  apply NoDup_app in Hnd as (Hndw & Hdis & Hndi).
  rewrite Hip in Hndi. apply NoDup_app in Hndi as (_ & Hpre & [Hpost _]%NoDup_cons).
  assert (ob ∉ pre) as Hnpre by (intros Hx; apply (Hpre ob Hx); left).
  assert (xs_of g1 pre = xs_of g pre) as Hxpre.
  { apply xs_of_ext. intros y Hy. apply Hoth; [done|]. by intros ->. }
  assert (xs_of g1 post = xs_of g post) as Hxpost.
  { apply xs_of_ext. intros y Hy. apply Hoth; [done|]. by intros ->. }
  assert (∀ y, y ∈ waiting_obstacles g →
            Obstacle.xcor (obstacle g1 y) = OBSTACLE_X) as Hw.
  { intros y Hy. rewrite Hoth; [by apply Hpark | done |].
    intros ->. by apply (Hdis ob). }
  destruct (obstacle_body_outcome _ _ _ _ _ H Hlt)
    as (_ & [(Hi & Hwt & Hx & Hhp)|(Hi & Hwt & Hnew & Hhp)]).
  - (* kept in play *)
    rewrite Hi, (take_S_r _ _ _ E). fold pre post.
    rewrite xs_of_cons, fmap_cons in Hsp |- *.
    split; [split; [done|]; split|].
    + intros y Hy. rewrite Hwt in Hy. by apply Hw.
    + rewrite xs_of_app, xs_of_cons, Hxpre, Hxpost, Hx, <- app_assoc.
      exact Hsp.
    + rewrite Hxpost, Hhp. cbn [hits]. destruct (bool_decide _); lia.
  - (* recycled *)
    rewrite Hip, list_remove_middle in Hi by done. inversion Hi as [Hi'].
    replace (S c) with (length pre + 1)%nat by lia.
    rewrite take_app_add, drop_app_add.
    rewrite xs_of_cons, fmap_cons in Hsp |- *.
    split; [split; [done|]; split|].
    + intros y Hy. rewrite Hwt in Hy. apply elem_of_app in Hy as [Hy|Hy]; [by apply Hw|].
      apply list_elem_of_singleton in Hy as ->. by rewrite Hnew.
    + destruct post as [|b post'] eqn:Epost.
      * cbn [take drop]. rewrite app_nil_r, Hxpre.
        by apply spaced_drop_last in Hsp.
      * cbn [take drop]. rewrite take_0, drop_0. rewrite !xs_of_cons in Hxpost.
        rewrite xs_of_cons, fmap_cons in Hsp.
        inversion Hxpost as [[Hb Hrest]].
        rewrite xs_of_app, xs_of_cons, Hxpre, Hb, Hrest, <- app_assoc.
        change (xs_of g1 []) with (@nil Z). cbn [app].
        destruct (((λ x, x - 6) <$> xs_of g post') ++ [h]) as [|y r] eqn:Er;
          [by destruct (xs_of g post')|].
        cbn [app] in Hsp. rewrite Er in Hsp.
        apply spaced_slide in Hsp. by rewrite Z.sub_add in Hsp.
    + assert (hits px ((λ x, x - 6) <$> xs_of g1 (drop 1 post))
              <= hits px ((λ x, x - 6) <$> xs_of g post)) as Hle.
      { destruct post as [|b post']; [cbn; lia|]. cbn [drop]. rewrite drop_0.
        rewrite !xs_of_cons in *. inversion Hxpost as [[Hb Hrest]].
        rewrite Hrest, fmap_cons. cbn [hits]. destruct (bool_decide _); lia. }
      cbn [hits].
      destruct Hhp as [->|[-> Hr]].
      * destruct (bool_decide _); lia.
      * rewrite bool_decide_eq_true_2 by exact Hr. lia.
Qed.

Lemma lanes_at_end j g :
  in_play_obstacles g !! j = None →
  lanes_at j g = xs_of g (in_play_obstacles g) ++ [horizon g]
  ∧ pending_hits j g = 0.
Proof.
  intros Hj%lookup_ge_None. unfold lanes_at, pending_hits.
  by rewrite take_ge, drop_ge by lia.
Qed.

Lemma pending_hits_start g : spacing_at 0 g → pending_hits 0 g <= 1.
Proof.
  intros (_ & _ & Hsp). unfold lanes_at, pending_hits in *.
  rewrite take_0, drop_0 in *. cbn [xs_of fmap list_fmap app] in Hsp.
  apply (spaced_hits _ _ (Player.xcor (player g))) in Hsp.
  rewrite hits_app in Hsp.
  pose proof (hits_nonneg (Player.xcor (player g)) [horizon g]). lia.
Qed.

(** The loop over the obstacles keeps the spacing and takes at most one
    hitpoint. *)
Lemma obstacle_loop_spacing v fuel g g' :
  spacing_at 0 g → obstacle_loop v fuel 0 g = Ok g' →
  spacing_ok g' ∧ hp g - 1 <= hp g'.
Proof.
  intros Hsp H. pose proof (pending_hits_start g Hsp) as Hone.
  destruct (for_in_inv in_play_obstacles (obstacle_body v)
              (λ c g1, spacing_at c g1
                       ∧ hp g - pending_hits 0 g <= hp g1 - pending_hits c g1)
              fuel 0 g g') as (j & [Hj Hhp] & Hend);
    [|split; [exact Hsp|lia]|exact H|].
  - intros c g1 ob g2 [Hs1 Hh1] E Hb.
    destruct (obstacle_body_spacing v c ob g1 g2 Hs1 E Hb) as [Hs2 Hh2].
    split; [done | lia].
  - destruct (lanes_at_end j g' Hend) as [Hl Hp]. rewrite Hp in Hhp.
    destruct Hj as (Hpool & Hpark & Hs). rewrite Hl in Hs.
    split; [exact (conj Hpool (conj Hpark Hs)) | lia].
Qed.

Lemma spacing_at_ext c g g' :
  obstacle_side g' = obstacle_side g → spacing_at c g → spacing_at c g'.
Proof.
  unfold obstacle_side. intros Hs. inversion Hs as [[Ho Hw Hi Ht]].
  unfold spacing_at, obstacle_pool_ok, parked, lanes_at, horizon, xs_of, obstacle.
  by rewrite Ho, Hw, Hi, Ht.
Qed.

Lemma spacing_ok_ext g g' :
  obstacle_side g' = obstacle_side g → spacing_ok g → spacing_ok g'.
Proof.
  unfold obstacle_side. intros Hs. inversion Hs as [[Ho Hw Hi Ht]].
  unfold spacing_ok, obstacle_pool_ok, parked, horizon, xs_of, obstacle.
  by rewrite Ho, Hw, Hi, Ht.
Qed.

(** The start of a tick: the timers advance and an obstacle may be
    admitted. *)
Lemma spawn_obstacle_spacing v d g g1 :
  spacing_ok g → spawn_obstacle v d (tick_timers g) = Ok g1 → spacing_at 0 g1.
Proof.
  intros (Hpool & Hpark & Hsp) H.
  assert (spaced 0 (((λ x, x - 6) <$> xs_of g (in_play_obstacles g))
                    ++ [horizon g - 6])) as Hsp'.
  { apply (spaced_shift _ _ 6) in Hsp. by rewrite fmap_app in Hsp. }
  unfold spacing_at, lanes_at. rewrite take_0, drop_0. cbn [xs_of fmap list_fmap app].
  fold (xs_of g1 (in_play_obstacles g1)).
  apply spawn_obstacle_cases in H as [[_ ->]|[Hdue (ob & w & Hw & ->)]].
  - split; [done|]. split; [done|].
    replace (horizon (tick_timers g)) with (horizon g - 6)
      by (unfold horizon; cbn; lia).
    exact Hsp'.
  - cbn in Hw. unfold obstacle_due in Hdue. cbn in Hdue.
    rewrite !andb_true_iff in Hdue.
    destruct Hdue as [[[Ht%bool_decide_eq_true Hn%bool_decide_eq_true] _] _].
    split; [|split].
    + destruct Hpool as [Hperm Hlen]. split; [|done]. cbn.
      rewrite <- Hperm, Hw. rewrite (Permutation_app_comm (in_play_obstacles g)).
      cbn. by rewrite Permutation_middle.
    + intros y Hy. cbn in Hy. apply Hpark. rewrite Hw. by right.
    + change (xs_of _ (in_play_obstacles
                (set_obstacle_timer 0
                   (set_obstacle_pools w (in_play_obstacles (tick_timers g) ++ [ob])
                      (tick_timers g)))))
        with (xs_of g (in_play_obstacles g ++ [ob])).
      change (horizon _) with 1434.
      rewrite xs_of_app, fmap_app, <- app_assoc. cbn [xs_of fmap list_fmap app].
      rewrite (Hpark ob) by (rewrite Hw; left).
      change (OBSTACLE_X - 6) with 1254.
      apply spaced_snoc.
      * rewrite length_fmap. unfold xs_of. rewrite length_fmap.
        unfold min_gap. lia.
      * eapply spaced_raise_last; [|exact Hsp']. unfold horizon. lia.
Qed.

Lemma fall_hitpoints p : Player.hitpoints (Player.fall p) = Player.hitpoints p.
Proof. unfold Player.fall. cbn. by destruct (decide _). Qed.

(** A running tick keeps the spacing and takes at most one hitpoint. *)
Lemma game_loop_spacing v d g g' :
  spacing_ok g → game_over g = false → game_loop v d g = Ok g' →
  spacing_ok g' ∧ hp g - 1 <= hp g'.
Proof.
  intros Hsp Hrun H.
  destruct (game_loop_running _ _ _ _ Hrun H)
    as (g1 & g2 & g3 & g4 & H1 & H2 & H3 & H4 & ->).
  pose proof (spawn_obstacle_spacing _ _ _ _ Hsp H1) as Hs1.
  apply spawn_obstacle_keeps in H1. apply spawn_pickup_keeps in H2.
  frame_inv H1. frame_inv H2.
  assert (spacing_at 0 (player_falls g2)) as Hs2.
  { eapply spacing_at_ext; [|exact Hs1]. unfold obstacle_side. cbn. congruence. }
  destruct (obstacle_loop_spacing _ _ _ _ Hs2 H3) as [Hs3 Hhp].
  apply pickup_loop_frame in H4. frame_inv H4. split.
  - eapply spacing_ok_ext; [|exact Hs3]. unfold obstacle_side. cbn. congruence.
  - unfold hp in *. cbn in *. rewrite fall_hitpoints in Hhp.
    replace (player g4) with (player g3) by done.
    replace (player g) with (player g2) by congruence. exact Hhp.
Qed.

Lemma new_game_spacing v ys : spacing_ok (new_game v ys).
Proof.
  split; [apply new_game_pools_ok|]. split; [|done].
  intros ob Hob. change (ob ∈ seq 0 10) in Hob. apply elem_of_seq in Hob.
  do 10 (destruct ob as [|ob]; [reflexivity|]). lia.
Qed.

Lemma deliver_spacing v ev g g' :
  deliver v ev g = Ok g' → spacing_ok g ∧ 0 <= hp g → spacing_ok g' ∧ 0 <= hp g'.
Proof.
  intros H [Hsp Hhp]. destruct ev; cbn in H.
  - destruct (Screen.timer_pending _); [|by inversion H; subst].
    destruct (game_over (take_timer g)) eqn:E.
    + rewrite game_loop_over in H by done. inversion H; subst. done.
    + apply game_loop_spacing in H as [Hs Hh]; [|done..]. split; [done|].
      unfold game_over in E. apply bool_decide_eq_false in E.
      unfold hp in *. cbn in *. lia.
  - destruct (Screen.key_space _); inversion H; subst; [|done].
    split; [done|]. unfold hp, Player.jump. cbn. by destruct (decide _).
  - destruct (Screen.key_a _); inversion H; subst; [|done].
    split; [done|]. unfold hp. destruct v; cbn; [|destruct (decide _)]; done.
  - destruct (Screen.key_d _); inversion H; subst; [|done].
    split; [done|]. unfold hp. destruct v; cbn; [|destruct (decide _)]; done.
Qed.

Lemma reachable_spacing v g : reachable v g → spacing_ok g ∧ 0 <= hp g.
Proof.
  induction 1 as [ys d g H|g ev g' Hg IH H].
  - apply game_loop_spacing in H as [Hs Hh];
      [|apply new_game_spacing|apply new_game_running].
    split; [done|]. unfold hp in *. cbn in Hh. destruct v; cbn in Hh; lia.
  - by eapply deliver_spacing.
Qed.

(** ** Sessions without key presses inside a tick *)

Lemma for_in_ext lst body body' fuel i g :
  (∀ i x g, body i x g = body' i x g) →
  for_in lst body fuel i g = for_in lst body' fuel i g.
Proof.
  intros Hb. revert i g. induction fuel as [|fuel IH]; intros i g; cbn; [done|].
  destruct (lst g !! i) as [x|]; [|done]. rewrite Hb.
  destruct (body' i x g) as [g1| |]; [|done..]. rewrite !bind_Ok_l. apply IH.
Qed.

Lemma game_loop_keys_unfold v d keys g :
  game_loop_keys v d keys g =
  if negb (game_over g) then
    g1 ← spawn_obstacle v d (tick_timers g);
    g2 ← spawn_pickup v d g1;
    g3 ← obstacle_loop_keys v keys (S (length (in_play_obstacles g2))) 0
           (player_falls g2);
    g4 ← pickup_loop v d (S (length (in_play_pickups g3))) 0 g3;
    Ok (rearm g4)
  else Ok (show_game_over_screen g).
Proof. reflexivity. Qed.

Lemma obstacle_loop_keys_quiet v keys fuel i g :
  (v = main2 → quiet keys) →
  obstacle_loop_keys v keys fuel i g = obstacle_loop v fuel i g.
Proof.
  intros Hq. apply for_in_ext. intros j x g0.
  unfold obstacle_body_keys, obstacle_body. destruct v; [done|].
  cbn. by rewrite Hq.
Qed.

(** A tick with no key press pending inside it is a tick of [game_loop]. *)
Lemma game_loop_keys_quiet v d keys g :
  (v = main2 → quiet keys) → game_loop_keys v d keys g = game_loop v d g.
Proof.
  intros Hq. rewrite game_loop_keys_unfold, game_loop_unfold.
  destruct (negb _); [|done].
  destruct (spawn_obstacle v d _) as [g1| |]; [|done..]. rewrite !bind_Ok_l.
  destruct (spawn_pickup v d g1) as [g2| |]; [|done..]. rewrite !bind_Ok_l.
  by rewrite obstacle_loop_keys_quiet.
Qed.

(** On the first tick nothing is in play: no [update] of the loop is
    reached. *)
Lemma first_tick_keys v ys d k0 :
  game_loop_keys v d k0 (new_game v ys) = game_loop v d (new_game v ys).
Proof.
  rewrite game_loop_keys_unfold, game_loop_unfold, new_game_running.
  cbn [negb].
  destruct (spawn_obstacle v d _) as [g1| |] eqn:H1; [|done..].
  rewrite !bind_Ok_l.
  destruct (spawn_pickup v d g1) as [g2| |] eqn:H2; [|done..].
  rewrite !bind_Ok_l.
  assert (in_play_obstacles g2 = []) as Hip.
  { apply spawn_obstacle_cases in H1 as [[_ ->]|[Hdue _]]; [|done].
    apply spawn_pickup_keeps in H2. frame_inv H2. congruence. }
  unfold obstacle_loop_keys, obstacle_loop. rewrite Hip. cbn [length for_in].
  change (in_play_obstacles (player_falls g2)) with (in_play_obstacles g2).
  rewrite Hip. reflexivity.
Qed.

Lemma deliver_keys_quiet v ev keys g :
  (v = main2 → quiet keys) → deliver_keys v ev keys g = deliver v ev g.
Proof.
  intros Hq. destruct ev; [|done..]. cbn.
  destruct (Screen.timer_pending _); [|done]. by apply game_loop_keys_quiet.
Qed.

Lemma play_keys_quiet v evs g :
  quiet_session v evs → play_keys v evs g = play v evs.*1 g.
Proof.
  revert g. induction evs as [|[ev keys] evs IH]; intros g Hq; [done|].
  cbn. rewrite deliver_keys_quiet.
  - destruct (deliver v ev g) as [g1| |]; [|done..]. rewrite !bind_Ok_l.
    apply IH. intros Hv. specialize (Hq Hv). by inversion Hq.
  - intros Hv. specialize (Hq Hv). by inversion Hq.
Qed.

Lemma quietly_quiet v evs : quiet_session v (quietly evs).
Proof.
  intros _. unfold quietly. apply Forall_fmap, Forall_true. by intros ev i.
Qed.

Lemma quietly_events evs : (quietly evs).*1 = evs.
Proof.
  unfold quietly. rewrite <- list_fmap_compose. apply list_fmap_id.
Qed.

(** A session without key presses inside a tick is one of [reachable]. *)
Lemma quiet_session_reachable v ys d0 k0 evs g :
  session_keys v ys d0 k0 evs = Ok g → quiet_session v evs → reachable v g.
Proof.
  unfold session_keys. intros H Hq. rewrite first_tick_keys in H.
  inv_bind H. rewrite play_keys_quiet in H by done.
  eapply reachable_play; [|exact H]. eapply reach_start; eauto.
Qed.

(** C3, as the code has it: in every state of a session of main.py, and of
    a session of main2.py in which no key press is pending at the
    [screen.update()] of [handle_obstacle]'s collision branch, the player's
    hitpoints are at least 0. *)
Theorem hitpoints_never_negative v ys d0 k0 evs g :
  session_keys v ys d0 k0 evs = Ok g → quiet_session v evs → 0 <= hp g.
Proof.
  intros H Hq. apply (quiet_session_reachable _ _ _ _ _ _ H) in Hq.
  by apply reachable_spacing in Hq as [_ Hhp].
Qed.

Lemma hitpoints_never_negative_witness :
  session_keys main2 ys0 steady no_keys
    (quietly (double_hit_events ++ [Timer steady])) = Ok single_hit
  ∧ hp before_double_hit = 1 ∧ hp single_hit = 0 ∧ 0 <= hp single_hit.
Proof.
  assert (session_keys main2 ys0 steady no_keys
            (quietly (double_hit_events ++ [Timer steady]))
          = Ok single_hit) as Hs by (vm_compute; reflexivity).
  split; [exact Hs|]. split; [reflexivity|]. split; [reflexivity|].
  exact (hitpoints_never_negative main2 ys0 steady no_keys _ single_hit
           Hs (quietly_quiet main2 _)).
Defined.

(** C3 as stated fails in main2.py.  In the session of [before_double_hit]
    the player has one hitpoint left and is at [x = -550] on its way down
    from a jump, and obstacles 4, 5 and 6 are next in the in-play list, at
    -564, -390 and -210.  On the next tick the player falls to [y = -235],
    15 above the ground, and obstacle 4 moves to -570 and collides; the [update] of the collision branch finds
    twenty presses of ['d'] pending and the player walks to [x = -250]; the
    hitpoint is taken and obstacle 4 recycled; the loop steps over obstacle
    5; obstacle 6 moves to -216 and collides as well: the hitpoints are
    -1. *)
Lemma hitpoints_negative_after_key_in_tick :
  session_keys main2 ys0 steady no_keys (quietly double_hit_events)
  = Ok before_double_hit
  ∧ hp before_double_hit = 1
  ∧ Player.xcor (player before_double_hit) = -550
  ∧ Player.ycor (Player.fall (player before_double_hit)) = -235
  ∧ take 3 (in_play_obstacles before_double_hit) = [4; 5; 6]%nat
  ∧ xs_of before_double_hit [4; 5; 6]%nat = [-564; -390; -210]
  ∧ session_keys main2 ys0 steady no_keys
      (quietly double_hit_events ++ [(Timer steady, rush)])
    = Ok double_hit
  ∧ Player.xcor (player double_hit) = -250
  ∧ take 2 (in_play_obstacles double_hit) = [5; 7]%nat
  ∧ hp double_hit = -1
  ∧ ¬ 0 <= hp double_hit.
Proof.
  split; [vm_compute; reflexivity|].
  do 5 (split; [reflexivity|]).
  split; [vm_compute; reflexivity|].
  do 3 (split; [reflexivity|]).
  vm_compute. by intros H.
Qed.

(** * C4: dodge points *)

Lemma handle_obstacle_score v ob g g' :
  handle_obstacle v ob g = Ok g' →
  score g' = score g + (if dodge_awarded v g (obstacle g ob) then 1 else 0).
Proof.
  unfold handle_obstacle, dodge_awarded; destruct v;
    unfold handle_obstacle_main, handle_obstacle_main2, handle_obstacle_main2_keys,
      press_keys; fold (dodge_due g (obstacle g ob));
    fold (award_dodge ob g); intros H.
  - destruct (check_collision g _) eqn:Hc.
    + rewrite handle_main_after_reset in H.
      apply reset_obstacle_score_hp in H as [-> _]. cbn. lia.
    + inv_bind H. assert (score g0 = score g + (if dodge_due g (obstacle g ob) then 1 else 0)) as Hs.
      { destruct (dodge_due g _); inversion H0; cbn; lia. }
      rewrite andb_true_r. cbn [negb andb]. rewrite <- Hs.
      destruct (Obstacle.is_out_of_screen _); [|by inversion H].
      by apply reset_obstacle_score_hp in H as [-> _].
  - destruct (Obstacle.is_out_of_screen _).
    { apply reset_obstacle_score_hp in H as [-> _]. rewrite andb_false_r. lia. }
    destruct (check_collision g _) eqn:Hc.
    { apply reset_obstacle_score_hp in H as [-> _]. cbn. lia. }
    cbn [negb andb]. rewrite andb_true_r.
    destruct (dodge_due g _); inversion H; cbn; lia.
Qed.

Lemma counting_app flag l1 l2 :
  counting flag (l1 ++ l2) = counting flag l1 ≫= λ f, counting f l2.
Proof.
  revert flag. induction l1 as [|[] r IH]; intros flag; cbn; [done| |by rewrite IH].
  destruct flag; [done | by rewrite IH].
Qed.

Lemma tags_of_app ob l1 l2 : tags_of ob (l1 ++ l2) = tags_of ob l1 ++ tags_of ob l2.
Proof. unfold tags_of. by rewrite filter_app, fmap_app. Qed.

Lemma tags_of_other ob x g g1 : x ≠ ob → tags_of ob (obstacle_entry x g g1) = [].
Proof.
  intros Hne. unfold tags_of, obstacle_entry.
  destruct (bool_decide _), (bool_decide _); cbn [app];
    rewrite ?filter_cons, ?filter_nil; cbn [fst]; rewrite ?decide_False by done;
    reflexivity.
Qed.

Lemma tags_of_own ob g g1 :
  tags_of ob (obstacle_entry ob g g1)
  = (if bool_decide (score g1 = score g + 1) then [Dodged] else [])
    ++ (if bool_decide (ob ∈ in_play_obstacles g1) then [] else [Recycled]).
Proof.
  unfold tags_of, obstacle_entry.
  destruct (bool_decide _), (bool_decide _); cbn [app];
    rewrite ?filter_cons, ?filter_nil; cbn [fst]; rewrite ?decide_True by done;
    reflexivity.
Qed.

(** One call of the body on [ob] agrees with [ob]'s flag. *)
Lemma obstacle_entry_counting v i ob g g1 :
  obstacle_pool_ok g → ob ∈ in_play_obstacles g →
  obstacle_body v i ob g = Ok g1 →
  counting (Obstacle.counted (obstacle g ob)) (tags_of ob (obstacle_entry ob g g1))
  = Some (Obstacle.counted (obstacle g1 ob)).
Proof.
  intros Hpool Hin H. rewrite tags_of_own.
  destruct (obstacle_pool_NoDup g Hpool) as [(_ & _ & Hnd)%NoDup_app Hids].
  pose proof (Hids ob Hin) as Hlt. unfold obstacle_body in H.
  set (m := update_obstacle ob Obstacle.move g) in *.
  assert (obstacle m ob = Obstacle.move (obstacle g ob)) as Hm
    by (by apply obstacle_update_same).
  assert (length (obstacles m) = length (obstacles g)) as Hlen
    by (cbn; by rewrite length_insert).
  pose proof (handle_obstacle_score _ _ _ _ H) as Hs.
  change (score m) with (score g) in Hs.
  assert (dodge_awarded v m (obstacle m ob) = true →
          Obstacle.counted (obstacle g ob) = false) as Hfresh.
  { unfold dodge_awarded, dodge_due. rewrite Hm. cbn.
    rewrite !andb_true_iff. intros [[_ [_ Hc]] _]. by apply negb_true_iff in Hc. }
  assert (∀ g2 ip, list_remove ob (in_play_obstacles g) = Ok ip →
            (ob < length (obstacles g2))%nat →
            bool_decide (ob ∈ in_play_obstacles (recycled ob g2 ip)) = false
            ∧ Obstacle.counted (obstacle (recycled ob g2 ip) ob) = false) as Hrec.
  { intros g2 ip Hip Hl2. split; [|by rewrite obstacle_recycled].
    apply bool_decide_eq_false. cbn. apply list_remove_Ok in Hip.
    rewrite Hip in Hnd. by apply NoDup_cons in Hnd as [? _]. }
  assert (score g1 = score g + 1 → Obstacle.counted (obstacle g ob) = false) as Hone.
  { intros Hs1. apply Hfresh. destruct (dodge_awarded _ _ _); [done | lia]. }
  apply handle_obstacle_cases in H as [->|[->|[H|[H|H]]]].
  - rewrite bool_decide_eq_false_2 by (cbn; lia).
    rewrite bool_decide_eq_true_2 by done. cbn. by rewrite Hm.
  - rewrite bool_decide_eq_true_2 by (cbn; lia).
    rewrite bool_decide_eq_true_2 by done. cbn.
    rewrite Hone by (cbn; lia). unfold award_dodge.
    rewrite obstacle_update_same by (cbn; by rewrite length_insert).
    reflexivity.
  - apply reset_obstacle_Ok in H as (ip & Hip & ->).
    destruct (Hrec (damage_player m) ip Hip) as [-> ->];
      [change (ob < length (obstacles m))%nat; by rewrite Hlen|].
    rewrite bool_decide_eq_false_2 by (cbn; lia). reflexivity.
  - apply reset_obstacle_Ok in H as (ip & Hip & ->).
    destruct (Hrec m ip Hip) as [-> ->]; [by rewrite Hlen|].
    rewrite bool_decide_eq_false_2 by (cbn; lia). reflexivity.
  - apply reset_obstacle_Ok in H as (ip & Hip & ->).
    destruct (Hrec (award_dodge ob m) ip Hip) as [-> ->];
      [by cbn; rewrite !length_insert|].
    rewrite bool_decide_eq_true_2 by (cbn; lia). cbn.
    by rewrite Hone by (cbn; lia).
Qed.

Lemma obstacle_loop_counting v ob fuel i g g' :
  obstacle_pool_ok g → obstacle_loop v fuel i g = Ok g' →
  counting (Obstacle.counted (obstacle g ob))
    (tags_of ob (for_in_log in_play_obstacles (obstacle_body v) obstacle_entry fuel i g))
  = Some (Obstacle.counted (obstacle g' ob)).
Proof.
  unfold obstacle_loop. revert i g.
  induction fuel as [|fuel IH]; intros i g Hpool H; cbn in H; [discriminate|].
  cbn [for_in_log]. destruct (in_play_obstacles g !! i) as [x|] eqn:E;
    [|by inversion H].
  inv_bind H. rewrite H0, tags_of_app, counting_app.
  assert (obstacle_pool_ok g0) as Hpool0.
  { eapply handle_obstacle_pool_ok; [exact H0|]. by apply update_obstacle_pool_ok. }
  destruct (decide (x = ob)) as [->|Hne].
  - rewrite (obstacle_entry_counting v i ob g g0); [|done| |done].
    + cbn. by apply IH.
    + eapply list_elem_of_lookup_2, E.
  - rewrite tags_of_other by done. cbn.
    rewrite <- (obstacle_body_others v i x g g0 ob H0) by done. by apply IH.
Qed.

Lemma tick_counting v d ob g g' :
  obstacle_pool_ok g → game_loop v d g = Ok g' →
  counting (Obstacle.counted (obstacle g ob)) (tags_of ob (tick_log v d g))
  = Some (Obstacle.counted (obstacle g' ob)).
Proof.
  intros Hpool H. unfold tick_log. destruct (game_over g) eqn:Hrun.
  - rewrite game_loop_over in H by done. by inversion H.
  - destruct (game_loop_running _ _ _ _ Hrun H)
      as (g1 & g2 & g3 & g4 & H1 & H2 & H3 & H4 & ->).
    rewrite H1, H2.
    assert (obstacle_pool_ok g1) as Hpool1
      by (eapply spawn_obstacle_pool_ok; [exact H1|]; exact Hpool).
    apply spawn_obstacle_keeps in H1. apply spawn_pickup_keeps in H2.
    frame_inv H1. frame_inv H2.
    assert (obstacle_pool_ok (player_falls g2)) as Hpool2.
    { change (obstacle_pool_ok g2). unfold obstacle_pool_ok in *. congruence. }
    pose proof (obstacle_loop_counting v ob _ _ _ _ Hpool2 H3) as Hc.
    apply pickup_loop_frame in H4. frame_inv H4.
    unfold obstacle in *. cbn in *.
    replace (obstacles g) with (obstacles g2) by congruence.
    replace (obstacles g4) with (obstacles g3) by done. exact Hc.
Qed.

Lemma deliver_counting v ev ob g g' :
  obstacle_pool_ok g → deliver v ev g = Ok g' →
  counting (Obstacle.counted (obstacle g ob)) (tags_of ob (deliver_log v ev g))
  = Some (Obstacle.counted (obstacle g' ob)).
Proof.
  intros Hpool H. destruct ev; cbn in *.
  - destruct (Screen.timer_pending _); [|by inversion H].
    by apply (tick_counting v d ob (take_timer g) g').
  - by destruct (Screen.key_space _); inversion H.
  - by destruct (Screen.key_a _); inversion H.
  - by destruct (Screen.key_d _); inversion H.
Qed.

Lemma play_counting v evs ob g g' :
  pools_ok g → play v evs g = Ok g' →
  counting (Obstacle.counted (obstacle g ob)) (tags_of ob (play_log v evs g))
  = Some (Obstacle.counted (obstacle g' ob)).
Proof.
  revert g. induction evs as [|ev evs IH]; intros g Hpool H; cbn in H.
  - by inversion H.
  - inv_bind H. cbn [play_log]. rewrite H0, tags_of_app, counting_app.
    rewrite (deliver_counting v ev ob g g0) by (done || apply Hpool). cbn.
    apply IH; [|done]. by eapply deliver_pools_ok.
Qed.

Lemma session_counting v ys d0 evs ob g :
  session v ys d0 evs = Ok g → ob ∈ created →
  counting false (tags_of ob (session_log v ys d0 evs))
  = Some (Obstacle.counted (obstacle g ob)).
Proof.
  unfold session, session_log. intros H Hob. inv_bind H.
  rewrite H0, tags_of_app, counting_app.
  pose proof (new_game_pools_ok v ys) as Hnew.
  assert (Obstacle.counted (obstacle (new_game v ys) ob) = false) as Hfresh.
  { apply elem_of_seq in Hob. do 10 (destruct ob as [|ob]; [reflexivity|]). lia. }
  rewrite <- Hfresh at 1.
  rewrite (tick_counting v d0 ob _ g0) by (done || apply Hnew). cbn.
  apply play_counting; [|done]. by eapply game_loop_pools_ok.
Qed.

(** C4, as the code has it.  A resolution of an obstacle adds 1 to the
    score exactly when [dodge_awarded] holds: the obstacle does not collide,
    its x is strictly less than the player's, its flag [counted] is down and,
    in main2.py, it is not off-screen; in particular it adds nothing while
    [counted] is up.  Recycling leaves [counted] down.  And in the ledger of
    any session every obstacle's entries pass [counting]: a dodge point is
    only ever awarded with [counted] down, and a second one only after a
    recycle; so between two successive recycles an obstacle contributes at
    most one point (none when it is recycled first). *)
Theorem dodge_counted_at_most_once :
  (∀ v ob g g', handle_obstacle v ob g = Ok g' →
     score g' = score g + (if dodge_awarded v g (obstacle g ob) then 1 else 0))
  ∧ (∀ v ob g g', handle_obstacle v ob g = Ok g' →
       Obstacle.counted (obstacle g ob) = true → score g' = score g)
  ∧ (∀ ob g g', reset_obstacle ob g = Ok g' → (ob < length (obstacles g))%nat →
       Obstacle.counted (obstacle g' ob) = false)
  ∧ (∀ v ys d0 evs g ob, session v ys d0 evs = Ok g → ob ∈ created →
       counting false (tags_of ob (session_log v ys d0 evs))
       = Some (Obstacle.counted (obstacle g ob))).
Proof.
  split; [exact handle_obstacle_score|]. split; [|split].
  - intros v ob g g' H Hc. rewrite (handle_obstacle_score _ _ _ _ H).
    unfold dodge_awarded, dodge_due. rewrite Hc. cbn.
    rewrite !andb_false_r. cbn. lia.
  - intros ob g g' (ip & _ & ->)%reset_obstacle_Ok Hlt. by rewrite obstacle_recycled.
  - intros v ys d0 evs g ob. apply session_counting.
Qed.

Lemma dodge_counted_at_most_once_witness :
  session main ys0 unlucky runner_events = Ok runner
  ∧ 0%nat ∈ created
  ∧ tags_of 0 (session_log main ys0 unlucky runner_events) = [Dodged]
  ∧ score runner = 1
  ∧ counting false (tags_of 0 (session_log main ys0 unlucky runner_events))
    = Some (Obstacle.counted (obstacle runner 0)).
Proof.
  assert (session main ys0 unlucky runner_events = Ok runner) as H
    by (vm_compute; reflexivity).
  assert (0%nat ∈ created) as Hc by (apply elem_of_seq; lia).
  split; [exact H|]. split; [exact Hc|].
  split; [vm_compute; reflexivity|]. split; [reflexivity|].
  exact (proj2 (proj2 (proj2 dodge_counted_at_most_once))
           main ys0 unlucky runner_events runner 0%nat H Hc).
Defined.

(** C4 as stated fails: obstacle 0 is recycled twice in the session above
    and contributes no dodge point between its two recycles; the score is
    still 0 at the end. *)
Lemma recycled_twice_without_dodge :
  session main ys0 obstacle_only shy_events = Ok shy
  ∧ tags_of 0 (session_log main ys0 obstacle_only shy_events) = [Recycled; Recycled]
  ∧ Player.xcor (player shy) = -1000
  ∧ score shy = 0.
Proof.
  split; [vm_compute; reflexivity|]. split; [vm_compute; reflexivity|].
  split; reflexivity.
Qed.

(** What C8 says does hold of every obstacle the loop reaches: when the body
    runs on an in-play obstacle that stands at the player's x, within the
    collision range of its y (the player has fallen by then), and, for
    main2.py, no more than 6 units short of the off-screen boundary, it takes
    one hitpoint, leaves the score alone and recycles the obstacle with
    [counted] down. *)
Lemma body_resolves_collision v i ob g :
  ob ∈ in_play_obstacles g → (ob < length (obstacles g))%nat →
  Obstacle.xcor (obstacle g ob) = Player.xcor (player g) →
  Z.abs (Obstacle.ycor (obstacle g ob) - Player.ycor (player g)) < 40 →
  (v = main2 → -654 <= Player.xcor (player g)) →
  ∃ g', obstacle_body v i ob g = Ok g'
    ∧ hp g' = hp g - 1 ∧ score g' = score g
    ∧ ob ∈ waiting_obstacles g'
    ∧ obstacle g' ob = Obstacle.new OBSTACLE_X OBSTACLE_Y.
Proof.
  intros Hin Hlt Hx Hy Hon. unfold obstacle_body.
  set (m := update_obstacle ob Obstacle.move g).
  assert (obstacle m ob = Obstacle.move (obstacle g ob)) as Hm
    by (by apply obstacle_update_same).
  assert (check_collision m (obstacle m ob) = true) as Hc.
  { unfold check_collision. rewrite Hm. cbn. rewrite Hx.
    change (OBJECT_SIZE / 2 - BUFFER) with 40. change OBJECT_SPEED with 6.
    rewrite !bool_decide_eq_true_2; [done | exact Hy | lia]. }
  destruct (reset_obstacle_total ob (damage_player m) Hin) as (g' & Hg' & _).
  exists g'. pose proof Hg' as Hrec.
  apply reset_obstacle_Ok in Hrec as (ip & Hip & ->).
  split; [|split; [reflexivity|split; [reflexivity|split]]].
  - unfold handle_obstacle; destruct v;
      unfold handle_obstacle_main, handle_obstacle_main2, handle_obstacle_main2_keys,
      press_keys.
    + rewrite Hc. by rewrite handle_main_after_reset.
    + rewrite Hc. unfold Obstacle.is_out_of_screen. rewrite Hm. cbn. rewrite Hx.
      specialize (Hon eq_refl). change OBJECT_SPEED with 6.
      rewrite bool_decide_eq_false_2; [done|].
      change ((- SCREEN_WIDTH) / 2 - OBJECT_SIZE / 2) with (-660). lia.
  - cbn. apply elem_of_app. right. left.
  - apply obstacle_recycled. cbn. by rewrite length_insert.
Qed.

(** * Further properties of the code *)

(** ** The arc of a jump *)

Lemma fall_on_arc p : on_arc p → on_arc (Player.fall p).
Proof.
  unfold on_arc, Player.fall. cbn. change GRAVITY with 1.
  intros [[Hy Hd]|[Hd Hy]]; destruct (decide _) as [Hle|Hgt]; cbn; auto.
  - lia.
  - right. assert (Player.dy p <> -15) by nia. split; [lia | nia].
Qed.

Lemma jump_on_arc p : on_arc p → on_arc (Player.jump p).
Proof.
  unfold on_arc, Player.jump. intros H. destruct (decide _) as [Hle|Hgt]; [|done].
  cbn. right. split; [lia|]. destruct H as [[Hy _]|[Hd Hy]]; nia.
Qed.

Lemma game_loop_on_arc v d g g' :
  game_over g = false → game_loop v d g = Ok g' →
  on_arc (player g) → on_arc (player g').
Proof.
  intros Hrun H Harc.
  apply game_loop_kinematics in H as (_ & Hy & Hd); [|done].
  apply fall_on_arc in Harc. unfold on_arc in *. by rewrite Hy, Hd.
Qed.

Lemma reachable_on_arc v g : reachable v g → on_arc (player g).
Proof.
  induction 1 as [ys d g H|g ev g' Hg IH H].
  - eapply game_loop_on_arc; [apply new_game_running | exact H |]. by left.
  - destruct ev; cbn in H.
    + destruct (Screen.timer_pending _); [|by inversion H; subst].
      destruct (game_over (take_timer g)) eqn:E.
      * rewrite game_loop_over in H by done. by inversion H; subst.
      * eapply game_loop_on_arc; [exact E | exact H | exact IH].
    + destruct (Screen.key_space _); inversion H; subst; [|done].
      by apply jump_on_arc.
    + destruct (Screen.key_a _); inversion H; subst; [|done].
      cbn. destruct v; cbn; [done|]. by destruct (decide _).
    + destruct (Screen.key_d _); inversion H; subst; [|done].
      cbn. destruct v; cbn; [done|]. by destruct (decide _).
Qed.

(** X1: in every reachable state the player is at rest on the ground or on
    the arc of a jump; so it is never more than 120 above the ground and its
    vertical speed stays between -15 and 15. *)
Theorem jump_envelope v g :
  reachable v g →
  on_arc (player g)
  ∧ GROUND <= Player.ycor (player g) <= GROUND + 120
  ∧ -15 <= Player.dy (player g) <= 15.
Proof.
  intros Hg. pose proof (reachable_on_arc v g Hg) as Harc.
  split; [done|]. destruct Harc as [[Hy Hd]|[Hd Hy]]; [lia|nia].
Qed.

Lemma jump_envelope_witness :
  reachable main2 airborne
  ∧ Player.ycor (player airborne) = GROUND + 105
  ∧ Player.dy (player airborne) = 5
  ∧ GROUND <= Player.ycor (player airborne) <= GROUND + 120.
Proof.
  assert (reachable main2 airborne) as Hr.
  { apply (reachable_session main2 ys0 unlucky
             (Key_space :: replicate 10 (Timer unlucky))).
    vm_compute. reflexivity. }
  split; [exact Hr|]. split; [reflexivity|]. split; [reflexivity|].
  exact (proj1 (proj2 (jump_envelope main2 airborne Hr))).
Defined.

(** ** Where the player can stand *)

Lemma move_left_in_zone v p : in_zone v p → in_zone v (Player.move_left v p).
Proof.
  unfold in_zone, Player.move_left. intros [[z Hz] Hb].
  change PLAYER_SPEED with 15. change (OBJECT_SIZE / 2) with 60.
  change ((- SCREEN_WIDTH) / 2) with (-600).
  destruct v; [|destruct (decide _)]; cbn; (split; [|try done; try lia]);
    try (by exists z); exists (z - 1); lia.
Qed.

Lemma move_right_in_zone v p : in_zone v p → in_zone v (Player.move_right v p).
Proof.
  unfold in_zone, Player.move_right. intros [[z Hz] Hb].
  change PLAYER_SPEED with 15. change (OBJECT_SIZE / 2) with 60.
  change WALL with (-200).
  destruct v; [|destruct (decide _)]; cbn; (split; [|try done; try lia]);
    try (by exists z); exists (z + 1); lia.
Qed.

Lemma game_loop_xcor v d g g' :
  game_loop v d g = Ok g' → Player.xcor (player g') = Player.xcor (player g).
Proof.
  intros H. destruct (game_over g) eqn:E.
  - rewrite game_loop_over in H by done. by inversion H.
  - apply game_loop_kinematics in H as (-> & _); [|done].
    unfold Player.fall. cbn. by destruct (decide _).
Qed.

Lemma reachable_in_zone v g : reachable v g → in_zone v (player g).
Proof.
  induction 1 as [ys d g H|g ev g' Hg IH H].
  - apply game_loop_xcor in H. unfold in_zone. rewrite H.
    change (Player.xcor (player (new_game v ys))) with (-400).
    split; [by exists 0 | destruct v; [done | lia]].
  - destruct ev; cbn in H.
    + destruct (Screen.timer_pending _); [|by inversion H; subst].
      apply game_loop_xcor in H. unfold in_zone in *. by rewrite H.
    + destruct (Screen.key_space _); inversion H; subst; [|done].
      unfold in_zone, Player.jump in *. cbn. by destruct (decide _).
    + destruct (Screen.key_a _); inversion H; subst; [|done].
      by apply move_left_in_zone.
    + destruct (Screen.key_d _); inversion H; subst; [|done].
      by apply move_right_in_zone.
Qed.

(** X2: the player's x is always -400 plus a multiple of 15.  In main2.py
    the two bounds tests keep it between -550 and -250, and so an obstacle
    that is past the off-screen boundary never collides with the player
    there: the two tests of [handle_obstacle] never hold together. *)
Theorem player_stays_in_zone v g :
  reachable v g →
  (15 | Player.xcor (player g) + 400)
  ∧ (v = main2 →
     -550 <= Player.xcor (player g) <= -250
     ∧ ∀ o, Obstacle.is_out_of_screen o = true → check_collision g o = false).
Proof.
  intros [Hdiv Hb]%reachable_in_zone. split; [done|]. intros ->.
  split; [done|]. intros o Hoff. unfold Obstacle.is_out_of_screen in Hoff.
  apply bool_decide_eq_true in Hoff. unfold check_collision.
  apply andb_false_iff. left. apply bool_decide_eq_false.
  revert Hoff. change ((- SCREEN_WIDTH) / 2 - OBJECT_SIZE / 2) with (-660).
  change (OBJECT_SIZE / 2 - BUFFER) with 40. lia.
Qed.

Lemma player_stays_in_zone_witness :
  reachable main2 cornered
  ∧ Player.xcor (player cornered) = -550
  ∧ -550 <= Player.xcor (player cornered) <= -250.
Proof.
  assert (reachable main2 cornered) as Hr.
  { apply (reachable_session main2 ys0 unlucky (replicate 30 Key_a)).
    vm_compute. reflexivity. }
  split; [exact Hr|]. split; [reflexivity|].
  exact (proj1 (proj2 (player_stays_in_zone main2 cornered Hr) eq_refl)).
Defined.

(** ** Bounds on the score and the hitpoints *)

Lemma reachable_final v g :
  reachable v g →
  0 <= score g ∧ hp g <= HITPOINTS v ∧ (screen g = screen_over → hp g <= 0).
Proof.
  induction 1 as [ys d g H|g ev g' Hg IH H].
  - pose proof (game_loop_no_gain _ _ _ _ H) as [Hs Hh].
    apply game_loop_screen in H; [|done..]. rewrite new_game_running in H.
    cbn in Hs, Hh. unfold hp in Hh. cbn in Hh.
    split; [lia|]. split; [exact Hh|]. by rewrite H.
  - destruct IH as (Hs & Hh & Ho).
    pose proof (deliver_no_gain _ _ _ _ H) as [Hs' Hh'].
    split; [lia|]. split; [lia|]. intros Hover.
    destruct (reachable_screen v g Hg) as [Hrun|Hov]; [|specialize (Ho Hov); lia].
    destruct ev; cbn in H.
    + apply (Running_tick v d g g' Hg) in H;
        [|unfold Running; by rewrite Hrun].
      destruct (bool_decide (hp g <= 0)) eqn:E.
      * apply bool_decide_eq_true in E. lia.
      * by rewrite H in Hover.
    + destruct (Screen.key_space _); inversion H; subst; cbn in Hover;
        by rewrite Hrun in Hover.
    + destruct (Screen.key_a _); inversion H; subst; cbn in Hover;
        by rewrite Hrun in Hover.
    + destruct (Screen.key_d _); inversion H; subst; cbn in Hover;
        by rewrite Hrun in Hover.
Qed.

(** X3: in every state of a session of main.py, and of a session of
    main2.py in which no key press is pending at an [update] inside a tick,
    the score is at least 0 and the hitpoints are between 0 and their
    initial value; in the GameOver state they are exactly 0. *)
Theorem score_and_hitpoints_bounds v ys d0 k0 evs g :
  session_keys v ys d0 k0 evs = Ok g → quiet_session v evs →
  0 <= score g ∧ 0 <= hp g <= HITPOINTS v ∧ (GameOver g → hp g = 0).
Proof.
  intros H Hq. pose proof (quiet_session_reachable _ _ _ _ _ _ H Hq) as Hg.
  destruct (reachable_final v g Hg) as (Hs & Hh & Ho).
  destruct (reachable_spacing v g Hg) as [_ Hpos].
  split; [done|]. split; [lia|]. intros Hover.
  apply (GameOver_screen v g Hg) in Hover. specialize (Ho Hover). lia.
Qed.

Lemma score_and_hitpoints_bounds_witness :
  session_keys main2 ys0 steady no_keys
    (quietly (double_hit_events ++ [Timer steady])) = Ok single_hit
  ∧ hp single_hit = 0
  ∧ 0 <= score single_hit
  ∧ 0 <= hp single_hit <= HITPOINTS main2.
Proof.
  assert (session_keys main2 ys0 steady no_keys
            (quietly (double_hit_events ++ [Timer steady]))
          = Ok single_hit) as Hs by (vm_compute; reflexivity).
  split; [exact Hs|]. split; [reflexivity|].
  destruct (score_and_hitpoints_bounds main2 ys0 steady no_keys _
              single_hit Hs (quietly_quiet main2 _)) as (Hsc & Hhp & _).
  split; [exact Hsc|exact Hhp].
Defined.

(** ** Where the obstacles can stand *)

Lemma update_obstacle_on_lane ob f g :
  (∀ o, on_lane o → on_lane (f o)) →
  Forall on_lane (obstacles g) → Forall on_lane (obstacles (update_obstacle ob f g)).
Proof.
  intros Hf Hall. cbn. rewrite Forall_lookup in Hall |- *. intros i o Hi.
  apply list_lookup_insert_Some in Hi as [(-> & <- & Hlt)|[_ Hi]]; [|by eapply Hall].
  apply Hf. unfold obstacle.
  destruct (lookup_lt_is_Some_2 _ _ Hlt) as [o Ho].
  rewrite (list_lookup_total_correct _ _ _ Ho). by eapply Hall.
Qed.

Lemma on_lane_move o : on_lane o → on_lane (Obstacle.move o).
Proof.
  unfold on_lane. cbn. change OBJECT_SPEED with 6. intros (Hy & Hx & [z Hz]).
  split; [done|]. split; [lia|]. exists (z + 1). lia.
Qed.

Lemma on_lane_set_counted b o : on_lane o → on_lane (Obstacle.set_counted b o).
Proof. done. Qed.

Lemma on_lane_spawn o : on_lane (Obstacle.goto OBSTACLE_X OBSTACLE_Y o).
Proof. unfold on_lane. cbn. split; [done|]. split; [lia|]. exists 0. lia. Qed.

(** After its resolution an obstacle is never past the off-screen boundary:
    it has been recycled if it was. *)
Lemma handle_obstacle_on_screen v ob g g' :
  handle_obstacle v ob g = Ok g' →
  Obstacle.is_out_of_screen (obstacle g' ob) = false.
Proof.
  unfold handle_obstacle; destruct v;
    unfold handle_obstacle_main, handle_obstacle_main2, handle_obstacle_main2_keys,
      press_keys; intros H.
  - inv_bind H. destruct (Obstacle.is_out_of_screen (obstacle g0 ob)) eqn:E.
    + apply reset_obstacle_Ok in H as (ip & _ & ->). apply recycled_on_screen.
    + by inversion H; subst.
  - fold (award_dodge ob g) in H.
    destruct (Obstacle.is_out_of_screen (obstacle g ob)) eqn:E.
    { apply reset_obstacle_Ok in H as (ip & _ & ->). apply recycled_on_screen. }
    destruct (check_collision g _).
    { apply reset_obstacle_Ok in H as (ip & _ & ->). apply recycled_on_screen. }
    destruct (_ && _); inversion H; subst; [|done].
    unfold Obstacle.is_out_of_screen in *. by rewrite award_dodge_xcor.
Qed.

Lemma handle_obstacle_on_lane v ob g g' :
  handle_obstacle v ob g = Ok g' →
  Forall on_lane (obstacles g) → Forall on_lane (obstacles g').
Proof.
  intros H Hall.
  assert (∀ g2 ip, Forall on_lane (obstacles g2) →
            Forall on_lane (obstacles (recycled ob g2 ip))) as Hrec.
  { intros g2 ip H2. unfold recycled.
    apply update_obstacle_on_lane; [by intros; apply on_lane_set_counted|].
    apply update_obstacle_on_lane; [intros; apply on_lane_spawn|]. exact H2. }
  assert (Forall on_lane (obstacles (award_dodge ob g))) as Haw.
  { unfold award_dodge.
    apply update_obstacle_on_lane; [by intros; apply on_lane_set_counted|]. exact Hall. }
  apply handle_obstacle_cases in H as [->|[->|[H|[H|H]]]]; try done;
    apply reset_obstacle_Ok in H as (ip & _ & ->); by apply Hrec.
Qed.

Lemma obstacle_body_tidy v i ob g g1 :
  tidy g → ob ∈ in_play_obstacles g → obstacle_body v i ob g = Ok g1 → tidy g1.
Proof.
  intros (Hpool & Hall & Hwait & Hplay) Hin H.
  destruct (obstacle_pool_NoDup g Hpool) as [Hnd Hids].
  pose proof (Hids ob Hin) as Hlt.
  apply NoDup_app in Hnd as (_ & Hdis & Hndi).
  pose proof (obstacle_body_others v i ob g g1) as Hoth.
  split; [|split; [|split]].
  - eapply handle_obstacle_pool_ok; [exact H|]. by apply update_obstacle_pool_ok.
  - eapply handle_obstacle_on_lane; [exact H|].
    apply update_obstacle_on_lane; [apply on_lane_move | exact Hall].
  - intros y Hy.
    destruct (obstacle_body_outcome _ _ _ _ _ H Hlt)
      as (_ & [(_ & Hwt & _)|(_ & Hwt & Hnew & _)]); rewrite Hwt in Hy.
    + rewrite Hoth; [by apply Hwait | done |]. intros ->. by apply (Hdis ob).
    + apply elem_of_app in Hy as [Hy|Hy].
      * rewrite Hoth; [by apply Hwait | done |]. intros ->. by apply (Hdis ob).
      * apply list_elem_of_singleton in Hy as ->. exact Hnew.
  - intros y Hy. destruct (decide (y = ob)) as [->|Hne].
    + eapply handle_obstacle_on_screen. exact H.
    + rewrite Hoth by done. apply Hplay.
      destruct (obstacle_body_list _ _ _ _ _ H) as [Hsame|Hrem];
        [by rewrite <- Hsame|].
      apply list_remove_Ok in Hrem. rewrite Hrem. by right.
Qed.

Lemma obstacle_loop_tidy v fuel i g g' :
  tidy g → obstacle_loop v fuel i g = Ok g' → tidy g'.
Proof.
  intros Ht H.
  destruct (for_in_inv in_play_obstacles (obstacle_body v) (λ _ g1, tidy g1)
              fuel i g g') as (j & Hj & _); [|exact Ht|exact H|exact Hj].
  intros c g1 ob g2 Ht1 E Hb. eapply obstacle_body_tidy; [exact Ht1| |exact Hb].
  eapply list_elem_of_lookup_2, E.
Qed.

Lemma tidy_ext g g' : obstacle_side g' = obstacle_side g → tidy g → tidy g'.
Proof.
  unfold obstacle_side. intros Hs. inversion Hs as [[Ho Hw Hi Ht]].
  unfold tidy, obstacle_pool_ok, obstacle. by rewrite Ho, Hw, Hi.
Qed.

Lemma spawn_obstacle_tidy v d g g1 :
  tidy g → spawn_obstacle v d (tick_timers g) = Ok g1 → tidy g1.
Proof.
  intros Ht H. pose proof Ht as (Hpool & Hall & Hwait & Hplay).
  split; [by eapply spawn_obstacle_pool_ok; [exact H|]|].
  apply spawn_obstacle_cases in H as [[_ ->]|[_ (ob & w & Hw & ->)]];
    [by repeat split|].
  cbn in Hw. split; [done|]. split.
  - intros y Hy. apply Hwait. rewrite Hw. by right.
  - intros y Hy. cbn in Hy. apply elem_of_app in Hy as [Hy|Hy]; [by apply Hplay|].
    apply list_elem_of_singleton in Hy as ->.
    change (obstacle _ ob) with (obstacle g ob).
    rewrite Hwait by (rewrite Hw; left). reflexivity.
Qed.

Lemma game_loop_tidy v d g g' : tidy g → game_loop v d g = Ok g' → tidy g'.
Proof.
  intros Ht H. destruct (game_over g) eqn:Hrun.
  - rewrite game_loop_over in H by done. by inversion H; subst.
  - destruct (game_loop_running _ _ _ _ Hrun H)
      as (g1 & g2 & g3 & g4 & H1 & H2 & H3 & H4 & ->).
    pose proof (spawn_obstacle_tidy _ _ _ _ Ht H1) as Ht1.
    apply spawn_pickup_keeps in H2. frame_inv H2.
    assert (tidy (player_falls g2)) as Ht2.
    { eapply tidy_ext; [|exact Ht1]. unfold obstacle_side. cbn. congruence. }
    pose proof (obstacle_loop_tidy _ _ _ _ _ Ht2 H3) as Ht3.
    apply pickup_loop_frame in H4. frame_inv H4.
    eapply tidy_ext; [|exact Ht3]. unfold obstacle_side. cbn. congruence.
Qed.

Lemma new_game_tidy v ys : tidy (new_game v ys).
Proof.
  split; [apply new_game_pools_ok|]. split; [|split].
  - apply Forall_replicate. split; [done|]. split; [done|]. by exists 0.
  - intros ob Hob. change (ob ∈ seq 0 10) in Hob. apply elem_of_seq in Hob.
    do 10 (destruct ob as [|ob]; [reflexivity|]). lia.
  - intros ob Hob. by apply elem_of_nil in Hob.
Qed.

Lemma reachable_tidy v g : reachable v g → tidy g.
Proof.
  induction 1 as [ys d g H|g ev g' Hg IH H].
  - eapply game_loop_tidy; [apply new_game_tidy | exact H].
  - destruct ev; cbn in H.
    + destruct (Screen.timer_pending _); [|by inversion H; subst].
      eapply game_loop_tidy; [|exact H]. exact IH.
    + by destruct (Screen.key_space _); inversion H; subst.
    + by destruct (Screen.key_a _); inversion H; subst.
    + by destruct (Screen.key_d _); inversion H; subst.
Qed.

(** X4: in every reachable state a waiting obstacle is as [create_obstacle]
    made it (at the spawn point, [counted] down), and an obstacle in play
    stands on the lane [y = -270], at the spawn point [x = 1260] or a whole
    number of moves of 6 to its left, and not past the off-screen boundary
    [x = -660]. *)
Theorem obstacles_on_lane v g ob :
  reachable v g →
  (ob ∈ waiting_obstacles g → obstacle g ob = create_obstacle)
  ∧ (ob ∈ in_play_obstacles g →
     Obstacle.ycor (obstacle g ob) = -270
     ∧ -660 <= Obstacle.xcor (obstacle g ob) <= 1260
     ∧ (6 | 1260 - Obstacle.xcor (obstacle g ob))).
Proof.
  intros (Hpool & Hall & Hwait & Hplay)%reachable_tidy.
  split; [apply Hwait|]. intros Hin.
  destruct (obstacle_pool_NoDup g Hpool) as [_ Hids].
  destruct (lookup_lt_is_Some_2 _ _ (Hids ob Hin)) as [o Ho].
  specialize (Hplay ob Hin). unfold obstacle in *.
  rewrite (list_lookup_total_correct _ _ _ Ho) in *.
  rewrite Forall_lookup in Hall. destruct (Hall ob o Ho) as (Hy & Hx & Hd).
  apply bool_decide_eq_false in Hplay. revert Hplay.
  change ((- SCREEN_WIDTH) / 2 - OBJECT_SIZE / 2) with (-660).
  change OBSTACLE_X with 1260 in *. change OBSTACLE_Y with (-270) in *.
  intros Hplay. split; [done|]. split; [lia | done].
Qed.

Lemma obstacles_on_lane_witness :
  reachable main2 crowded
  ∧ 8%nat ∈ in_play_obstacles crowded
  ∧ Obstacle.xcor (obstacle crowded 8) = 1080
  ∧ -660 <= Obstacle.xcor (obstacle crowded 8) <= 1260.
Proof.
  assert (reachable main2 crowded) as Hr.
  { apply (reachable_session main2 ys0 obstacle_only
             (replicate 298 (Timer obstacle_only))).
    vm_compute. reflexivity. }
  assert (8%nat ∈ in_play_obstacles crowded) as Hin.
  { apply (bool_decide_unpack _). vm_compute. exact I. }
  split; [exact Hr|]. split; [exact Hin|]. split; [reflexivity|].
  exact (proj1 (proj2 (proj2 (obstacles_on_lane main2 crowded 8%nat Hr) Hin))).
Defined.

(** ** Jumping over the obstacles *)

Lemma obstacle_on_lane g ob :
  Forall on_lane (obstacles g) → (ob < length (obstacles g))%nat →
  on_lane (obstacle g ob).
Proof.
  intros Hall Hlt. destruct (lookup_lt_is_Some_2 _ _ Hlt) as [o Ho].
  unfold obstacle. rewrite (list_lookup_total_correct _ _ _ Ho).
  rewrite Forall_lookup in Hall. by eapply Hall.
Qed.

Lemma obstacle_loop_safe v fuel i g g' :
  tidy g → GROUND + 20 <= Player.ycor (player g) →
  obstacle_loop v fuel i g = Ok g' → hp g' = hp g.
Proof.
  intros Ht Hy H.
  destruct (for_in_inv in_play_obstacles (obstacle_body v)
              (λ _ g1, tidy g1
                       ∧ Player.ycor (player g1) = Player.ycor (player g)
                       ∧ hp g1 = hp g)
              fuel i g g') as (j & (_ & _ & Hj) & _); [|done|exact H|exact Hj].
  intros c g1 ob g2 (Ht1 & Hy1 & Hh1) E Hb.
  assert (ob ∈ in_play_obstacles g1) as Hin by (eapply list_elem_of_lookup_2, E).
  split; [by eapply obstacle_body_tidy|].
  pose proof (handle_obstacle_frame _ _ _ _ Hb) as Hfr. frame_inv Hfr.
  split; [congruence|]. rewrite <- Hh1.
  destruct Ht1 as (Hpool & Hall & _).
  destruct (obstacle_pool_NoDup g1 Hpool) as [_ Hids].
  unfold obstacle_body in Hb.
  set (m := update_obstacle ob Obstacle.move g1) in *.
  assert (on_lane (obstacle m ob)) as (Hlane & _).
  { apply obstacle_on_lane.
    - apply update_obstacle_on_lane; [apply on_lane_move | exact Hall].
    - cbn. rewrite length_insert. by apply Hids. }
  apply handle_obstacle_hp in Hb as [Hb|[_ Hc]]; [exact Hb|].
  unfold check_collision in Hc. apply andb_true_iff in Hc as [_ Hc].
  apply bool_decide_eq_true in Hc. rewrite Hlane in Hc.
  change (Player.ycor (player m)) with (Player.ycor (player g1)) in Hc.
  revert Hc Hy. rewrite Hy1.
  change (OBJECT_SIZE / 2 - BUFFER) with 40. change OBSTACLE_Y with (-270).
  change GROUND with (-250). lia.
Qed.

(** X5: a tick on which the player, once fallen, is 20 or more above the
    ground takes no hitpoint, whatever obstacles are in play: every obstacle
    stands on the lane [y = -270], out of the collision range of such a
    player. *)
Theorem high_jump_is_safe v d g g' :
  reachable v g →
  GROUND + 20 <= Player.ycor (Player.fall (player g)) →
  deliver v (Timer d) g = Ok g' → hp g' = hp g.
Proof.
  intros Ht%reachable_tidy Hy H. cbn in H.
  destruct (Screen.timer_pending _); [|by inversion H].
  destruct (game_over (take_timer g)) eqn:Hrun.
  { rewrite game_loop_over in H by done. by inversion H. }
  destruct (game_loop_running _ _ _ _ Hrun H)
    as (g1 & g2 & g3 & g4 & H1 & H2 & H3 & H4 & ->).
  assert (tidy g1) as Ht1.
  { eapply spawn_obstacle_tidy; [|exact H1]. eapply tidy_ext; [|exact Ht]. done. }
  apply spawn_obstacle_keeps in H1. apply spawn_pickup_keeps in H2.
  frame_inv H1. frame_inv H2.
  assert (tidy (player_falls g2)) as Ht2.
  { eapply tidy_ext; [|exact Ht1]. unfold obstacle_side. cbn. congruence. }
  apply obstacle_loop_safe in H3; [|exact Ht2|].
  - apply pickup_loop_frame in H4. frame_inv H4. unfold hp in *. cbn in *.
    rewrite fall_hitpoints in H3.
    replace (player g4) with (player g3) by done.
    replace (player g) with (player g2) by congruence. exact H3.
  - cbn. replace (player g2) with (player g) by congruence. exact Hy.
Qed.

Lemma high_jump_is_safe_witness :
  reachable main2 airborne
  ∧ Player.ycor (Player.fall (player airborne)) = GROUND + 110
  ∧ ∃ g', deliver main2 (Timer lucky) airborne = Ok g' ∧ hp g' = hp airborne.
Proof.
  assert (reachable main2 airborne) as Hr.
  { apply (reachable_session main2 ys0 unlucky
             (Key_space :: replicate 10 (Timer unlucky))).
    vm_compute. reflexivity. }
  split; [exact Hr|]. split; [reflexivity|].
  destruct (deliver_total main2 (Timer lucky) airborne) as (g' & Hg').
  exists g'. split; [exact Hg'|].
  apply (high_jump_is_safe main2 lucky airborne g' Hr); [vm_compute; discriminate|].
  exact Hg'.
Defined.

(** ** At most one pickup in play *)

Lemma pickup_loop_shrinks v d fuel i g g' :
  pickup_loop v d fuel i g = Ok g' →
  (length (in_play_pickups g') <= length (in_play_pickups g))%nat.
Proof.
  intros H.
  destruct (for_in_inv in_play_pickups (pickup_body v d)
              (λ _ g1, (length (in_play_pickups g1) <= length (in_play_pickups g))%nat)
              fuel i g g') as (j & Hj & _); [|done|exact H|exact Hj].
  intros c g1 pk g2 Hle _ Hb.
  destruct (pickup_body_list _ _ _ _ _ _ Hb) as [->|Hrem]; [done|].
  apply list_remove_length in Hrem. lia.
Qed.

Lemma game_loop_pickup_cap v d g g' :
  game_loop v d g = Ok g' →
  (length (in_play_pickups g) <= 1)%nat → (length (in_play_pickups g') <= 1)%nat.
Proof.
  intros H Hcap. destruct (game_over g) eqn:Hrun.
  - rewrite game_loop_over in H by done. by inversion H.
  - destruct (game_loop_running _ _ _ _ Hrun H)
      as (g1 & g2 & g3 & g4 & H1 & H2 & H3 & H4 & ->).
    apply spawn_obstacle_keeps in H1. frame_inv H1.
    assert (length (in_play_pickups g2) <= 1)%nat as Hcap2.
    { apply spawn_pickup_cases in H2 as [[_ ->]|[Hdue (pk & w & _ & ->)]];
        [congruence|].
      unfold pickup_due in Hdue. rewrite !andb_true_iff in Hdue.
      destruct Hdue as [[[_ Hn%bool_decide_eq_true] _] _].
      cbn. rewrite length_app. cbn. lia. }
    apply obstacle_loop_frame in H3. frame_inv H3.
    apply pickup_loop_shrinks in H4. cbn in *.
    replace (in_play_pickups g3) with (in_play_pickups g2) in H4 by done. lia.
Qed.

(** X6: in every reachable state at most one pickup is in play. *)
Theorem one_pickup_in_play v g :
  reachable v g → (length (in_play_pickups g) <= 1)%nat.
Proof.
  induction 1 as [ys d g H|g ev g' Hg IH H].
  - eapply game_loop_pickup_cap; [exact H|]. cbn. lia.
  - destruct ev; cbn in H.
    + destruct (Screen.timer_pending _); [|by inversion H; subst].
      eapply game_loop_pickup_cap; [exact H|]. exact IH.
    + by destruct (Screen.key_space _); inversion H; subst.
    + by destruct (Screen.key_a _); inversion H; subst.
    + by destruct (Screen.key_d _); inversion H; subst.
Qed.

Lemma one_pickup_in_play_witness :
  reachable main quiet_29_lucky
  ∧ length (in_play_pickups quiet_29_lucky) = 1%nat
  ∧ (length (in_play_pickups quiet_29_lucky) <= 1)%nat.
Proof.
  assert (reachable main quiet_29_lucky) as Hr.
  { apply (reachable_session main ys0 unlucky
             (replicate 28 (Timer unlucky) ++ [Timer lucky])).
    vm_compute. reflexivity. }
  split; [exact Hr|]. split; [reflexivity|].
  exact (one_pickup_in_play main quiet_29_lucky Hr).
Defined.

(** ** The admission code of the two variants *)

(** X7: the guard [if self.waiting_obstacles:] that main2.py adds around the
    pop is always passed when it is reached, so the admission code of the two
    variants does the same, for obstacles and for pickups; and [pop(0)]
    never raises. *)
Theorem spawners_agree d g :
  spawn_obstacle main d g = spawn_obstacle main2 d g
  ∧ spawn_pickup main d g = spawn_pickup main2 d g
  ∧ ∀ v, (∃ g', spawn_obstacle v d g = Ok g') ∧ (∃ g', spawn_pickup v d g = Ok g').
Proof.
  split; [|split].
  - unfold spawn_obstacle. destruct (obstacle_due d g) eqn:Hdue; [|done].
    unfold obstacle_due in Hdue. rewrite !andb_true_iff in Hdue.
    destruct Hdue as [[[_ _] Hw%bool_decide_eq_true] _].
    rewrite bool_decide_eq_true_2; [done|]. intros Hnil. rewrite Hnil in Hw.
    cbn in Hw. lia.
  - unfold spawn_pickup. destruct (pickup_due d g) eqn:Hdue; [|done].
    unfold pickup_due in Hdue. rewrite !andb_true_iff in Hdue.
    destruct Hdue as [[[_ _] Hw%bool_decide_eq_true] _].
    rewrite bool_decide_eq_true_2; [done|]. intros Hnil. rewrite Hnil in Hw.
    cbn in Hw. lia.
  - intros v. split; [apply spawn_obstacle_total | apply spawn_pickup_total].
Qed.

(** ** The two orders of the tests on a pickup *)

Lemma Qltb_lt a b : Qltb a b = true → (a < b)%Q.
Proof.
  unfold Qltb. rewrite negb_true_iff. intros H. apply Qnot_le_lt. intros Hle.
  apply Qle_bool_iff in Hle. congruence.
Qed.

(** X8: main.py tests a pickup for collision first and for having left the
    screen afterwards, main2.py the other way round.  The two resolutions
    return the same result unless the pickup is past the off-screen boundary
    and collides; then it is recycled by both, with 5 points in main.py and
    none in main2.py.  With the player at [x = -620] or further right, as
    always in main2.py, the case does not arise. *)
Theorem handle_pickup_orders y pk g :
  (Pickup.is_out_of_screen (pickup g pk) = false
   ∨ check_collision_pickup g (pickup g pk) = false →
   handle_pickup main y pk g = handle_pickup main2 y pk g)
  ∧ (Pickup.is_out_of_screen (pickup g pk) = true →
     check_collision_pickup g (pickup g pk) = true →
     handle_pickup main y pk g = reset_pickup y pk (set_score (score g + 5) g)
     ∧ handle_pickup main2 y pk g = reset_pickup y pk g)
  ∧ (-620 <= Player.xcor (player g) →
     Pickup.is_out_of_screen (pickup g pk) = true →
     check_collision_pickup g (pickup g pk) = false).
Proof.
  unfold handle_pickup, handle_pickup_main, handle_pickup_main2.
  split; [|split].
  - intros [Hoff|Hcol].
    + rewrite Hoff. destruct (check_collision_pickup g _).
      * apply handle_pickup_main_after_reset.
      * rewrite bind_Ok_l. by rewrite Hoff.
    + rewrite Hcol, bind_Ok_l. by destruct (Pickup.is_out_of_screen _).
  - intros Hoff Hcol. rewrite Hoff, Hcol. split; [|done].
    apply handle_pickup_main_after_reset.
  - intros Hpx Hoff. apply not_true_iff_false. intros Hcol.
    unfold check_collision_pickup in Hcol.
    apply andb_true_iff in Hcol as [Hcol%Qltb_lt _].
    apply Qltb_lt in Hoff.
    apply Qabs_Qlt_condition in Hcol as [Hlo _].
    rewrite Zle_Qle in Hpx. revert Hoff Hlo Hpx.
    change (inject_Z ((- SCREEN_WIDTH) / 2 - OBJECT_SIZE / 2)) with (-660 # 1)%Q.
    change (inject_Z (OBJECT_SIZE / 2 - BUFFER)) with (40 # 1)%Q.
    change (inject_Z (-620)) with (-620 # 1)%Q.
    generalize (inject_Z (Player.xcor (player g))) (Pickup.xcor (pickup g pk)).
    intros P x Hoff Hlo Hpx. lra.
Qed.

Lemma handle_pickup_orders_witness :
  -620 <= Player.xcor (player quiet_29_lucky)
  ∧ in_play_pickups quiet_29_lucky = [0%nat]
  ∧ Pickup.is_out_of_screen (pickup quiet_29_lucky 0) = false
  ∧ handle_pickup main (-110) 0 quiet_29_lucky
    = handle_pickup main2 (-110) 0 quiet_29_lucky.
Proof.
  split; [vm_compute; discriminate|]. split; [reflexivity|].
  split; [reflexivity|].
  apply (proj1 (handle_pickup_orders (-110) 0 quiet_29_lucky)).
  left. reflexivity.
Defined.

(** ** The distance between the obstacles in play *)

Lemma spaced_from_lookup k prev l j x :
  spaced_from k prev l → l !! j = Some x → min_gap k <= x - prev.
Proof.
  revert k prev j. induction l as [|a l IH]; intros k prev j Hs Hx; [done|].
  destruct Hs as [H1 H2]. destruct j as [|j]; cbn in Hx.
  - by inversion Hx; subst.
  - pose proof (IH _ _ _ H2 Hx). pose proof (min_gap_126 (S k)). lia.
Qed.

Lemma spaced_lookup k l i j a b :
  spaced k l → (i < j)%nat → l !! i = Some a → l !! j = Some b →
  min_gap (k + i) <= b - a.
Proof.
  revert k i j. induction l as [|a0 l IH]; intros k i j Hs Hij Ha Hb; [done|].
  destruct j as [|j]; [lia|]. cbn in Hb. destruct i as [|i]; cbn in Ha.
  - inversion Ha; subst. rewrite Nat.add_0_r. by eapply spaced_from_lookup.
  - assert (spaced (S k) l) as Hs' by (destruct l; [done|by destruct Hs]).
    replace (k + S i)%nat with (S k + i)%nat by lia.
    eapply IH; [exact Hs'| |exact Ha|exact Hb]. lia.
Qed.

(** X9: between two ticks the obstacles in play stand in the order of the
    in-play list, each at least 126 further right than the one before it
    (the one at position [i] and any later one are at least [6 * (21 + i)]
    apart), so that no two of them are in the player's 80 wide collision
    range together. *)
Theorem obstacles_keep_apart v g i j a b :
  reachable v g → (i < j)%nat →
  in_play_obstacles g !! i = Some a → in_play_obstacles g !! j = Some b →
  6 * (21 + Z.of_nat i)
    <= Obstacle.xcor (obstacle g b) - Obstacle.xcor (obstacle g a)
  ∧ (check_collision g (obstacle g a) = true →
     check_collision g (obstacle g b) = false).
Proof.
  intros Hg Hij Ha Hb. apply reachable_spacing in Hg as [(_ & _ & Hs) _].
  assert (min_gap (0 + i)
          <= Obstacle.xcor (obstacle g b) - Obstacle.xcor (obstacle g a)) as Hgap.
  { eapply spaced_lookup; [exact Hs|exact Hij|..]; apply lookup_app_l_Some;
      unfold xs_of; rewrite list_lookup_fmap; [by rewrite Ha|by rewrite Hb]. }
  unfold min_gap in Hgap. cbn [Nat.add] in Hgap. split; [exact Hgap|].
  intros Hca. apply not_true_iff_false. intros Hcb.
  unfold check_collision in Hca, Hcb.
  apply andb_true_iff in Hca as [Hca%bool_decide_eq_true _].
  apply andb_true_iff in Hcb as [Hcb%bool_decide_eq_true _].
  change (OBJECT_SIZE / 2 - BUFFER) with 40 in *. lia.
Qed.

Lemma obstacles_keep_apart_witness :
  reachable main2 crowded
  ∧ in_play_obstacles crowded !! 0%nat = Some 0%nat
  ∧ in_play_obstacles crowded !! 1%nat = Some 1%nat
  ∧ 126 <= Obstacle.xcor (obstacle crowded 1) - Obstacle.xcor (obstacle crowded 0).
Proof.
  assert (reachable main2 crowded) as Hr.
  { apply (reachable_session main2 ys0 obstacle_only
             (replicate 298 (Timer obstacle_only))).
    vm_compute. reflexivity. }
  split; [exact Hr|]. split; [reflexivity|]. split; [reflexivity|].
  apply (obstacles_keep_apart main2 crowded 0 1 0%nat 1%nat Hr);
    [lia|reflexivity|reflexivity].
Defined.

(** X10: in a session of main.py, and in a session of main2.py in which no
    key press is pending at an [update] inside a tick, one event takes at
    most one hitpoint, and gives none: however many obstacles a tick
    resolves, at most one of them hits the player. *)
Theorem one_hit_per_tick v ys d0 k0 evs ev keys g g' :
  session_keys v ys d0 k0 evs = Ok g → quiet_session v evs →
  (v = main2 → quiet keys) →
  deliver_keys v ev keys g = Ok g' → hp g - 1 <= hp g' <= hp g.
Proof.
  intros Hs Hq Hk H. rewrite deliver_keys_quiet in H by done.
  pose proof (quiet_session_reachable _ _ _ _ _ _ Hs Hq) as Hg.
  split; [|by apply deliver_no_gain in H as [_ H]].
  apply reachable_spacing in Hg as [Hsp _]. destruct ev; cbn in H.
  - destruct (Screen.timer_pending _); [|inversion H; subst; lia].
    destruct (game_over (take_timer g)) eqn:E.
    + rewrite game_loop_over in H by done. inversion H; subst.
      unfold hp. cbn. lia.
    + by apply game_loop_spacing in H as [_ Hh].
  - destruct (Screen.key_space _); inversion H; subst; [|lia].
    unfold hp, Player.jump. cbn. destruct (decide _); cbn; lia.
  - destruct (Screen.key_a _); inversion H; subst; [|lia].
    unfold hp. destruct v; cbn; [|destruct (decide _); cbn]; lia.
  - destruct (Screen.key_d _); inversion H; subst; [|lia].
    unfold hp. destruct v; cbn; [|destruct (decide _); cbn]; lia.
Qed.

Lemma one_hit_per_tick_witness :
  session_keys main2 ys0 steady no_keys (quietly double_hit_events)
  = Ok before_double_hit
  ∧ deliver_keys main2 (Timer steady) no_keys before_double_hit
    = Ok single_hit
  ∧ hp before_double_hit = 1 ∧ hp single_hit = 0
  ∧ hp before_double_hit - 1 <= hp single_hit <= hp before_double_hit.
Proof.
  assert (session_keys main2 ys0 steady no_keys
            (quietly double_hit_events) = Ok before_double_hit) as Hs
    by (vm_compute; reflexivity).
  assert (deliver_keys main2 (Timer steady) no_keys before_double_hit
          = Ok single_hit) as Hd by (vm_compute; reflexivity).
  split; [exact Hs|]. split; [exact Hd|]. split; [reflexivity|].
  split; [reflexivity|].
  exact (one_hit_per_tick main2 ys0 steady no_keys _ (Timer steady)
           no_keys before_double_hit single_hit Hs (quietly_quiet main2 _)
           (λ _ _, eq_refl) Hd).
Defined.

(** ** Which obstacles a tick moves *)

Lemma list_remove_delete x l l' i :
  NoDup l → l !! i = Some x → list_remove x l = Ok l' → l' = delete i l.
Proof.
  intros Hnd Hi H. rewrite delete_take_drop.
  rewrite <- (take_drop_middle _ _ _ Hi) in H, Hnd.
  apply NoDup_app in Hnd as (_ & Hdis & _).
  rewrite list_remove_middle in H by (intros Hin; by apply (Hdis x); [|left]).
  by inversion H.
Qed.

Lemma list_remove_gone x l l' : NoDup l → list_remove x l = Ok l' → x ∉ l'.
Proof.
  intros Hnd H. apply list_remove_Ok in H. rewrite H in Hnd.
  by apply NoDup_cons in Hnd as [Hx _].
Qed.

Section for_in_visiting.
Context (lst : Game → list nat) (body : nat → nat → Game → result Game).

Hypothesis body_list : ∀ i x g g1,
  body i x g = Ok g1 →
  lst g1 = lst g ∨ list_remove x (lst g) = Ok (lst g1).

Lemma body_step i x g g1 :
  NoDup (lst g) → lst g !! i = Some x → body i x g = Ok g1 →
  NoDup (lst g1) ∧ (lst g1 = lst g ∨ lst g1 = delete i (lst g)).
Proof.
  intros Hnd Hi H. destruct (body_list _ _ _ _ H) as [Hs|Hr].
  - rewrite Hs. auto.
  - apply (list_remove_delete _ _ _ i) in Hr; [|done..]. rewrite Hr.
    split; [|by right]. eapply sublist_NoDup; [exact Hnd|apply sublist_delete].
Qed.

(** The list only shrinks. *)
Lemma for_in_sublist fuel i g g' x :
  NoDup (lst g) → for_in lst body fuel i g = Ok g' → x ∈ lst g' → x ∈ lst g.
Proof.
  revert i g. induction fuel as [|fuel IH]; intros i g Hnd H Hx; cbn in H;
    [discriminate|].
  destruct (lst g !! i) as [y|] eqn:E; [|by inversion H; subst].
  inv_bind H. destruct (body_step _ _ _ _ Hnd E H0) as [Hnd1 Hl].
  pose proof (IH _ _ Hnd1 H Hx) as Hx0.
  destruct Hl as [Hl|Hl]; rewrite Hl in Hx0; [done|].
  by eapply list_elem_of_delete_inv.
Qed.

(** The body runs on elements at or behind the cursor only. *)
Lemma for_in_visits_behind fuel i g x :
  NoDup (lst g) → x ∈ for_in_visits lst body fuel i g →
  ∃ j, (i <= j)%nat ∧ lst g !! j = Some x.
Proof.
  revert i g. induction fuel as [|fuel IH]; intros i g Hnd Hx; cbn in Hx;
    [by apply elem_of_nil in Hx|].
  destruct (lst g !! i) as [y|] eqn:E; [|by apply elem_of_nil in Hx].
  apply elem_of_cons in Hx as [->|Hx]; [by exists i|].
  destruct (body i y g) as [g0| |] eqn:Hb; try by apply elem_of_nil in Hx.
  destruct (body_step _ _ _ _ Hnd E Hb) as [Hnd1 Hl].
  destruct (IH _ _ Hnd1 Hx) as (j & Hj & Hxj).
  destruct Hl as [Hl|Hl]; rewrite Hl in Hxj.
  - exists j. split; [lia|done].
  - rewrite list_lookup_delete_ge in Hxj by lia. exists (S j). split; [lia|done].
Qed.

(** The first element is visited, and so is every element whose
    predecessor is still in the list when the loop ends. *)
Lemma for_in_visited fuel i g g' :
  NoDup (lst g) → for_in lst body fuel i g = Ok g' →
  (∀ b, lst g !! i = Some b → b ∈ for_in_visits lst body fuel i g)
  ∧ (∀ j a b, (i <= j)%nat → lst g !! j = Some a → lst g !! S j = Some b →
       a ∈ lst g' → b ∈ for_in_visits lst body fuel i g).
Proof.
  revert i g. induction fuel as [|fuel IH]; intros i g Hnd H; cbn in H;
    [discriminate|]. cbn [for_in_visits].
  destruct (lst g !! i) as [x|] eqn:E.
  2:{ split; [done|]. intros j a b Hj Ha. apply lookup_ge_None in E.
      apply lookup_lt_Some in Ha. lia. }
  inv_bind H. rewrite H0.
  destruct (body_step _ _ _ _ Hnd E H0) as [Hnd1 Hl].
  destruct (IH _ _ Hnd1 H) as [Hfirst Hnext].
  split; [intros b [= <-]; left|].
  intros j a b Hj Ha Hb Hin. right. destruct Hl as [Hl|Hl].
  - destruct (decide (j = i)) as [->|Hne].
    + apply Hfirst. by rewrite Hl.
    + apply (Hnext j a b); [lia|by rewrite Hl..|done].
  - destruct (decide (j = i)) as [->|Hne].
    { (* the predecessor was removed here: it is not in the final list *)
      assert (a = x) as -> by congruence.
      pose proof (for_in_sublist _ _ _ _ _ Hnd1 H Hin) as Hin0.
      rewrite Hl in Hin0. apply list_elem_of_lookup in Hin0 as [k Hk].
      destruct (decide (k < i)%nat).
      - rewrite list_lookup_delete_lt in Hk by done.
        pose proof (NoDup_lookup _ _ _ _ Hnd E Hk). lia.
      - rewrite list_lookup_delete_ge in Hk by lia.
        pose proof (NoDup_lookup _ _ _ _ Hnd E Hk). lia. }
    destruct j as [|j]; [lia|].
    destruct (decide (j = i)) as [->|Hne'].
    + apply Hfirst. rewrite Hl, list_lookup_delete_ge by lia. done.
    + apply (Hnext j a b); [lia| | |done];
        rewrite Hl, list_lookup_delete_ge by lia; done.
Qed.

Context {T : Type} (obs : Game → nat → T).
Hypothesis body_obs : ∀ i x g g1 y,
  body i x g = Ok g1 → y ≠ x → obs g1 y = obs g y.

(** A visited element is visited once: what the loop leaves of it is
    what its own run of the body made of what the loop found. *)
Lemma for_in_visit_once fuel i g g' b :
  NoDup (lst g) → for_in lst body fuel i g = Ok g' →
  b ∈ for_in_visits lst body fuel i g →
  ∃ k g0 g1, NoDup (lst g0) ∧ obs g0 b = obs g b ∧ body k b g0 = Ok g1
             ∧ obs g' b = obs g1 b.
Proof.
  revert i g. induction fuel as [|fuel IH]; intros i g Hnd H Hb; cbn in H;
    [discriminate|]. cbn [for_in_visits] in Hb.
  destruct (lst g !! i) as [x|] eqn:E; [|by apply elem_of_nil in Hb].
  inv_bind H. rewrite H0 in Hb.
  destruct (body_step _ _ _ _ Hnd E H0) as [Hnd1 Hl].
  destruct (decide (b = x)) as [->|Hne].
  - exists i, g, g0. split; [done|]. split; [done|]. split; [done|].
    eapply (for_in_unvisited lst body obs body_obs); [exact H|].
    intros (j & Hj & Hxj)%for_in_visits_behind; [|done].
    destruct Hl as [Hl|Hl]; rewrite Hl in Hxj.
    + pose proof (NoDup_lookup _ _ _ _ Hnd E Hxj). lia.
    + rewrite list_lookup_delete_ge in Hxj by lia.
      pose proof (NoDup_lookup _ _ _ _ Hnd E Hxj). lia.
  - apply elem_of_cons in Hb as [->|Hb]; [done|].
    destruct (IH _ _ Hnd1 H Hb) as (k & g1 & g2 & Hnd2 & Ho & Hbody & Ho').
    exists k, g1, g2. split; [done|]. split; [|done]. rewrite Ho. eauto.
Qed.
End for_in_visiting.

Lemma obstacle_body_seen v i ob g g1 y :
  obstacle_body v i ob g = Ok g1 → y ≠ ob →
  (obstacle g1 y, length (obstacles g1), bool_decide (y ∈ in_play_obstacles g1))
  = (obstacle g y, length (obstacles g), bool_decide (y ∈ in_play_obstacles g)).
Proof.
  intros H Hne. rewrite (obstacle_body_others _ _ _ _ _ _ H Hne).
  assert (length (obstacles g1) = length (obstacles g)) as ->.
  { unfold obstacle_body in H.
    apply handle_obstacle_cases in H as [->|[->|[H|[H|H]]]];
      try (apply reset_obstacle_Ok in H as (ip & _ & ->));
      cbn; by rewrite ?length_insert. }
  f_equal. apply bool_decide_ext.
  destruct (obstacle_body_list _ _ _ _ _ H) as [->|Hr]; [done|].
  apply list_remove_Ok in Hr. rewrite Hr, elem_of_cons.
  split; [by right|by intros [?|?]].
Qed.

(** X11: in the loop over the in-play obstacles the body runs on the first
    obstacle of the list, and on every obstacle whose predecessor in the
    list is still in play when the loop ends.  Such an obstacle ends the
    loop either in play, exactly 6 further left, or recycled at the spawn
    point with its [counted] flag cleared.  The in-play list holds no object
    twice, as in every reachable state. *)
Theorem obstacle_moved_unless_behind_recycled v fuel g g' i b :
  NoDup (in_play_obstacles g) → (b < length (obstacles g))%nat →
  obstacle_loop v fuel 0 g = Ok g' →
  in_play_obstacles g !! i = Some b →
  (∀ j a, i = S j → in_play_obstacles g !! j = Some a →
          a ∈ in_play_obstacles g') →
  b ∈ for_in_visits in_play_obstacles (obstacle_body v) fuel 0 g
  ∧ ((b ∈ in_play_obstacles g'
      ∧ Obstacle.xcor (obstacle g' b) = Obstacle.xcor (obstacle g b) - 6)
     ∨ ((b ∉ in_play_obstacles g') ∧ obstacle g' b = create_obstacle)).
Proof.
  intros Hnd Hlt H Hi Hprev.
  assert (b ∈ in_play_obstacles g) as Hin by (by eapply list_elem_of_lookup_2).
  destruct (for_in_visited in_play_obstacles (obstacle_body v)
              (obstacle_body_list v) fuel 0 g g' Hnd H) as [Hfirst Hnext].
  assert (b ∈ for_in_visits in_play_obstacles (obstacle_body v) fuel 0 g) as Hv.
  { destruct i as [|j]; [by apply Hfirst|].
    destruct (lookup_lt_is_Some_2 (in_play_obstacles g) j) as [a Ha].
    { apply lookup_lt_Some in Hi. lia. }
    apply (Hnext j a b); [lia|done|done|by eapply Hprev]. }
  split; [exact Hv|].
  destruct (for_in_visit_once in_play_obstacles (obstacle_body v)
              (obstacle_body_list v)
              (λ g y, (obstacle g y, length (obstacles g),
                       bool_decide (y ∈ in_play_obstacles g)))
              (obstacle_body_seen v) fuel 0 g g' b Hnd H Hv)
    as (k & g0 & g1 & Hnd0 & Ho & Hbody & Ho').
  cbv beta in Ho, Ho'.
  apply pair_equal_spec in Ho as [[Hob Hlen]%pair_equal_spec Hmem].
  apply pair_equal_spec in Ho' as [[Hob' _]%pair_equal_spec Hmem'].
  destruct (obstacle_body_outcome _ _ _ _ _ Hbody) as [_ [Hkept|Hrec]];
    [by rewrite Hlen|..].
  - destruct Hkept as (Hip & _ & Hx & _). left. split.
    + apply (bool_decide_unpack _). rewrite Hmem', Hip, Hmem.
      by apply bool_decide_pack.
    + by rewrite Hob', Hx, Hob.
  - destruct Hrec as (Hrem & _ & Hnew & _). right. split; [|by rewrite Hob'].
    intros Hx. apply (list_remove_gone _ _ _ Hnd0 Hrem).
    apply (bool_decide_unpack _). rewrite <- Hmem'. by apply bool_decide_pack.
Qed.

Lemma obstacle_moved_unless_behind_recycled_witness :
  in_play_obstacles crowded_loop_start = seq 0 10
  ∧ obstacle_loop main2 11 0 crowded_loop_start = Ok crowded_loop_end
  ∧ in_play_obstacles crowded_loop_end = seq 1 9
  ∧ Obstacle.xcor (obstacle crowded_loop_start 2) = 0
  ∧ Obstacle.xcor (obstacle crowded_loop_end 2) = -6
  ∧ 2%nat ∈ for_in_visits in_play_obstacles (obstacle_body main2) 11 0
              crowded_loop_start.
Proof.
  assert (obstacle_loop main2 11 0 crowded_loop_start = Ok crowded_loop_end) as Hl.
  { vm_compute. reflexivity. }
  split; [reflexivity|]. split; [exact Hl|]. split; [reflexivity|].
  split; [reflexivity|]. split; [reflexivity|].
  apply (obstacle_moved_unless_behind_recycled main2 11 crowded_loop_start
           crowded_loop_end 2 2%nat).
  - apply (bool_decide_unpack _). vm_compute. exact I.
  - vm_compute. lia.
  - exact Hl.
  - reflexivity.
  - intros j a [= <-] [= <-]. apply (bool_decide_unpack _). vm_compute. exact I.
Defined.

(** ** The first thirty ticks *)

Lemma game_loop_warming_up v d g g' n :
  in_play_obstacles g = [] → obstacle_timer g = n → hp g = HITPOINTS v →
  n + 1 < 30 → game_loop v d g = Ok g' → warming_up v (n + 1) g'.
Proof.
  intros Hip Hot Hhp Hn H.
  assert (game_over g = false) as Hrun.
  { unfold game_over. apply bool_decide_eq_false. unfold hp in Hhp.
    rewrite Hhp. destruct v; cbn; lia. }
  destruct (game_loop_running _ _ _ _ Hrun H)
    as (g1 & g2 & g3 & g4 & H1 & H2 & H3 & H4 & ->).
  apply spawn_obstacle_cases in H1 as [[_ ->]|[Hdue _]].
  2:{ unfold obstacle_due in Hdue. rewrite !andb_true_iff in Hdue.
      destruct Hdue as [[[Hd%bool_decide_eq_true _] _] _]. cbn in Hd. lia. }
  apply spawn_pickup_keeps in H2. frame_inv H2.
  assert (in_play_obstacles (player_falls g2) = []) as Hip2
    by (cbn; congruence).
  unfold obstacle_loop in H3. cbn [for_in] in H3. rewrite Hip2 in H3.
  cbn in H3. inversion H3; subst g3; clear H3.
  apply pickup_loop_frame in H4. frame_inv H4.
  unfold warming_up, Running, hp in *. cbn.
  repeat split; try congruence.
  rewrite H2, fall_hitpoints. congruence.
Qed.

Lemma play_warming_up v evs g g' n :
  warming_up v n g → n + Z.of_nat (ticks evs) < 30 → play v evs g = Ok g' →
  warming_up v (n + Z.of_nat (ticks evs)) g'.
Proof.
  revert g n. induction evs as [|ev evs IH]; intros g n Hw Hn H; cbn in H.
  - inversion H; subst. cbn. by rewrite Z.add_0_r.
  - inv_bind H. destruct Hw as (Hip & Hot & Hhp & Hrun).
    destruct ev; cbn [ticks] in *.
    + cbn in H0. rewrite Hrun in H0.
      apply (game_loop_warming_up _ _ _ _ n) in H0; [|done|done|done|lia].
      replace (n + Z.of_nat (S (ticks evs))) with (n + 1 + Z.of_nat (ticks evs))
        by lia.
      apply (IH g0); [done|lia|done].
    + apply (IH g0); [|done..]. cbn in H0.
      destruct (Screen.key_space _); inversion H0; subst; [|done].
      repeat split; try done. unfold hp, Player.jump in *. cbn.
      by destruct (decide _).
    + apply (IH g0); [|done..]. cbn in H0.
      destruct (Screen.key_a _); inversion H0; subst; [|done].
      repeat split; try done. unfold hp in *.
      destruct v; cbn; [|destruct (decide _)]; done.
    + apply (IH g0); [|done..]. cbn in H0.
      destruct (Screen.key_d _); inversion H0; subst; [|done].
      repeat split; try done. unfold hp in *.
      destruct v; cbn; [|destruct (decide _)]; done.
Qed.

(** X12: in a session whose events hold fewer than 29 timer events (so at
    most 29 ticks have run, with the one of [__init__]) no obstacle is in
    play, the obstacle timer equals the number of ticks, the player has all
    its hitpoints and the game is running: the first obstacle is admitted on
    the 30th tick at the earliest. *)
Theorem no_obstacle_before_tick_30 v ys d0 evs g :
  session v ys d0 evs = Ok g → (ticks evs < 29)%nat →
  in_play_obstacles g = []
  ∧ obstacle_timer g = 1 + Z.of_nat (ticks evs)
  ∧ hp g = HITPOINTS v
  ∧ Running g.
Proof.
  unfold session. intros H Hn. inv_bind H.
  apply (game_loop_warming_up _ _ _ _ 0) in H0; [|done|done|done|lia].
  apply (play_warming_up _ _ _ _ (0 + 1)) in H; [exact H|exact H0|lia].
Qed.

Lemma no_obstacle_before_tick_30_witness :
  session main ys0 unlucky (replicate 28 (Timer unlucky)) = Ok quiet_29
  ∧ in_play_obstacles quiet_29 = []
  ∧ obstacle_timer quiet_29 = 29
  ∧ in_play_obstacles quiet_29_lucky = [0%nat].
Proof.
  assert (session main ys0 unlucky (replicate 28 (Timer unlucky)) = Ok quiet_29)
    as Hs by (vm_compute; reflexivity).
  split; [exact Hs|].
  destruct (no_obstacle_before_tick_30 main ys0 unlucky
              (replicate 28 (Timer unlucky)) quiet_29 Hs) as (Hip & Hot & _);
    [cbn; lia|].
  split; [exact Hip|]. split; [exact Hot|]. reflexivity.
Defined.

(** ** The pools as a queue *)

Lemma list_remove_absent x l : x ∉ l → list_remove x l = Raise ValueError.
Proof.
  induction l as [|y l IH]; intros Hx; cbn; [done|].
  apply not_elem_of_cons in Hx as [Hne Hx].
  rewrite decide_False by done. by rewrite IH.
Qed.

(** X14: [reset_obstacle] raises [ValueError] on an obstacle that is not in
    play, and the admission's [pop(0)] raises [IndexError] on an empty
    waiting list.  Admitting the head of the waiting list and recycling it
    again turns the waiting list by one place, the obstacle now last in it,
    and leaves the in-play list, the score and the hitpoints as they were. *)
Theorem admit_reset_round_trip g :
  (waiting_obstacles g = [] → admit_obstacle g = Raise IndexError)
  ∧ (∀ ob, ob ∉ in_play_obstacles g → reset_obstacle ob g = Raise ValueError)
  ∧ (∀ ob w, waiting_obstacles g = ob :: w → ob ∉ in_play_obstacles g →
       ∃ g1 g2, admit_obstacle g = Ok g1
         ∧ waiting_obstacles g1 = w
         ∧ in_play_obstacles g1 = in_play_obstacles g ++ [ob]
         ∧ reset_obstacle ob g1 = Ok g2
         ∧ waiting_obstacles g2 = w ++ [ob]
         ∧ in_play_obstacles g2 = in_play_obstacles g
         ∧ score g2 = score g ∧ hp g2 = hp g).
Proof.
  split; [|split].
  - intros Hw. unfold admit_obstacle. by rewrite Hw.
  - intros ob Hob. unfold reset_obstacle. by rewrite list_remove_absent.
  - intros ob w Hw Hob. unfold admit_obstacle. rewrite Hw. cbn [pop0].
    eexists _, _. split; [reflexivity|]. split; [reflexivity|].
    split; [reflexivity|]. unfold reset_obstacle. cbn [in_play_obstacles
      set_obstacle_pools]. rewrite list_remove_middle by done.
    rewrite bind_Ok_l. split; [reflexivity|]. rewrite app_nil_r. done.
Qed.

Lemma admit_reset_round_trip_witness :
  waiting_obstacles quiet_29 = seq 0 10
  ∧ reset_obstacle 0 quiet_29 = Raise ValueError
  ∧ (g1 ← admit_obstacle quiet_29; g2 ← reset_obstacle 0 g1;
     Ok (waiting_obstacles g2, in_play_obstacles g2))
    = Ok (seq 1 9 ++ [0%nat], []).
Proof.
  split; [reflexivity|].
  destruct (admit_reset_round_trip quiet_29) as (_ & Herr & Hround).
  split; [apply Herr; by intros ?%elem_of_nil|].
  destruct (Hround 0%nat (seq 1 9)) as (g1 & g2 & Ha & _ & _ & Hrs & Hw & Hi & _);
    [reflexivity|by intros ?%elem_of_nil|].
  rewrite Ha, bind_Ok_l, Hrs, bind_Ok_l, Hw, Hi. reflexivity.
Defined.

(** ** The player's walk in main.py *)

(** X15: main.py puts no bound on the player's walk: for every number [k]
    of steps there is a running session of main.py with the player [k]
    steps of 15 left of its starting abscissa -400, and one with it [k]
    steps right of it. *)
Theorem main_walk_unbounded (k : nat) :
  (∃ g, reachable main g ∧ Running g
        ∧ Player.xcor (player g) = -400 - 15 * Z.of_nat k)
  ∧ (∃ g, reachable main g ∧ Running g
          ∧ Player.xcor (player g) = -400 + 15 * Z.of_nat k).
Proof.
  assert (∃ g, reachable main g ∧ Running g ∧ Player.xcor (player g) = -400)
    as (g0 & Hr0 & Hrun0 & Hx0).
  { destruct (game_loop_total main unlucky (new_game main ys0)) as [g0 H0].
    exists g0. split; [by eapply reach_start|]. split.
    - apply game_loop_screen in H0; [|done..]. unfold Running.
      rewrite H0, new_game_running. reflexivity.
    - apply game_loop_xcor in H0. rewrite H0. reflexivity. }
  induction k as [|k [(gl & Hrl & Hrunl & Hxl) (gr & Hrr & Hrunr & Hxr)]].
  { split; exists g0; (split; [done|]); (split; [done|]); rewrite Hx0; lia. }
  split.
  - exists (set_player (Player.move_left main (player gl)) gl).
    pose proof (Running_screen _ _ Hrl Hrunl) as Hs.
    split; [|split].
    + eapply reach_step; [exact Hrl|]. instantiate (1 := Key_a). cbn.
      by rewrite Hs.
    + unfold Running. cbn. by rewrite Hs.
    + cbn. rewrite Hxl. change PLAYER_SPEED with 15. lia.
  - exists (set_player (Player.move_right main (player gr)) gr).
    pose proof (Running_screen _ _ Hrr Hrunr) as Hs.
    split; [|split].
    + eapply reach_step; [exact Hrr|]. instantiate (1 := Key_d). cbn.
      by rewrite Hs.
    + unfold Running. cbn. by rewrite Hs.
    + cbn. rewrite Hxr. change PLAYER_SPEED with 15. lia.
Qed.
